(** * The sub-agent announce queue (src/agents/subagent-announce-queue.ts)

    A shallow embedding of the per-key announce queue: the registry of
    queue states, the enqueue operation with its overflow policies, the
    text helpers that build summaries and batches, and the asynchronous
    drain loop, modelled as an event-driven state machine whose steps are
    the atomic sections between two [await]s of the source. *)

From Stdlib Require Import ZArith NArith QArith Qround Lia.
From Stdlib Require Import Ascii String DecimalString.
From Stdlib Require DecimalNat.
From stdpp Require Import base option list gmap.

Local Open Scope nat_scope.
Local Open Scope list_scope.

(** ** JavaScript strings

    A JS string is a sequence of UTF-16 code units; [length], [slice] and
    the whitespace tests of the source all count code units, so the
    embedding keeps them as numbers. *)

Definition code_unit : Type := N.
Abbreviation str := (list code_unit).

(** An ASCII literal of the source, as code units. *)
Definition lit (s : string) : str :=
  map N_of_ascii (list_ascii_of_string s).

(** U+2026 HORIZONTAL ELLIPSIS, one code unit. *)
Definition ellipsis : str := [8230%N].

(** [String(n)] for a non-negative integer counter. *)
Definition String_of_nat (n : nat) : str :=
  lit (NilEmpty.string_of_uint (Nat.to_uint n)).

(** The characters matched by [\s] and removed by [trim]: ECMAScript
    WhiteSpace and LineTerminator. *)
Definition isWhiteSpace (c : code_unit) : bool :=
  ((9 <=? c) && (c <=? 13) || (c =? 32) || (c =? 160) || (c =? 5760)
   || (8192 <=? c) && (c <=? 8202) || (c =? 8232) || (c =? 8233)
   || (c =? 8239) || (c =? 8287) || (c =? 12288) || (c =? 65279))%N.

Fixpoint trimStart (s : str) : str :=
  match s with
  | c :: s' => if isWhiteSpace c then trimStart s' else s
  | [] => []
  end.

Fixpoint trimEnd (s : str) : str :=
  match s with
  | [] => []
  | c :: s' =>
      match trimEnd s' with
      | [] => if isWhiteSpace c then [] else [c]
      | t => c :: t
      end
  end.

Definition trim (s : str) : str := trimEnd (trimStart s).

(** [s.replace(/\s+/g, " ")]: every maximal run of whitespace becomes one
    space.  [inRun] tells whether the previous character was whitespace. *)
Fixpoint collapse_from (inRun : bool) (s : str) : str :=
  match s with
  | [] => []
  | c :: s' =>
      if isWhiteSpace c
      then (if inRun then collapse_from true s'
            else 32%N :: collapse_from true s')
      else c :: collapse_from false s'
  end.

Definition collapseWhitespace (s : str) : str := collapse_from false s.

(** [lines.join(sep)]. *)
Fixpoint join (sep : str) (parts : list str) : str :=
  match parts with
  | [] => []
  | [p] => p
  | p :: rest => p ++ sep ++ join sep rest
  end.

Definition newline : str := [10%N].

(** [hay.includes(needle)]. *)
Fixpoint startsWith (needle hay : str) : bool :=
  match needle, hay with
  | [], _ => true
  | n :: needle', h :: hay' => (n =? h)%N && startsWith needle' hay'
  | _ :: _, [] => false
  end.

Fixpoint includes (needle hay : str) : bool :=
  startsWith needle hay ||
  match hay with
  | [] => false
  | _ :: hay' => includes needle hay'
  end.

(** A JS value used as a condition: a string is truthy when non-empty,
    [undefined] is falsy. *)
Definition truthy (o : option str) : bool :=
  match o with
  | Some (_ :: _) => true
  | _ => false
  end.
Arguments truthy : simpl never.

(** [function elideText(text, limit = 140)] *)
Definition elideText (text : str) (limit : nat) : str :=
  if length text <=? limit then text
  else trimEnd (firstn (Nat.max 0 (limit - 1)) text) ++ ellipsis.

(** ** JavaScript numbers

    A value of type [number] is a finite number, [NaN] or one of the two
    infinities; [typeof x === "number"] holds of all of them.  A finite
    number is modelled by its exact rational value: every double is a
    rational, and [Math.max], [Math.floor], the comparisons and the
    whole-number arithmetic of the source are exact on doubles.  The two
    zeros are one value here; the source only compares numbers.  Clock
    readings ([Date.now()], and with them [lastEnqueuedAt]) are finite
    and are kept as rationals. *)

Inductive number := Finite (q : Q) | NaN | Infinity | NegInfinity.

Coercion Finite : Q >-> number.

Declare Scope num_scope.
Delimit Scope num_scope with num.
Bind Scope num_scope with number.

(** Whole-number literals. *)
Definition number_of_Z (z : Z) : number := Finite (inject_Z z).
Definition number_to_Z (x : number) : option Z :=
  match x with
  | Finite (Qmake z 1) => Some z
  | _ => None
  end.
Number Notation number number_of_Z number_to_Z : num_scope.

(** [a > b] *)
Definition gtb (a b : number) : bool :=
  match a, b with
  | Finite x, Finite y => negb (Qle_bool x y)
  | Finite _, NegInfinity => true
  | Infinity, Finite _ => true
  | Infinity, NegInfinity => true
  | _, _ => false
  end.

(** [a >= b] *)
Definition geb (a b : number) : bool :=
  match a, b with
  | Finite x, Finite y => Qle_bool y x
  | Finite _, NegInfinity => true
  | Infinity, Finite _ => true
  | Infinity, Infinity => true
  | Infinity, NegInfinity => true
  | NegInfinity, NegInfinity => true
  | _, _ => false
  end.

(** [a <= b] *)
Definition leb (a b : number) : bool := geb b a.

(** [a < b] and [a <= b] as propositions. *)
Definition numLt (a b : number) : Prop := gtb b a = true.
Definition numLe (a b : number) : Prop := geb b a = true.

Infix "<" := numLt : num_scope.
Infix "<=" := numLe : num_scope.

(** [Math.max(a, b)]: [NaN] when an argument is [NaN]. *)
Definition Math_max (a b : number) : number :=
  match a, b with
  | NaN, _ => NaN
  | _, NaN => NaN
  | _, _ => if geb b a then b else a
  end.

(** [Math.floor(x)]: [NaN] and the infinities are returned as they are. *)
Definition Math_floor (x : number) : number :=
  match x with
  | Finite q => Finite (inject_Z (Qfloor q))
  | _ => x
  end.

Definition of_nat (n : nat) : number := Finite (inject_Z (Z.of_nat n)).

(** [-a], [a + b] and [a - b]. *)
Definition neg (a : number) : number :=
  match a with
  | Finite q => Finite (- q)
  | NaN => NaN
  | Infinity => NegInfinity
  | NegInfinity => Infinity
  end.

Definition add (a b : number) : number :=
  match a, b with
  | Finite x, Finite y => Finite (x + y)
  | NaN, _ => NaN
  | _, NaN => NaN
  | Infinity, NegInfinity => NaN
  | NegInfinity, Infinity => NaN
  | Infinity, _ => Infinity
  | _, Infinity => Infinity
  | NegInfinity, _ => NegInfinity
  | _, NegInfinity => NegInfinity
  end.

Definition sub (a b : number) : number := add a (neg b).

Infix "+" := add : num_scope.
Infix "-" := sub : num_scope.

(** ToIntegerOrInfinity of a finite number: truncation towards zero. *)
Definition ToInteger (x : Q) : Z :=
  if Qle_bool 0 x then Qfloor x else Qceiling x.

(** [arr.splice(0, count)]: the removed prefix and what stays in the
    array.  A negative count or [NaN] removes nothing, a count beyond
    the length removes everything. *)
Definition splice0 {A} (count : number) (arr : list A) : list A * list A :=
  let k :=
    match count with
    | Finite q => Z.to_nat (ToInteger q)
    | Infinity => length arr
    | NaN => 0
    | NegInfinity => 0
    end in
  (firstn k arr, skipn k arr).

(** ** Settings *)

(** Modelled from the spec: the declaration of [QueueMode] is in
    auto-reply/reply/queue.ts, which is not among the sources.  The
    source only compares the mode with the literal collect; the spec
    names the modes individual and collect, and every mode other than
    collect takes the individual path of the drain loop. *)
Inductive QueueMode := Collect | Individual.

(** Modelled from the spec: the declaration of [QueueDropPolicy] is in
    auto-reply/reply/queue.ts, which is not among the sources.  The
    source compares the policy with the literals new and summarize; the
    spec names the policies reject-new (new), evict-oldest (old) and
    evict-oldest-and-summarize (summarize). *)
Inductive QueueDropPolicy := Summarize | Old | New.

#[global] Instance QueueMode_eq_dec : EqDecision QueueMode.
Proof. solve_decision. Defined.
#[global] Instance QueueDropPolicy_eq_dec : EqDecision QueueDropPolicy.
Proof. solve_decision. Defined.

Module Settings.
(** [type AnnounceQueueSettings] *)
Record t := mk {
  mode : QueueMode;
  debounceMs : option number;
  cap : option number;
  dropPolicy : option QueueDropPolicy;
}.
End Settings.

Section AnnounceQueue.

(** The host's delivery contexts and send callbacks are opaque; origin
    normalisation and key derivation (utils/delivery-context.ts) are
    collaborators supplied from outside. *)
Context {DeliveryContext Callback : Type}.
Variable normalizeDeliveryContext :
  option DeliveryContext -> option DeliveryContext.
Variable deliveryContextKey : option DeliveryContext -> option str.

(** [type AnnounceQueueItem] *)
Record AnnounceQueueItem := mkItem {
  prompt : str;
  summaryLine : option str;
  enqueuedAt : number;
  sessionKey : str;
  origin : option DeliveryContext;
  originKey : option str;
}.

(** [type AnnounceQueueState].  [droppedCount] only ever counts up by
    one and is reset to zero, so it is a natural number. *)
Record AnnounceQueueState := mkState {
  items : list AnnounceQueueItem;
  draining : bool;
  lastEnqueuedAt : Q;
  mode : QueueMode;
  debounceMs : number;
  cap : number;
  dropPolicy : QueueDropPolicy;
  droppedCount : nat;
  summaryLines : list str;
  send : Callback;
}.

Definition set_prompt (p : str) (it : AnnounceQueueItem) :=
  mkItem p (summaryLine it) (enqueuedAt it) (sessionKey it)
         (origin it) (originKey it).

Definition set_origin (o : option DeliveryContext) (k : option str)
    (it : AnnounceQueueItem) :=
  mkItem (prompt it) (summaryLine it) (enqueuedAt it) (sessionKey it) o k.

Definition set_items (l : list AnnounceQueueItem) (q : AnnounceQueueState) :=
  mkState l (draining q) (lastEnqueuedAt q) (mode q) (debounceMs q) (cap q)
          (dropPolicy q) (droppedCount q) (summaryLines q) (send q).

Definition set_draining (b : bool) (q : AnnounceQueueState) :=
  mkState (items q) b (lastEnqueuedAt q) (mode q) (debounceMs q) (cap q)
          (dropPolicy q) (droppedCount q) (summaryLines q) (send q).

Definition set_lastEnqueuedAt (t : Q) (q : AnnounceQueueState) :=
  mkState (items q) (draining q) t (mode q) (debounceMs q) (cap q)
          (dropPolicy q) (droppedCount q) (summaryLines q) (send q).

Definition set_drops (n : nat) (lines : list str) (q : AnnounceQueueState) :=
  mkState (items q) (draining q) (lastEnqueuedAt q) (mode q) (debounceMs q)
          (cap q) (dropPolicy q) n lines (send q).

(** *** The registry: [const ANNOUNCE_QUEUES = new Map()] *)

Abbreviation Registry := (gmap str AnnounceQueueState).

(** The branch of [getAnnounceQueue] for an existing entry. *)
Definition mergeSettings (existing : AnnounceQueueState)
    (settings : Settings.t) (sendFn : Callback) : AnnounceQueueState :=
  {| items := items existing;
     draining := draining existing;
     lastEnqueuedAt := lastEnqueuedAt existing;
     mode := Settings.mode settings;
     debounceMs :=
       match Settings.debounceMs settings with
       | Some d => Math_max 0 d
       | None => debounceMs existing
       end;
     cap :=
       match Settings.cap settings with
       | Some c => if gtb c 0 then Math_floor c else cap existing
       | None => cap existing
       end;
     dropPolicy :=
       match Settings.dropPolicy settings with
       | Some p => p
       | None => dropPolicy existing
       end;
     droppedCount := droppedCount existing;
     summaryLines := summaryLines existing;
     send := sendFn |}.

(** The branch of [getAnnounceQueue] for a missing entry. *)
Definition createQueue (settings : Settings.t) (sendFn : Callback)
    : AnnounceQueueState :=
  {| items := [];
     draining := false;
     lastEnqueuedAt := 0;
     mode := Settings.mode settings;
     debounceMs :=
       match Settings.debounceMs settings with
       | Some d => Math_max 0 d
       | None => 1000
       end;
     cap :=
       match Settings.cap settings with
       | Some c => if gtb c 0 then Math_floor c else 20
       | None => 20
       end;
     dropPolicy :=
       match Settings.dropPolicy settings with
       | Some p => p
       | None => Summarize
       end;
     droppedCount := 0;
     summaryLines := [];
     send := sendFn |}.

(** [function getAnnounceQueue(key, settings, send)]: the queue object
    it returns, and the registry after the call. *)
Definition getAnnounceQueue (reg : Registry) (key : str)
    (settings : Settings.t) (sendFn : Callback)
    : AnnounceQueueState * Registry :=
  match reg !! key with
  | Some existing =>
      let merged := mergeSettings existing settings sendFn in
      (merged, <[key := merged]> reg)
  | None =>
      let created := createQueue settings sendFn in
      (created, <[key := created]> reg)
  end.

(** *** Text builders *)

(** The [cleaned] text of [buildQueueSummaryLine]: the summary line of
    the item, or its prompt when it has none (or a blank one), with
    whitespace collapsed. *)
Definition cleanedSummary (item : AnnounceQueueItem) : str :=
  let base :=
    match summaryLine item with
    | Some l => if truthy (Some (trim l)) then trim l else trim (prompt item)
    | None => trim (prompt item)
    end in
  trim (collapseWhitespace base).

(** [function buildQueueSummaryLine(item)] *)
Definition buildQueueSummaryLine (item : AnnounceQueueItem) : str :=
  elideText (cleanedSummary item) 160.

(** [function buildSummaryPrompt(queue)]: the text, if any, and the
    queue after the call. *)
Definition buildSummaryPrompt (queue : AnnounceQueueState)
    : option str * AnnounceQueueState :=
  if negb (bool_decide (dropPolicy queue = Summarize))
     || (droppedCount queue <=? 0)
  then (None, queue)
  else
    let header :=
      lit "[Queue overflow] Dropped " ++ String_of_nat (droppedCount queue)
      ++ lit " announce"
      ++ (if droppedCount queue =? 1 then lit "" else lit "s")
      ++ lit " due to cap." in
    let lines :=
      if 0 <? length (summaryLines queue)
      then [header] ++ [lit "Summary:"]
           ++ map (fun line => lit "- " ++ line) (summaryLines queue)
      else [header] in
    (Some (join newline lines), set_drops 0 [] queue).

(** [function buildCollectPrompt(items, summary)] *)
Definition collectHeader : str :=
  lit "[Queued announce messages while agent was busy]".

(** The block of one item: the template literal of the [forEach]
    callback, trimmed. *)
Definition collectBlock (idx : nat) (item : AnnounceQueueItem) : str :=
  trim (lit "---" ++ newline ++ lit "Queued #" ++ String_of_nat (idx + 1)
        ++ newline ++ prompt item).

Definition buildCollectPrompt (batch : list AnnounceQueueItem)
    (summary : option str) : str :=
  let blocks :=
    [collectHeader]
    ++ (match summary with
        | Some s => if truthy summary then [s] else []
        | None => []
        end)
    ++ imap collectBlock batch in
  join (newline ++ newline) blocks.

(** *** The cross-channel check *)

(** The [for] loop of [hasCrossChannelItems]; [None] is its early
    [return true]. *)
Fixpoint scanOrigins (batch : list AnnounceQueueItem)
    (keys : gset str) (hasUnkeyed : bool) : option (gset str * bool) :=
  match batch with
  | [] => Some (keys, hasUnkeyed)
  | item :: rest =>
      match origin item with
      | None => scanOrigins rest keys true
      | Some _ =>
          match originKey item with
          | Some k =>
              if truthy (Some k)
              then scanOrigins rest ({[k]} ∪ keys) hasUnkeyed
              else None
          | None => None
          end
      end
  end.

(** [function hasCrossChannelItems(items)] *)
Definition hasCrossChannelItems (batch : list AnnounceQueueItem) : bool :=
  match scanOrigins batch ∅ false with
  | None => true
  | Some (keys, hasUnkeyed) =>
      if size keys =? 0 then false
      else if hasUnkeyed then true
      else 1 <? size keys
  end.

(** *** Enqueue-side overflow handling *)

(** [for (const droppedItem of dropped) { queue.droppedCount += 1;
    queue.summaryLines.push(buildQueueSummaryLine(droppedItem)); }] *)
Definition recordDropped (dropped : list AnnounceQueueItem)
    (queue : AnnounceQueueState) : AnnounceQueueState :=
  fold_left
    (fun q droppedItem =>
       set_drops (droppedCount q + 1)
                 (summaryLines q ++ [buildQueueSummaryLine droppedItem]) q)
    dropped queue.

(** [while (queue.summaryLines.length > cap) queue.summaryLines.shift();] *)
Fixpoint shiftWhileOver (cap : number) (lines : list str) : list str :=
  match lines with
  | [] => []
  | _ :: rest =>
      if gtb (of_nat (length lines)) cap then shiftWhileOver cap rest
      else lines
  end.

(** *** The debounce wait

    [waitForQueueDebounce] fixes the debounce once, when it is called;
    the clock and [queue.lastEnqueuedAt] are read afresh by every call
    of [check], the first one in the promise executor and every later
    one from a timer. *)

(** How a call of [check] ends: with [resolve()], or with
    [setTimeout(check, debounceMs - since)].  The difference of the two
    doubles is rounded by the machine, so the timer keeps its two
    operands and the model does not compute the delay. *)
Inductive TimerResult :=
  | Resolve
  | SetTimeout (debounceMs since : number).

(** [const check = () => { ... }].  [debounceMs] is the constant of the
    enclosing call, [queue] the queue object as it is when [check] runs,
    [now] the value of [Date.now()] then.  Clock readings are whole
    milliseconds far below 2^53, on which the subtraction of doubles is
    exact; the comparison of two doubles is exact. *)
Definition check (debounceMs : number) (queue : AnnounceQueueState)
    (now : Q) : TimerResult :=
  let since := (now - lastEnqueuedAt queue)%Q in
  if geb since debounceMs then Resolve
  else SetTimeout debounceMs since.

(** [function waitForQueueDebounce(queue)], up to the return of the
    promise: the debounce that holds for the whole wait, and whether the
    promise is resolved by then or waits for a timer. *)
Definition waitForQueueDebounce (queue : AnnounceQueueState) (now : Q)
    : number * TimerResult :=
  let debounceMs := Math_max 0 (debounceMs queue) in
  if leb debounceMs 0 then (debounceMs, Resolve)
  else (debounceMs, check debounceMs queue now).

(** *** The drain loop as a state machine

    [scheduleAnnounceDrain] starts an asynchronous closure that suspends
    at two places: [await waitForQueueDebounce(queue)] and
    [await queue.send(...)].  Everything between two suspensions runs
    without interruption, so a step of the machine is one such section.
    The closure of a key is alive exactly while the key has an entry in
    [drains]; its local [forceIndividualCollect] and the place where it
    is suspended are its state.  The closure works on the queue object
    it was started for; an entry leaves the registry only in the
    [finally] block of its own closure, so that object is the registry's
    entry of the key for as long as the closure lives, and the model
    reads and writes it there.  When the debounce timer fires and how a
    send settles is decided by the environment, as events: time is not
    tracked, a timer event may come at any moment, which covers every
    moment at which [waitForQueueDebounce] can resolve (a wait whose
    debounce is [NaN] or [Infinity] never does: for such a queue the
    timer events are more than the source can show).  A send that
    throws at once and a send that rejects later both reach the [catch]
    block and are the same event. *)

Inductive Await := AwaitDebounce | AwaitSend.

Record DrainTask := mkTask {
  forceIndividualCollect : bool;
  awaiting : Await;
}.

(** What the machine does that can be seen from outside: an
    idle-to-draining transition ([queue.draining = true]), a call
    [queue.send(arg)] together with the items the cycle took out of the
    queue for it, and a call of [defaultRuntime.error]. *)
Inductive Obs :=
| ObsStart (key : str)
| ObsSend (key : str) (callback : Callback)
          (removed : list AnnounceQueueItem) (arg : AnnounceQueueItem)
| ObsError (message : str).

Record World := mkWorld {
  queues : Registry;
  drains : gmap str DrainTask;
  trace : list Obs;
}.

Definition emptyWorld : World := mkWorld ∅ ∅ [].

(** [queue.items.length > 0 || queue.droppedCount > 0] *)
Definition loopCondition (queue : AnnounceQueueState) : bool :=
  (0 <? length (items queue)) || (0 <? droppedCount queue).

(** [queue.items.length === 0 && queue.droppedCount === 0] *)
Definition backlogEmpty (queue : AnnounceQueueState) : bool :=
  (length (items queue) =? 0) && (droppedCount queue =? 0).

(** The [finally] block of the closure; [reschedule] is its call of
    [scheduleAnnounceDrain].  The closure ends here. *)
Definition drainFinally (reschedule : str -> World -> option World)
    (key : str) (w : World) : option World :=
  match queues w !! key with
  | None => Some (mkWorld (queues w) (delete key (drains w)) (trace w))
  | Some queue =>
      let queue := set_draining false queue in
      if backlogEmpty queue
      then Some (mkWorld (delete key (queues w)) (delete key (drains w))
                         (trace w))
      else reschedule key
             (mkWorld (<[key := queue]> (queues w)) (delete key (drains w))
                      (trace w))
  end.

(** The head of the [while] loop: suspend at the debounce wait, or leave
    the loop and run [finally]. *)
Definition drainLoop (reschedule : str -> World -> option World)
    (key : str) (force : bool) (w : World) : option World :=
  match queues w !! key with
  | None => Some (mkWorld (queues w) (delete key (drains w)) (trace w))
  | Some queue =>
      if loopCondition queue
      then Some (mkWorld (queues w)
                         (<[key := mkTask force AwaitDebounce]> (drains w))
                         (trace w))
      else drainFinally reschedule key w
  end.

(** [function scheduleAnnounceDrain(key)], up to the first suspension of
    the closure it starts.  The [finally] block calls it again, so the
    recursion is bounded by [fuel]; [None] means the fuel ran out. *)
Fixpoint scheduleAnnounceDrain_fuel (fuel : nat) (key : str) (w : World)
    : option World :=
  match fuel with
  | 0 => None
  | S fuel' =>
      match queues w !! key with
      | None => Some w
      | Some queue =>
          if draining queue then Some w
          else
            drainLoop (scheduleAnnounceDrain_fuel fuel') key false
              (mkWorld (<[key := set_draining true queue]> (queues w))
                       (drains w) (trace w ++ [ObsStart key]))
      end
  end.

(** One unit of fuel is always enough (lemmas
    [scheduleAnnounceDrain_total] and [scheduleAnnounceDrain_fuel_enough]
    below). *)
Definition scheduleAnnounceDrain (key : str) (w : World) : option World :=
  scheduleAnnounceDrain_fuel 1 key w.

(** [export function enqueueAnnounce(params)]; [now] is the value of
    [Date.now()] at the call. *)
Definition enqueueAnnounce (key : str) (item : AnnounceQueueItem)
    (settings : Settings.t) (sendFn : Callback) (now : Q) (w : World)
    : option (bool * World) :=
  let '(queue, reg) := getAnnounceQueue (queues w) key settings sendFn in
  let queue := set_lastEnqueuedAt now queue in
  let cap := cap queue in
  let push (queue : AnnounceQueueState) :=
    let origin := normalizeDeliveryContext (origin item) in
    let originKey := deliveryContextKey origin in
    let queue :=
      set_items (items queue ++ [set_origin origin originKey item]) queue in
    w' ← scheduleAnnounceDrain key
           (mkWorld (<[key := queue]> reg) (drains w) (trace w));
    Some (true, w') in
  if gtb cap 0 && geb (of_nat (length (items queue))) cap then
    if bool_decide (dropPolicy queue = New) then
      w' ← scheduleAnnounceDrain key
             (mkWorld (<[key := queue]> reg) (drains w) (trace w));
      Some (false, w')
    else
      let dropCount := (of_nat (length (items queue)) - cap + 1)%num in
      let '(dropped, rest) := splice0 dropCount (items queue) in
      let queue := set_items rest queue in
      if bool_decide (dropPolicy queue = Summarize) then
        let queue := recordDropped dropped queue in
        let queue :=
          set_drops (droppedCount queue)
                    (shiftWhileOver cap (summaryLines queue)) queue in
        push queue
      else push queue
  else push queue.

(** One pass through the body of the [while] loop after the debounce
    wait: either it reaches a [queue.send(arg)], having taken [removed]
    out of the queue, or it leaves the loop by [break]. *)
Inductive CycleResult :=
| CySend (queue : AnnounceQueueState) (force : bool)
         (removed : list AnnounceQueueItem) (arg : AnnounceQueueItem)
| CyBreak (queue : AnnounceQueueState).

(** [const next = queue.items.shift(); if (!next) break;
    await queue.send(f(next));] *)
Definition sendNext (force : bool) (f : AnnounceQueueItem -> AnnounceQueueItem)
    (queue : AnnounceQueueState) : CycleResult :=
  match items queue with
  | [] => CyBreak queue
  | next :: rest => CySend (set_items rest queue) force [next] (f next)
  end.

Definition drainCycle (force : bool) (queue : AnnounceQueueState)
    : CycleResult :=
  if bool_decide (mode queue = Collect) then
    if force then sendNext force id queue
    else if hasCrossChannelItems (items queue) then sendNext true id queue
    else
      let batch := items queue in
      let queue := set_items [] queue in
      let '(summary, queue) := buildSummaryPrompt queue in
      let prompt := buildCollectPrompt batch summary in
      match last batch with
      | None => CyBreak queue
      | Some lastItem => CySend queue force batch (set_prompt prompt lastItem)
      end
  else
    let '(summaryPrompt, queue) := buildSummaryPrompt queue in
    match summaryPrompt with
    | Some text =>
        if truthy summaryPrompt then sendNext force (set_prompt text) queue
        else sendNext force id queue
    | None => sendNext force id queue
    end.

(** The queue as a cycle leaves it, whichever way it ends. *)
Definition cycleQueue (r : CycleResult) : AnnounceQueueState :=
  match r with
  | CySend queue _ _ _ => queue
  | CyBreak queue => queue
  end.

(** How a call of the send callback settles. *)
Inductive SendOutcome := Resolved | Rejected (err : str).

Inductive Event :=
| EvEnqueue (key : str) (item : AnnounceQueueItem) (settings : Settings.t)
            (sendFn : Callback) (now : Q)
| EvDebounce (key : str)
| EvSend (key : str) (outcome : SendOutcome).

(** The closure of [key] wakes up from the debounce wait. *)
Definition resumeAfterDebounce (key : str) (w : World) : option World :=
  match drains w !! key, queues w !! key with
  | Some (mkTask force AwaitDebounce), Some queue =>
      match drainCycle force queue with
      | CySend queue' force' removed arg =>
          Some (mkWorld (<[key := queue']> (queues w))
                        (<[key := mkTask force' AwaitSend]> (drains w))
                        (trace w ++ [ObsSend key (send queue) removed arg]))
      | CyBreak queue' =>
          drainFinally scheduleAnnounceDrain key
            (mkWorld (<[key := queue']> (queues w)) (drains w) (trace w))
      end
  | _, _ => Some w
  end.

(** [catch (err) { defaultRuntime.error?.(`announce queue drain failed
    for ${key}: ${String(err)}`); }] *)
Definition drainFailedMessage (key err : str) : str :=
  lit "announce queue drain failed for " ++ key ++ lit ": " ++ err.

(** The send the closure of [key] is waiting for settles. *)
Definition resumeAfterSend (key : str) (outcome : SendOutcome) (w : World)
    : option World :=
  match drains w !! key with
  | Some (mkTask force AwaitSend) =>
      match outcome with
      | Resolved => drainLoop scheduleAnnounceDrain key force w
      | Rejected err =>
          drainFinally scheduleAnnounceDrain key
            (mkWorld (queues w) (drains w)
                     (trace w ++ [ObsError (drainFailedMessage key err)]))
      end
  | _ => Some w
  end.

(** An event that has no closure waiting for it changes nothing. *)
Definition step (e : Event) (w : World) : option World :=
  match e with
  | EvEnqueue key item settings sendFn now =>
      snd <$> enqueueAnnounce key item settings sendFn now w
  | EvDebounce key => resumeAfterDebounce key w
  | EvSend key outcome => resumeAfterSend key outcome w
  end.

Fixpoint run (es : list Event) (w : World) : option World :=
  match es with
  | [] => Some w
  | e :: es' => w' ← step e w; run es' w'
  end.

(** ** The queue-level view of an enqueue *)

(** The item as [enqueueAnnounce] stores it:
    [{ ...params.item, origin, originKey }]. *)
Definition normalized (item : AnnounceQueueItem) : AnnounceQueueItem :=
  set_origin (normalizeDeliveryContext (origin item))
             (deliveryContextKey (normalizeDeliveryContext (origin item)))
             item.

(** What [enqueueAnnounce] does to the queue object it got from the
    registry and stamped: [None] when the item is rejected, the queue
    with the item appended otherwise.  Lemmas
    [enqueueAnnounce_existing] and [enqueueAnnounce_fresh] relate it to
    [enqueueAnnounce]. *)
Definition enqueueInto (item : AnnounceQueueItem)
    (queue : AnnounceQueueState) : option AnnounceQueueState :=
  let pushed (q : AnnounceQueueState) :=
    set_items (items q ++ [normalized item]) q in
  if gtb (cap queue) 0 && geb (of_nat (length (items queue))) (cap queue) then
    if bool_decide (dropPolicy queue = New) then None
    else
      let dropCount := (of_nat (length (items queue)) - cap queue + 1)%num in
      let '(dropped, rest) := splice0 dropCount (items queue) in
      let evicted := set_items rest queue in
      if bool_decide (dropPolicy queue = Summarize) then
        let recorded := recordDropped dropped evicted in
        Some (pushed
                (set_drops (droppedCount recorded)
                           (shiftWhileOver (cap queue) (summaryLines recorded))
                           recorded))
      else Some (pushed evicted)
  else Some (pushed queue).

(** ** Worlds after a drain starts or ends *)

(** The world after an idle queue with a backlog has been given a drain
    closure: the flag is set, the closure waits for the debounce timer
    with [forceIndividualCollect] false. *)
Definition started (key : str) (queue : AnnounceQueueState) (w : World)
    : World :=
  mkWorld (<[key := set_draining true queue]> (queues w))
          (<[key := mkTask false AwaitDebounce]> (drains w))
          (trace w ++ [ObsStart key]).

(** The world after the queue of [key] has been taken out of the
    registry. *)
Definition removed (key : str) (w : World) : World :=
  mkWorld (delete key (queues w)) (delete key (drains w)) (trace w).

(** ** Well-formed worlds and the steps of one key *)

(** A key has a queue exactly when it has a drain closure, and then the
    queue is marked as draining. *)
Definition wellFormed (w : World) : Prop :=
  forall key,
    match queues w !! key, drains w !! key with
    | Some queue, Some _ => draining queue = true
    | None, None => True
    | _, _ => False
    end.

Definition eventKey (e : Event) : str :=
  match e with
  | EvEnqueue key _ _ _ _ => key
  | EvDebounce key => key
  | EvSend key _ => key
  end.

(** What a step does to the queue and the closure of the event's key in a
    well-formed world, and what it adds to the trace: one constructor per
    path through [enqueueAnnounce] and through the drain closure. *)
Inductive KeyStep :
    Event -> option AnnounceQueueState -> option DrainTask -> list Obs ->
    option AnnounceQueueState -> option DrainTask -> Prop :=
| KsCreate key item settings sendFn now :
    KeyStep (EvEnqueue key item settings sendFn now) None None
      [ObsStart key]
      (Some (set_draining true
               (set_items [normalized item]
                  (set_lastEnqueuedAt now (createQueue settings sendFn)))))
      (Some (mkTask false AwaitDebounce))
| KsEnqueue key item settings sendFn now queue task :
    draining queue = true ->
    KeyStep (EvEnqueue key item settings sendFn now) (Some queue) (Some task)
      []
      (Some match enqueueInto item
                    (set_lastEnqueuedAt now
                       (mergeSettings queue settings sendFn)) with
            | Some queue' => queue'
            | None => set_lastEnqueuedAt now
                        (mergeSettings queue settings sendFn)
            end)
      (Some task)
| KsDebounceIgnored key queue task :
    (task = None \/ exists force, task = Some (mkTask force AwaitSend)) ->
    KeyStep (EvDebounce key) queue task [] queue task
| KsCycleSend key force queue queue' force' removed arg :
    drainCycle force queue = CySend queue' force' removed arg ->
    KeyStep (EvDebounce key) (Some queue) (Some (mkTask force AwaitDebounce))
      [ObsSend key (send queue) removed arg]
      (Some queue') (Some (mkTask force' AwaitSend))
| KsCycleBreakEmpty key force queue queue' :
    drainCycle force queue = CyBreak queue' ->
    backlogEmpty queue' = true ->
    KeyStep (EvDebounce key) (Some queue) (Some (mkTask force AwaitDebounce))
      [] None None
| KsCycleBreakRestart key force queue queue' :
    drainCycle force queue = CyBreak queue' ->
    backlogEmpty queue' = false ->
    KeyStep (EvDebounce key) (Some queue) (Some (mkTask force AwaitDebounce))
      [ObsStart key]
      (Some (set_draining true queue')) (Some (mkTask false AwaitDebounce))
| KsSendIgnored key outcome queue task :
    (task = None \/ exists force, task = Some (mkTask force AwaitDebounce)) ->
    KeyStep (EvSend key outcome) queue task [] queue task
| KsResolvedEmpty key force queue :
    backlogEmpty queue = true ->
    KeyStep (EvSend key Resolved) (Some queue) (Some (mkTask force AwaitSend))
      [] None None
| KsResolvedNext key force queue :
    backlogEmpty queue = false ->
    KeyStep (EvSend key Resolved) (Some queue) (Some (mkTask force AwaitSend))
      [] (Some queue) (Some (mkTask force AwaitDebounce))
| KsRejectedEmpty key err force queue :
    backlogEmpty queue = true ->
    KeyStep (EvSend key (Rejected err)) (Some queue)
      (Some (mkTask force AwaitSend))
      [ObsError (drainFailedMessage key err)] None None
| KsRejectedRestart key err force queue :
    backlogEmpty queue = false ->
    KeyStep (EvSend key (Rejected err)) (Some queue)
      (Some (mkTask force AwaitSend))
      [ObsError (drainFailedMessage key err); ObsStart key]
      (Some (set_draining true queue)) (Some (mkTask false AwaitDebounce)).

(** ** Drain sessions in the trace *)






(** ** What a key was offered, what was delivered for it *)

(** The items of the enqueue calls for [key], as [enqueueAnnounce]
    stores them, in call order. *)
Definition offeredItems (key : str) (es : list Event)
    : list AnnounceQueueItem :=
  flat_map (fun e => match e with
                     | EvEnqueue k item _ _ _ =>
                         if decide (k = key) then [normalized item] else []
                     | _ => []
                     end) es.

(** The queued items that the sends of [key] took out of the queue, in
    send order. *)
Definition deliveredItems (key : str) (obs : list Obs)
    : list AnnounceQueueItem :=
  flat_map (fun o => match o with
                     | ObsSend k _ removed _ =>
                         if decide (k = key) then removed else []
                     | _ => []
                     end) obs.

(** The items waiting in the queue of [key]. *)
Definition pendingItems (key : str) (w : World) : list AnnounceQueueItem :=
  match queues w !! key with
  | Some queue => items queue
  | None => []
  end.

(** The item that an enqueue call for [key] turns away: the call returns
    [false]. *)
Definition rejectedBy (key : str) (e : Event) (w : World)
    : list AnnounceQueueItem :=
  match e with
  | EvEnqueue k item settings sendFn now =>
      if decide (k = key) then
        match enqueueAnnounce k item settings sendFn now w with
        | Some (false, _) => [normalized item]
        | _ => []
        end
      else []
  | _ => []
  end.

(** The items that an accepted enqueue call for [key] evicts: the oldest
    of the waiting items, as many as the queue is shorter after the call
    than it was with one item more. *)
Definition evictedBy (key : str) (e : Event) (w : World)
    : list AnnounceQueueItem :=
  match e with
  | EvEnqueue k item settings sendFn now =>
      if decide (k = key) then
        match enqueueAnnounce k item settings sendFn now w with
        | Some (true, w') =>
            firstn (length (pendingItems key w) + 1
                    - length (pendingItems key w'))
                   (pendingItems key w)
        | _ => []
        end
      else []
  | _ => []
  end.

(** What the events of an execution add up to, each event judged in the
    world it meets. *)
Fixpoint ledger (entry : Event -> World -> list AnnounceQueueItem)
    (es : list Event) (w : World) : list AnnounceQueueItem :=
  match es with
  | [] => []
  | e :: es' =>
      entry e w ++ match step e w with
                   | Some w' => ledger entry es' w'
                   | None => []
                   end
  end.

(** The items of [key] rejected, and those evicted, in an execution from
    the empty registry. *)
Definition rejectedItems (key : str) (es : list Event)
    : list AnnounceQueueItem :=
  ledger (rejectedBy key) es emptyWorld.

Definition evictedItems (key : str) (es : list Event)
    : list AnnounceQueueItem :=
  ledger (evictedBy key) es emptyWorld.

(** The mode and the callback of the latest enqueue call for [key]. *)
Definition latestEnqueue (key : str) (es : list Event)
    : option (QueueMode * Callback) :=
  last (flat_map (fun e => match e with
                           | EvEnqueue k _ settings sendFn _ =>
                               if decide (k = key)
                               then [(Settings.mode settings, sendFn)]
                               else []
                           | _ => []
                           end) es).

(** The events of one key. *)
Definition eventsOf (key : str) (es : list Event) : list Event :=
  filter (fun e => eventKey e = key) es.

(** The drain starts and the sends of one key in a trace. *)
Definition obsKey (o : Obs) : option str :=
  match o with
  | ObsStart k | ObsSend k _ _ _ => Some k
  | ObsError _ => None
  end.

Definition obsOf (key : str) (obs : list Obs) : list Obs :=
  filter (fun o => obsKey o = Some key) obs.

(** An event that does not ask for the reject-new policy. *)
Definition neverRejects (e : Event) : Prop :=
  match e with
  | EvEnqueue _ _ settings _ _ => Settings.dropPolicy settings <> Some New
  | _ => True
  end.

(** An integer that is not negative. *)
Definition wholeNumber (x : number) : Prop :=
  exists z : Z, (0 <= z)%Z /\ x = Finite (inject_Z z).

(** What [getAnnounceQueue] can store: as debounce a number that is at
    least 0 or [NaN], as cap a whole number or [Infinity]. *)
Definition saneDebounce (d : number) : Prop := (0 <= d)%num \/ d = NaN.
Definition saneCap (c : number) : Prop := wholeNumber c \/ c = Infinity.

(** An enqueue whose numeric settings, where supplied, are finite. *)
Definition finiteSettings (e : Event) : Prop :=
  match e with
  | EvEnqueue _ _ settings _ _ =>
      (forall d, Settings.debounceMs settings = Some d ->
         exists x : Q, d = Finite x) /\
      (forall c, Settings.cap settings = Some c -> exists x : Q, c = Finite x)
  | _ => True
  end.

(** What is stored when every supplied number is finite: as debounce a
    finite number that is at least 0, as cap a whole number. *)
Definition finiteStored (q : AnnounceQueueState) : Prop :=
  (exists d : Q, debounceMs q = Finite d /\ (0 <= d)%Q) /\
  wholeNumber (cap q).

(** ** The specification's wording, for comparison with the source *)

(** The header line of the overflow summary. *)
Definition overflowHeader (n : nat) : str :=
  lit "[Queue overflow] Dropped " ++ String_of_nat n
  ++ (if n =? 1 then lit " announce" else lit " announces")
  ++ lit " due to cap.".

Definition bullet (line : str) : str := lit "- " ++ line.

(** The overflow summary as the specification words it: the header, then
    a "Summary:" line, then one bullet per summary line. *)
Definition summaryAsSpecified (queue : AnnounceQueueState) : str :=
  join newline
    (overflowHeader (droppedCount queue) :: lit "Summary:"
     :: map bullet (summaryLines queue)).

(** The stored debounce as the specification words it: overwritten only
    by a valid number that is not negative, the prior value kept
    otherwise. *)
Definition debounceAsSpecified (prior : number) (supplied : option number)
    : number :=
  match supplied with
  | Some d => if geb d 0 then d else prior
  | None => prior
  end.

(** An item has an origin but no usable origin key. *)
Definition originWithoutKey (batch : list AnnounceQueueItem) : Prop :=
  exists a, a ∈ batch /\ origin a <> None /\ truthy (originKey a) = false.

(** Items with an origin next to items without one. *)
Definition mixedOrigins (batch : list AnnounceQueueItem) : Prop :=
  (exists a, a ∈ batch /\ origin a <> None) /\
  (exists b, b ∈ batch /\ origin b = None).

(** Two items carry distinct non-empty origin keys. *)
Definition distinctKeysAsSpecified (batch : list AnnounceQueueItem) : Prop :=
  exists a b ka kb,
    a ∈ batch /\ b ∈ batch /\
    originKey a = Some ka /\ originKey b = Some kb /\
    ka <> [] /\ kb <> [] /\ ka <> kb.

(** The same, for items that have an origin: the source never looks at
    the key of an item without one. *)
Definition distinctKeys (batch : list AnnounceQueueItem) : Prop :=
  exists a b ka kb,
    a ∈ batch /\ b ∈ batch /\ origin a <> None /\ origin b <> None /\
    originKey a = Some ka /\ originKey b = Some kb /\
    ka <> [] /\ kb <> [] /\ ka <> kb.

(** The cross-channel condition as the specification words it; a
    non-trivial set is one of at least two items. *)
Definition crossChannelAsSpecified (batch : list AnnounceQueueItem) : Prop :=
  distinctKeysAsSpecified batch
  \/ (originWithoutKey batch /\ 2 <= length batch)
  \/ mixedOrigins batch.

(** * Properties *)

(** ** Text helpers *)

Lemma startsWith_app (needle post : str) :
  startsWith needle (needle ++ post) = true.
Proof.
  induction needle as [|c needle IH]; simpl; [done|].
  by rewrite N.eqb_refl, IH.
Qed.

Lemma includes_app (pre needle post : str) :
  includes needle (pre ++ needle ++ post) = true.
Proof.
  induction pre as [|c pre IH]; simpl.
  - destruct (needle ++ post) eqn:E; simpl.
    + destruct needle; [done | discriminate].
    + rewrite <- E, startsWith_app. done.
  - rewrite IH. apply orb_true_r.
Qed.

Lemma startsWith_inv (needle hay : str) :
  startsWith needle hay = true -> exists post, hay = needle ++ post.
Proof.
  revert hay. induction needle as [|c needle IH]; intros hay H; simpl in *.
  - by exists hay.
  - destruct hay as [|h hay]; [done|].
    apply andb_true_iff in H as [Hc H]. apply N.eqb_eq in Hc as ->.
    destruct (IH _ H) as [post ->]. by exists post.
Qed.

Lemma includes_inv (needle hay : str) :
  includes needle hay = true -> exists pre post, hay = pre ++ needle ++ post.
Proof.
  induction hay as [|h hay IH]; simpl; intros H.
  - rewrite orb_false_r in H. apply startsWith_inv in H as [post ->].
    by exists [], post.
  - apply orb_true_iff in H as [H|H].
    + apply startsWith_inv in H as [post ->]. by exists [], post.
    + destruct (IH H) as (pre & post & ->). by exists (h :: pre), post.
Qed.

Lemma trimEnd_length (s : str) : length (trimEnd s) <= length s.
Proof.
  induction s as [|c s IH]; simpl; [lia|].
  destruct (trimEnd s); simpl in *; [destruct (isWhiteSpace c); simpl; lia | lia].
Qed.

(** Trailing whitespace is all that [trimEnd] removes from a text that
    has something else in it. *)
Lemma trimEnd_app (a b : str) :
  trimEnd b <> [] -> trimEnd (a ++ b) = a ++ trimEnd b.
Proof.
  intros Hb. induction a as [|c a IH]; simpl; [done|].
  rewrite IH. destruct (a ++ trimEnd b) eqn:E; [|done].
  apply app_eq_nil in E as [_ E]. done.
Qed.

Lemma trimEnd_blank_app (a b : str) :
  trimEnd b = [] -> trimEnd (a ++ b) = trimEnd a.
Proof.
  intros Hb. induction a as [|c a IH]; simpl; [done|]. by rewrite IH.
Qed.

Lemma trimEnd_snoc (s : str) (c : code_unit) :
  isWhiteSpace c = false -> trimEnd (s ++ [c]) = s ++ [c].
Proof.
  intros Hc. rewrite trimEnd_app; simpl; rewrite Hc; done.
Qed.

Lemma elideText_length (text : str) (limit : nat) :
  0 < limit -> length (elideText text limit) <= limit.
Proof.
  intros Hl. unfold elideText.
  destruct (length text <=? limit) eqn:E.
  - by apply Nat.leb_le.
  - rewrite length_app. change (length ellipsis) with 1.
    pose proof (trimEnd_length (firstn (Nat.max 0 (limit - 1)) text)) as H.
    rewrite length_take in H. lia.
Qed.

(** ** Numbers *)

Lemma gtb_Finite (x y : Q) : gtb x y = true <-> (y < x)%Q.
Proof.
  cbn. rewrite negb_true_iff, <- not_true_iff_false, Qle_bool_iff.
  split; [apply Qnot_le_lt | apply Qlt_not_le].
Qed.

Lemma geb_Finite (x y : Q) : geb x y = true <-> (y <= x)%Q.
Proof. cbn. apply Qle_bool_iff. Qed.

Lemma numLt_Finite (x y : Q) : (x < y)%num <-> (x < y)%Q.
Proof. apply gtb_Finite. Qed.

Lemma numLe_Finite (x y : Q) : (x <= y)%num <-> (x <= y)%Q.
Proof. apply geb_Finite. Qed.

Lemma gtb_true_iff (a b : number) : gtb a b = true <-> (b < a)%num.
Proof. done. Qed.

Lemma geb_true_iff (a b : number) : geb a b = true <-> (b <= a)%num.
Proof. done. Qed.

Lemma numLt_le (a b : number) : (a < b)%num -> (a <= b)%num.
Proof.
  destruct a as [x| | |], b as [y| | |]; try done.
  rewrite numLt_Finite, numLe_Finite. apply Qlt_le_weak.
Qed.

Lemma numLt_not_le (a b : number) : (a < b)%num -> ~ (b <= a)%num.
Proof.
  destruct a as [x| | |], b as [y| | |]; try done.
  rewrite numLt_Finite, numLe_Finite. apply Qlt_not_le.
Qed.

Lemma numLt_le_trans (a b c : number) :
  (a < b)%num -> (b <= c)%num -> (a < c)%num.
Proof.
  destruct a as [x| | |], b as [y| | |], c as [z| | |]; try done.
  rewrite !numLt_Finite, numLe_Finite. apply Qlt_le_trans.
Qed.

(** [Math.max(0, d)] by cases: a number that is at least 0 is returned
    as it is, [Infinity] included; a negative one gives 0; [NaN] gives
    [NaN]. *)
Lemma Math_max_0_cases (d : number) :
  ((0 <= d)%num -> Math_max 0 d = d) /\
  ((d < 0)%num -> Math_max 0 d = 0%num) /\
  (d = NaN -> Math_max 0 d = NaN).
Proof.
  destruct d as [x| | |]; (split; [|split]); try done.
  - intros H. unfold Math_max. by rewrite H.
  - intros H. unfold Math_max.
    destruct (geb x 0%num) eqn:E; [|done].
    exfalso. by apply (numLt_not_le _ _ H).
Qed.

Lemma Math_max_nonneg (d : number) : d <> NaN -> (0 <= Math_max 0 d)%num.
Proof.
  destruct d as [x| | |]; try done. intros _.
  unfold Math_max. by destruct (geb x 0%num) eqn:E.
Qed.

Lemma Math_floor_bounds (c : Q) :
  (Math_floor c <= c)%num /\ (c < Math_floor c + 1)%num.
Proof.
  cbn [Math_floor]. split.
  - apply numLe_Finite, Qfloor_le.
  - apply numLt_Finite.
    change 1%Q with (inject_Z 1). rewrite <- inject_Z_plus. apply Qlt_floor.
Qed.

(** ** The registry: merging and creating (C7) *)

(** C7.  [getAnnounceQueue] puts the queue it returns under the key.
    [mode] and [send] are always the supplied ones.  A supplied
    [debounceMs] always overwrites, with [Math.max(0, debounceMs)]: a
    number that is at least 0 is stored as it is ([Infinity] included),
    a negative one as 0, and [NaN] as [NaN].  A supplied [cap] greater
    than 0 is stored floored: a finite one as a whole number, [Infinity]
    as [Infinity].  A supplied [dropPolicy] is stored as it is.  For an
    existing entry every setting that is not supplied (for [cap]: not
    supplied or not greater than 0, as [NaN] is) keeps its prior value
    and the buffers and counters are untouched; for a missing entry it
    gets the defaults 1000, 20 and summarize, and the item and summary
    buffers are empty. *)
Theorem getAnnounceQueue_merges_or_creates
    (reg : Registry) (key : str) (settings : Settings.t) (sendFn : Callback)
    (queue : AnnounceQueueState) (reg' : Registry) :
  getAnnounceQueue reg key settings sendFn = (queue, reg') ->
  reg' = <[key := queue]> reg /\
  mode queue = Settings.mode settings /\
  send queue = sendFn /\
  (forall d, Settings.debounceMs settings = Some d ->
     ((0 <= d)%num -> debounceMs queue = d) /\
     ((d < 0)%num -> debounceMs queue = 0%num) /\
     (d = NaN -> debounceMs queue = NaN)) /\
  (forall c : Q, Settings.cap settings = Some (Finite c) -> (0 < c)%Q ->
     cap queue = inject_Z (Qfloor c) /\
     (cap queue <= c)%num /\ (c < cap queue + 1)%num) /\
  (Settings.cap settings = Some Infinity -> cap queue = Infinity) /\
  (forall p, Settings.dropPolicy settings = Some p -> dropPolicy queue = p) /\
  match reg !! key with
  | Some existing =>
      (Settings.debounceMs settings = None ->
         debounceMs queue = debounceMs existing) /\
      ((forall c, Settings.cap settings = Some c -> ~ (0 < c)%num) ->
         cap queue = cap existing) /\
      (Settings.dropPolicy settings = None ->
         dropPolicy queue = dropPolicy existing) /\
      items queue = items existing /\
      summaryLines queue = summaryLines existing /\
      droppedCount queue = droppedCount existing /\
      draining queue = draining existing /\
      lastEnqueuedAt queue = lastEnqueuedAt existing
  | None =>
      (Settings.debounceMs settings = None -> debounceMs queue = 1000%num) /\
      ((forall c, Settings.cap settings = Some c -> ~ (0 < c)%num) ->
         cap queue = 20%num) /\
      (Settings.dropPolicy settings = None -> dropPolicy queue = Summarize) /\
      items queue = [] /\
      summaryLines queue = [] /\
      droppedCount queue = 0 /\
      draining queue = false
  end.
Proof.
  unfold getAnnounceQueue. intros H.
  assert (Hcap : forall (prior : number) (c : Q), (0 < c)%Q ->
    let r := if gtb c 0 then Math_floor c else prior in
    r = inject_Z (Qfloor c) /\ (r <= c)%num /\ (c < r + 1)%num).
  { intros prior c Hc r. subst r. apply gtb_Finite in Hc. rewrite Hc.
    split; [done|]. apply Math_floor_bounds. }
  assert (Hkeep : forall prior : number,
    (forall c, Settings.cap settings = Some c -> ~ (0 < c)%num) ->
    match Settings.cap settings with
    | Some c => if gtb c 0 then Math_floor c else prior
    | None => prior
    end = prior).
  { intros prior Hc. destruct (Settings.cap settings) as [c|]; [|done].
    specialize (Hc c eq_refl). destruct (gtb c 0) eqn:E; [|done].
    by destruct Hc. }
  destruct (reg !! key) as [existing|] eqn:Hk;
    injection H as <- <-; simpl;
    (split; [done|]); (split; [done|]); (split; [done|]);
    (split; [intros d ->; by apply Math_max_0_cases|]);
    (split; [intros c -> Hc; by apply Hcap|]);
    (split; [by intros ->|]);
    (split; [by intros p ->|]);
    (split; [by intros ->|]);
    (split; [by apply Hkeep|]);
    (split; [by intros ->|]); done.
Qed.

(** ** The overflow summary (C5) *)

Lemma buildSummaryPrompt_none (queue : AnnounceQueueState) :
  droppedCount queue = 0 -> buildSummaryPrompt queue = (None, queue).
Proof.
  intros H. unfold buildSummaryPrompt. rewrite H. cbn [Nat.leb].
  by rewrite orb_true_r.
Qed.

Lemma buildSummaryPrompt_other_policy (queue : AnnounceQueueState) :
  dropPolicy queue <> Summarize -> buildSummaryPrompt queue = (None, queue).
Proof.
  intros H. unfold buildSummaryPrompt.
  by rewrite bool_decide_eq_false_2.
Qed.

Lemma buildSummaryPrompt_some (queue : AnnounceQueueState) :
  dropPolicy queue = Summarize -> 0 < droppedCount queue ->
  buildSummaryPrompt queue =
  (Some (match summaryLines queue with
         | [] => overflowHeader (droppedCount queue)
         | _ :: _ => summaryAsSpecified queue
         end),
   set_drops 0 [] queue).
Proof.
  intros Hp Hn. unfold buildSummaryPrompt.
  rewrite bool_decide_eq_true_2 by done.
  destruct (droppedCount queue) as [|n] eqn:En; [lia|].
  cbn [negb orb Nat.leb]. f_equal. f_equal.
  assert (Hh : lit "[Queue overflow] Dropped " ++ String_of_nat (S n)
               ++ lit " announce"
               ++ (if S n =? 1 then lit "" else lit "s")
               ++ lit " due to cap." = overflowHeader (S n)).
  { unfold overflowHeader. by destruct (S n =? 1). }
  rewrite Hh. unfold summaryAsSpecified. rewrite En.
  by destruct (summaryLines queue).
Qed.

(** The text [buildSummaryPrompt] returns always shows the dropped count
    in words a reader can search for. *)
Lemma overflowHeader_includes (n : nat) (tail : str) :
  includes (lit "Dropped " ++ String_of_nat n
            ++ (if n =? 1 then lit " announce" else lit " announces")
            ++ lit " due to cap.")
           (overflowHeader n ++ tail) = true.
Proof.
  set (needle := lit "Dropped " ++ _).
  replace (overflowHeader n ++ tail)
    with (lit "[Queue overflow] " ++ needle ++ tail).
  - apply includes_app.
  - subst needle. unfold overflowHeader.
    change (lit "[Queue overflow] Dropped ")
      with (lit "[Queue overflow] " ++ lit "Dropped ").
    by rewrite <- !app_assoc.
Qed.

(** ** The cross-channel check (C6) *)

Lemma truthy_Some (k : str) : truthy (Some k) = true <-> k <> [].
Proof. destruct k; unfold truthy; split; congruence. Qed.

(** The loop returns early exactly when some item has an origin and no
    usable key. *)
Lemma scanOrigins_None (batch : list AnnounceQueueItem) (keys : gset str)
    (hasUnkeyed : bool) :
  scanOrigins batch keys hasUnkeyed = None <-> originWithoutKey batch.
Proof.
  revert keys hasUnkeyed.
  induction batch as [|item rest IH]; intros keys hasUnkeyed; simpl.
  - split; [done|]. intros (a & Ha & _). by apply elem_of_nil in Ha.
  - unfold originWithoutKey.
    destruct (origin item) as [o|] eqn:Ho.
    + destruct (originKey item) as [k|] eqn:Hk.
      * destruct (truthy (Some k)) eqn:Ht.
        -- rewrite IH. split.
           ++ intros (a & Ha & H). exists a. split; [by apply elem_of_cons; right|done].
           ++ intros (a & Ha & Hoa & Hka). apply elem_of_cons in Ha as [->|Ha].
              ** congruence.
              ** by exists a.
        -- split; [|done]. intros _. exists item.
           split; [apply elem_of_cons; by left|]. split; congruence.
      * split; [|done]. intros _. exists item.
        split; [apply elem_of_cons; by left|]. split; [congruence|by rewrite Hk].
    + rewrite IH. split.
      * intros (a & Ha & H). exists a. split; [by apply elem_of_cons; right|done].
      * intros (a & Ha & Hoa & Hka). apply elem_of_cons in Ha as [->|Ha].
        -- congruence.
        -- by exists a.
Qed.

(** What the loop has collected when it runs to the end. *)
Lemma scanOrigins_Some (batch : list AnnounceQueueItem) (keys keys' : gset str)
    (hasUnkeyed hasUnkeyed' : bool) :
  scanOrigins batch keys hasUnkeyed = Some (keys', hasUnkeyed') ->
  (forall k, k ∈ keys' <->
     k ∈ keys \/
     exists a, a ∈ batch /\ origin a <> None /\ originKey a = Some k /\ k <> []) /\
  (hasUnkeyed' = true <->
     hasUnkeyed = true \/ exists b, b ∈ batch /\ origin b = None).
Proof.
  revert keys hasUnkeyed.
  induction batch as [|item rest IH]; intros keys hasUnkeyed; simpl.
  - intros [= <- <-]. split.
    + intros k. split; [by left|]. intros [H|(a & Ha & _)]; [done|].
      by apply elem_of_nil in Ha.
    + split; [by left|]. intros [H|(a & Ha & _)]; [done|].
      by apply elem_of_nil in Ha.
  - destruct (origin item) as [o|] eqn:Ho.
    + destruct (originKey item) as [k0|] eqn:Hk; [|done].
      destruct (truthy (Some k0)) eqn:Ht; [|done].
      apply truthy_Some in Ht.
      intros H. apply IH in H as [Hkeys Hun]. split.
      * intros k. rewrite Hkeys, elem_of_union, elem_of_singleton. split.
        -- intros [[->|H]|(a & Ha & H)].
           ++ right. exists item. split; [apply elem_of_cons; by left|].
              split; [congruence|done].
           ++ by left.
           ++ right. exists a. split; [apply elem_of_cons; by right|done].
        -- intros [H|(a & Ha & Hoa & Hka & Hne)]; [by left; right|].
           apply elem_of_cons in Ha as [->|Ha].
           ++ left; left. congruence.
           ++ right. by exists a.
      * rewrite Hun. split.
        -- intros [H|(b & Hb & H)]; [by left|].
           right. exists b. split; [apply elem_of_cons; by right|done].
        -- intros [H|(b & Hb & Hob)]; [by left|].
           apply elem_of_cons in Hb as [->|Hb]; [congruence|].
           right. by exists b.
    + intros H. apply IH in H as [Hkeys Hun]. split.
      * intros k. rewrite Hkeys. split.
        -- intros [H|(a & Ha & H)]; [by left|].
           right. exists a. split; [apply elem_of_cons; by right|done].
        -- intros [H|(a & Ha & Hoa & H)]; [by left|].
           apply elem_of_cons in Ha as [->|Ha]; [congruence|].
           right. by exists a.
      * rewrite Hun. split.
        -- intros [_|(b & Hb & H)].
           ++ right. exists item. split; [apply elem_of_cons; by left|done].
           ++ right. exists b. split; [apply elem_of_cons; by right|done].
        -- intros _. by left.
Qed.

Lemma gset_two_elements (X : gset str) :
  1 < size X <-> exists x y, x ∈ X /\ y ∈ X /\ x <> y.
Proof.
  split.
  - intros Hs.
    destruct (set_choose_L X) as [x Hx].
    { intros ->. rewrite size_empty in Hs. lia. }
    destruct (set_choose_L (X ∖ {[x]})) as [y Hy].
    { intros He.
      assert (Hsz : size (X ∖ {[x]}) = 0) by (by rewrite He, size_empty).
      rewrite size_difference in Hsz by (by apply singleton_subseteq_l).
      rewrite size_singleton in Hsz. lia. }
    apply elem_of_difference in Hy as [Hy Hne].
    exists x, y. split; [done|]. split; [done|].
    intros ->. apply Hne. by apply elem_of_singleton.
  - intros (x & y & Hx & Hy & Hne).
    assert (Hsub : ({[x]} ∪ {[y]} : gset str) ⊆ X).
    { apply union_subseteq. split; by apply singleton_subseteq_l. }
    apply subseteq_size in Hsub.
    rewrite size_union in Hsub.
    2:{ apply disjoint_singleton_l. intros H.
        apply elem_of_singleton in H. congruence. }
    rewrite !size_singleton in Hsub. lia.
Qed.

Lemma hasCrossChannelItems_true_iff (batch : list AnnounceQueueItem) :
  hasCrossChannelItems batch = true <->
  distinctKeys batch \/ originWithoutKey batch \/ mixedOrigins batch.
Proof.
  unfold hasCrossChannelItems.
  destruct (scanOrigins batch ∅ false) as [[keys hasUnkeyed]|] eqn:Hscan.
  - assert (Hno : ~ originWithoutKey batch).
    { intros H. apply (scanOrigins_None batch ∅ false) in H. congruence. }
    apply scanOrigins_Some in Hscan as [Hkeys Hun].
    assert (Hkeys' : forall k, k ∈ keys <->
      exists a, a ∈ batch /\ origin a <> None /\ originKey a = Some k /\ k <> []).
    { intros k. rewrite Hkeys. split; [|by right].
      intros [H|H]; [by apply not_elem_of_empty in H|done]. }
    assert (Hun' : hasUnkeyed = true <-> exists b, b ∈ batch /\ origin b = None).
    { rewrite Hun. split; [|by right]. by intros [H|H]. }
    clear Hkeys Hun. split.
    + destruct (size keys =? 0) eqn:Hz; [done|].
      apply Nat.eqb_neq in Hz.
      destruct hasUnkeyed.
      * intros _. right; right. split; [|by apply Hun'].
        destruct (set_choose_L keys) as [k Hk].
        { intros ->. by rewrite size_empty in Hz. }
        apply Hkeys' in Hk as (a & Ha & Hoa & _). by exists a.
      * intros H. apply Nat.ltb_lt, gset_two_elements in H
          as (x & y & Hx & Hy & Hne).
        apply Hkeys' in Hx as (a & Ha & Hoa & Hka & Hxne).
        apply Hkeys' in Hy as (b & Hb & Hob & Hkb & Hyne).
        left. by exists a, b, x, y.
    + intros [H|[H|H]].
      * destruct H as (a & b & ka & kb & Ha & Hb & Hoa & Hob & Hka & Hkb & Hna & Hnb & Hne).
        assert (H2 : 1 < size keys).
        { apply gset_two_elements. exists ka, kb.
          split; [apply Hkeys'; by exists a|].
          split; [apply Hkeys'; by exists b|done]. }
        destruct (size keys =? 0) eqn:Hz; [apply Nat.eqb_eq in Hz; lia|].
        destruct hasUnkeyed; [done|]. by apply Nat.ltb_lt.
      * done.
      * destruct H as [(a & Ha & Hoa) Hb].
        apply Hun' in Hb as ->.
        destruct (originKey a) as [k|] eqn:Hka.
        -- destruct (truthy (Some k)) eqn:Ht.
           ++ apply truthy_Some in Ht.
              assert (Hk : k ∈ keys) by (apply Hkeys'; by exists a).
              destruct (size keys =? 0) eqn:Hz; [|done].
              apply Nat.eqb_eq, size_empty_iff in Hz.
              apply leibniz_equiv in Hz. subst keys.
              by apply not_elem_of_empty in Hk.
           ++ exfalso. apply Hno. exists a. by rewrite Hka.
        -- exfalso. apply Hno. exists a. by rewrite Hka.
  - split; [|done]. intros _. right; left.
    by apply (scanOrigins_None batch ∅ false).
Qed.

Lemma hasCrossChannelItems_no_origin (batch : list AnnounceQueueItem) :
  (forall a, a ∈ batch -> origin a = None) ->
  hasCrossChannelItems batch = false.
Proof.
  intros Hall. apply not_true_iff_false. rewrite hasCrossChannelItems_true_iff.
  intros [H|[H|H]].
  - destruct H as (a & b & ka & kb & Ha & _ & Hoa & _).
    by apply Hoa, Hall.
  - destruct H as (a & Ha & Hoa & _). by apply Hoa, Hall.
  - destruct H as [(a & Ha & Hoa) _]. by apply Hoa, Hall.
Qed.

Lemma hasCrossChannelItems_shared_key (batch : list AnnounceQueueItem)
    (k : str) :
  k <> [] ->
  (forall a, a ∈ batch -> origin a <> None /\ originKey a = Some k) ->
  hasCrossChannelItems batch = false.
Proof.
  intros Hk Hall. apply not_true_iff_false.
  rewrite hasCrossChannelItems_true_iff.
  intros [H|[H|H]].
  - destruct H as (a & b & ka & kb & Ha & Hb & _ & _ & Hka & Hkb & _ & _ & Hne).
    apply Hall in Ha as [_ Ha]. apply Hall in Hb as [_ Hb]. congruence.
  - destruct H as (a & Ha & _ & Ht). apply Hall in Ha as [_ Ha].
    rewrite Ha in Ht. apply truthy_Some in Hk. congruence.
  - destruct H as [_ (b & Hb & Hob)]. apply Hall in Hb as [Hb _]. done.
Qed.

(** C6, amended.  [hasCrossChannelItems] returns true exactly when two
    items that have an origin carry distinct non-empty origin keys, or
    some item (even the only one) has an origin but no origin key, or
    items with an origin stand next to items without one.  So it is false
    when no item has an origin, and false when all items have an origin
    and share one key. *)
Theorem hasCrossChannelItems_spec (batch : list AnnounceQueueItem) :
  (hasCrossChannelItems batch = true <->
     distinctKeys batch \/ originWithoutKey batch \/ mixedOrigins batch) /\
  ((forall a, a ∈ batch -> origin a = None) ->
     hasCrossChannelItems batch = false) /\
  (forall k, k <> [] ->
     (forall a, a ∈ batch -> origin a <> None /\ originKey a = Some k) ->
     hasCrossChannelItems batch = false).
Proof.
  split; [apply hasCrossChannelItems_true_iff|].
  split; [apply hasCrossChannelItems_no_origin|].
  intros k. apply hasCrossChannelItems_shared_key.
Qed.

(** ** Starting and ending a drain *)

Lemma loopCondition_backlogEmpty (queue : AnnounceQueueState) :
  loopCondition queue = negb (backlogEmpty queue).
Proof.
  unfold loopCondition, backlogEmpty.
  destruct (length (items queue)), (droppedCount queue); done.
Qed.

Lemma backlogEmpty_true (queue : AnnounceQueueState) :
  backlogEmpty queue = true <-> items queue = [] /\ droppedCount queue = 0.
Proof.
  unfold backlogEmpty. rewrite andb_true_iff, !Nat.eqb_eq.
  by rewrite length_zero_iff_nil.
Qed.

Lemma scheduleAnnounceDrain_fuel_spec (fuel : nat) (key : str) (w : World) :
  scheduleAnnounceDrain_fuel (S fuel) key w =
  Some match queues w !! key with
       | None => w
       | Some queue =>
           if draining queue then w
           else if backlogEmpty queue
                then removed key
                       (mkWorld (queues w) (drains w)
                                (trace w ++ [ObsStart key]))
                else started key queue w
       end.
Proof.
  cbn [scheduleAnnounceDrain_fuel].
  destruct (queues w !! key) as [queue|] eqn:Hq; [|done].
  destruct (draining queue) eqn:Hd; [done|].
  unfold drainLoop. cbn [queues drains trace]. rewrite lookup_insert_eq.
  rewrite (loopCondition_backlogEmpty (set_draining true queue)).
  change (backlogEmpty (set_draining true queue)) with (backlogEmpty queue).
  destruct (backlogEmpty queue) eqn:He; cbn [negb]; [|done].
  unfold drainFinally. cbn [queues drains trace]. rewrite lookup_insert_eq.
  change (backlogEmpty (set_draining false (set_draining true queue)))
    with (backlogEmpty queue).
  rewrite He. unfold removed. cbn [queues drains trace].
  by rewrite delete_insert_eq.
Qed.

(** [scheduleAnnounceDrain] never runs out of fuel: more fuel changes
    nothing, and there is always a result. *)
Lemma scheduleAnnounceDrain_fuel_enough (fuel : nat) (key : str) (w : World) :
  scheduleAnnounceDrain_fuel (S fuel) key w = scheduleAnnounceDrain key w.
Proof.
  unfold scheduleAnnounceDrain. by rewrite !scheduleAnnounceDrain_fuel_spec.
Qed.

Lemma scheduleAnnounceDrain_total (key : str) (w : World) :
  is_Some (scheduleAnnounceDrain key w).
Proof.
  unfold scheduleAnnounceDrain. rewrite scheduleAnnounceDrain_fuel_spec. eauto.
Qed.

Lemma scheduleAnnounceDrain_busy (key : str) (w : World)
    (queue : AnnounceQueueState) :
  queues w !! key = Some queue -> draining queue = true ->
  scheduleAnnounceDrain key w = Some w.
Proof.
  intros Hq Hd. unfold scheduleAnnounceDrain.
  by rewrite scheduleAnnounceDrain_fuel_spec, Hq, Hd.
Qed.

Lemma scheduleAnnounceDrain_idle (key : str) (w : World)
    (queue : AnnounceQueueState) :
  queues w !! key = Some queue -> draining queue = false ->
  backlogEmpty queue = false ->
  scheduleAnnounceDrain key w = Some (started key queue w).
Proof.
  intros Hq Hd He. unfold scheduleAnnounceDrain.
  by rewrite scheduleAnnounceDrain_fuel_spec, Hq, Hd, He.
Qed.

(** The [finally] block: the entry goes when the backlog is empty,
    otherwise a new closure starts at once. *)
Lemma drainFinally_spec (key : str) (w : World) (queue : AnnounceQueueState) :
  queues w !! key = Some queue ->
  drainFinally scheduleAnnounceDrain key w =
  Some (if backlogEmpty queue then removed key w
        else started key queue w).
Proof.
  intros Hq. unfold drainFinally. rewrite Hq.
  change (backlogEmpty (set_draining false queue)) with (backlogEmpty queue).
  destruct (backlogEmpty queue) eqn:He; [done|].
  erewrite scheduleAnnounceDrain_idle;
    [| cbn [queues]; apply lookup_insert_eq | done | done].
  unfold started. cbn [queues drains trace].
  by rewrite insert_insert_eq, insert_delete_eq.
Qed.

Lemma drainLoop_spec (key : str) (force : bool) (w : World)
    (queue : AnnounceQueueState) :
  queues w !! key = Some queue ->
  drainLoop scheduleAnnounceDrain key force w =
  Some (if backlogEmpty queue then removed key w
        else mkWorld (queues w)
                     (<[key := mkTask force AwaitDebounce]> (drains w))
                     (trace w)).
Proof.
  intros Hq. unfold drainLoop. rewrite Hq, loopCondition_backlogEmpty.
  destruct (backlogEmpty queue) eqn:He; cbn [negb]; [|done].
  by rewrite (drainFinally_spec _ _ _ Hq), He.
Qed.

(** ** Enqueue *)

Lemma positive_cap_reached_nonempty {A} (cap : number) (l : list A) :
  (0 < cap)%num -> (cap <= of_nat (length l))%num -> l <> [].
Proof.
  intros Hpos Hle ->. simpl in Hle.
  by apply (numLt_not_le _ _ Hpos).
Qed.

(** C4, amended.  When, after the settings of the call have been merged,
    the policy is reject-new, [cap] is positive and the queue holds at
    least [cap] items, [enqueueAnnounce] returns
    [false] (it returns a value: nothing is raised).  The entry is the
    merged one with the new time stamp: items, dropped count and summary
    lines are those from before the call.  The drain is triggered: the
    queue is draining afterwards; if it was idle, a drain closure has
    been started for it, and if one was running it is left alone. *)
Theorem enqueueAnnounce_reject_new
    (key : str) (item : AnnounceQueueItem) (settings : Settings.t)
    (sendFn : Callback) (now : Q) (w : World)
    (existing : AnnounceQueueState) :
  queues w !! key = Some existing ->
  dropPolicy (mergeSettings existing settings sendFn) = New ->
  (0 < cap (mergeSettings existing settings sendFn))%num ->
  (cap (mergeSettings existing settings sendFn)
   <= of_nat (length (items existing)))%num ->
  exists w' queue',
    enqueueAnnounce key item settings sendFn now w = Some (false, w') /\
    queues w' !! key = Some queue' /\
    queue' = set_draining true
               (set_lastEnqueuedAt now (mergeSettings existing settings sendFn)) /\
    items queue' = items existing /\
    droppedCount queue' = droppedCount existing /\
    summaryLines queue' = summaryLines existing /\
    (forall key', key' <> key -> queues w' !! key' = queues w !! key') /\
    (draining existing = true ->
       drains w' = drains w /\ trace w' = trace w) /\
    (draining existing = false ->
       drains w' !! key = Some (mkTask false AwaitDebounce) /\
       trace w' = trace w ++ [ObsStart key]).
Proof.
  intros Hq Hpol Hpos Hfull.
  set (merged := mergeSettings existing settings sendFn) in *.
  set (stamped := set_lastEnqueuedAt now merged).
  assert (Hne : items existing <> [])
    by (eapply positive_cap_reached_nonempty; eauto).
  unfold enqueueAnnounce, getAnnounceQueue. rewrite Hq.
  fold merged. fold stamped.
  change (cap stamped) with (cap merged).
  change (items stamped) with (items existing).
  change (dropPolicy stamped) with (dropPolicy merged).
  apply gtb_true_iff in Hpos. apply geb_true_iff in Hfull.
  rewrite Hpos, Hfull. cbn [andb].
  rewrite bool_decide_eq_true_2 by done.
  rewrite insert_insert_eq.
  destruct (draining existing) eqn:Hd.
  - erewrite scheduleAnnounceDrain_busy;
      [| cbn [queues]; apply lookup_insert_eq | done].
    assert (Hst : set_draining true stamped = stamped).
    { subst stamped merged. unfold set_draining, set_lastEnqueuedAt,
        mergeSettings. cbn. by rewrite Hd. }
    exists (mkWorld (<[key := stamped]> (queues w)) (drains w) (trace w)),
      (set_draining true stamped).
    cbn. rewrite lookup_insert_eq, Hst.
    repeat split; try done.
    intros key' Hk. by rewrite lookup_insert_ne.
  - erewrite scheduleAnnounceDrain_idle;
      [| cbn [queues]; apply lookup_insert_eq | done |].
    2:{ apply not_true_iff_false. rewrite backlogEmpty_true.
        by intros [H _]. }
    eexists _, (set_draining true stamped).
    split; [reflexivity|]. unfold started. cbn [queues drains trace].
    rewrite !lookup_insert_eq.
    repeat split; try done.
    intros key' Hk. by rewrite !lookup_insert_ne.
Qed.

Lemma recordDropped_draining (dropped : list AnnounceQueueItem)
    (queue : AnnounceQueueState) :
  draining (recordDropped dropped queue) = draining queue.
Proof.
  unfold recordDropped. revert queue.
  induction dropped as [|d dropped IH]; intros queue; simpl; [done|].
  by rewrite IH.
Qed.

(** [enqueueAnnounce] on a key whose queue is being drained: the closure
    is left alone, the queue changes as [enqueueInto] says. *)
Lemma enqueueAnnounce_existing
    (key : str) (item : AnnounceQueueItem) (settings : Settings.t)
    (sendFn : Callback) (now : Q) (w : World)
    (existing : AnnounceQueueState) :
  queues w !! key = Some existing -> draining existing = true ->
  enqueueAnnounce key item settings sendFn now w =
  let stamped :=
    set_lastEnqueuedAt now (mergeSettings existing settings sendFn) in
  match enqueueInto item stamped with
  | Some queue' =>
      Some (true, mkWorld (<[key := queue']> (queues w)) (drains w) (trace w))
  | None =>
      Some (false, mkWorld (<[key := stamped]> (queues w)) (drains w) (trace w))
  end.
Proof.
  intros Hq Hd. unfold enqueueAnnounce, getAnnounceQueue, enqueueInto.
  rewrite Hq. cbv zeta.
  set (stamped := set_lastEnqueuedAt now _).
  assert (Hbusy : forall q, draining q = true ->
    scheduleAnnounceDrain key
      (mkWorld (<[key := q]> (<[key := mergeSettings existing settings sendFn]>
                                 (queues w))) (drains w) (trace w)) =
    Some (mkWorld (<[key := q]> (queues w)) (drains w) (trace w))).
  { intros q Hdq. erewrite scheduleAnnounceDrain_busy;
      [| cbn [queues]; apply lookup_insert_eq | done].
    by rewrite insert_insert_eq. }
  assert (Hds : draining stamped = true) by done.
  destruct (gtb (cap stamped) 0 && _) eqn:Hfull.
  - destruct (bool_decide (dropPolicy stamped = New)) eqn:Hnew.
    + by rewrite Hbusy.
    + destruct (splice0 _ (items stamped)) as [dropped rest].
      change (dropPolicy (set_items rest stamped)) with (dropPolicy stamped).
      destruct (bool_decide (dropPolicy stamped = Summarize)).
      * rewrite Hbusy; [done|]. cbn. by rewrite recordDropped_draining.
      * by rewrite Hbusy.
  - by rewrite Hbusy.
Qed.

(** [enqueueAnnounce] on a key without an entry: a queue is created with
    the item in it, and a drain closure is started. *)
Lemma enqueueAnnounce_fresh
    (key : str) (item : AnnounceQueueItem) (settings : Settings.t)
    (sendFn : Callback) (now : Q) (w : World) :
  queues w !! key = None ->
  enqueueAnnounce key item settings sendFn now w =
  Some (true,
        started key
          (set_items [normalized item]
             (set_lastEnqueuedAt now (createQueue settings sendFn))) w).
Proof.
  intros Hq. unfold enqueueAnnounce, getAnnounceQueue. rewrite Hq.
  set (stamped := set_lastEnqueuedAt now _).
  change (items stamped) with (@nil AnnounceQueueItem).
  assert (Hroom : gtb (cap stamped) 0 && geb (of_nat (length (@nil AnnounceQueueItem))) (cap stamped) = false).
  { destruct (gtb (cap stamped) 0) eqn:Hpos; [|done]. cbn [andb].
    apply gtb_true_iff in Hpos. apply not_true_iff_false.
    rewrite geb_true_iff. intros Hle.
    by apply (numLt_not_le _ _ Hpos). }
  rewrite Hroom.
  erewrite scheduleAnnounceDrain_idle;
    [| cbn [queues]; apply lookup_insert_eq | done | done].
  cbn. unfold started, normalized. cbn [queues drains trace].
  by rewrite !insert_insert_eq.
Qed.

Lemma enqueueInto_room (item : AnnounceQueueItem) (queue : AnnounceQueueState) :
  (of_nat (length (items queue)) < cap queue)%num ->
  enqueueInto item queue =
  Some (set_items (items queue ++ [normalized item]) queue).
Proof.
  intros Hlt. unfold enqueueInto.
  assert (Hge : geb (of_nat (length (items queue))) (cap queue) = false).
  { apply not_true_iff_false. rewrite geb_true_iff. by apply numLt_not_le. }
  by rewrite Hge, andb_false_r.
Qed.

Lemma numLe_inject_Z (x y : Z) :
  (inject_Z x <= inject_Z y)%num <-> (x <= y)%Z.
Proof. by rewrite numLe_Finite, <- Zle_Qle. Qed.

Lemma numLt_inject_Z (x y : Z) :
  (inject_Z x < inject_Z y)%num <-> (x < y)%Z.
Proof. by rewrite numLt_Finite, <- Zlt_Qlt. Qed.

Lemma Math_floor_ge (z : Z) (c : number) :
  (inject_Z z <= c)%num -> (inject_Z z <= Math_floor c)%num.
Proof.
  destruct c as [x| | |]; try done.
  intros H. cbn [Math_floor]. apply numLe_inject_Z.
  rewrite <- (Qfloor_Z z). apply Qfloor_resp_le. by apply numLe_Finite.
Qed.

(** A cap that is not supplied, or supplied as at least [z] (a positive
    integer), leaves room for [z] items, at creation and at every merge. *)
Lemma cap_createQueue_ge (z : Z) (settings : Settings.t) (sendFn : Callback) :
  (0 < z <= 20)%Z ->
  (forall c, Settings.cap settings = Some c -> (inject_Z z <= c)%num) ->
  (inject_Z z <= cap (createQueue settings sendFn))%num.
Proof.
  intros Hz Hc. cbn. destruct (Settings.cap settings) as [c|].
  - specialize (Hc c eq_refl).
    assert (Hpos : gtb c 0 = true).
    { apply gtb_true_iff. eapply numLt_le_trans; [|exact Hc].
      apply (numLt_inject_Z 0). lia. }
    rewrite Hpos. by apply Math_floor_ge.
  - apply (numLe_inject_Z z 20). lia.
Qed.

Lemma cap_mergeSettings_ge (z : Z) (existing : AnnounceQueueState)
    (settings : Settings.t) (sendFn : Callback) :
  (0 < z)%Z ->
  (forall c, Settings.cap settings = Some c -> (inject_Z z <= c)%num) ->
  (inject_Z z <= cap existing)%num ->
  (inject_Z z <= cap (mergeSettings existing settings sendFn))%num.
Proof.
  intros Hz Hc He. cbn. destruct (Settings.cap settings) as [c|]; [|done].
  specialize (Hc c eq_refl).
  assert (Hpos : gtb c 0 = true).
  { apply gtb_true_iff. eapply numLt_le_trans; [|exact Hc].
    apply (numLt_inject_Z 0). lia. }
  rewrite Hpos. by apply Math_floor_ge.
Qed.

(** ** Drain cycles *)

Lemma resumeAfterDebounce_spec (key : str) (w : World) (force : bool)
    (queue : AnnounceQueueState) :
  drains w !! key = Some (mkTask force AwaitDebounce) ->
  queues w !! key = Some queue ->
  resumeAfterDebounce key w =
  Some match drainCycle force queue with
       | CySend queue' force' removed arg =>
           mkWorld (<[key := queue']> (queues w))
                   (<[key := mkTask force' AwaitSend]> (drains w))
                   (trace w ++ [ObsSend key (send queue) removed arg])
       | CyBreak queue' =>
           if backlogEmpty queue' then removed key w
           else started key queue' w
       end.
Proof.
  intros Ht Hq. unfold resumeAfterDebounce. rewrite Ht, Hq.
  destruct (drainCycle force queue) as [queue' force' rem arg|queue']; [done|].
  erewrite drainFinally_spec; [| cbn [queues]; apply lookup_insert_eq].
  destruct (backlogEmpty queue'); unfold removed, started; cbn [queues drains trace].
  - by rewrite delete_insert_eq.
  - by rewrite insert_insert_eq.
Qed.

Lemma resumeAfterSend_resolved (key : str) (w : World) (force : bool)
    (queue : AnnounceQueueState) :
  drains w !! key = Some (mkTask force AwaitSend) ->
  queues w !! key = Some queue ->
  resumeAfterSend key Resolved w =
  Some (if backlogEmpty queue then removed key w
        else mkWorld (queues w)
                     (<[key := mkTask force AwaitDebounce]> (drains w))
                     (trace w)).
Proof.
  intros Ht Hq. unfold resumeAfterSend. rewrite Ht.
  by apply drainLoop_spec.
Qed.

Lemma resumeAfterSend_rejected (key err : str) (w : World) (force : bool)
    (queue : AnnounceQueueState) :
  drains w !! key = Some (mkTask force AwaitSend) ->
  queues w !! key = Some queue ->
  resumeAfterSend key (Rejected err) w =
  Some (let logged :=
          mkWorld (queues w) (drains w)
                  (trace w ++ [ObsError (drainFailedMessage key err)]) in
        if backlogEmpty queue then removed key logged
        else started key queue logged).
Proof.
  intros Ht Hq. unfold resumeAfterSend. rewrite Ht.
  by erewrite drainFinally_spec.
Qed.

Lemma run_cons (e : Event) (es : list Event) (w w1 : World) :
  step e w = Some w1 -> run (e :: es) w = run es w1.
Proof. intros H. cbn [run]. by rewrite H. Qed.

(** ** Steps on a world whose entry for the key is in view

    The scenarios below follow one key; these lemmas give each step's
    result with the key's queue and closure written out. *)

Lemma step_enqueue_fresh
    (key : str) (item : AnnounceQueueItem) (settings : Settings.t)
    (sendFn : Callback) (now : Q) (w : World) :
  queues w !! key = None ->
  step (EvEnqueue key item settings sendFn now) w =
  Some (mkWorld
          (<[key := set_draining true
                      (set_items [normalized item]
                         (set_lastEnqueuedAt now (createQueue settings sendFn)))]>
             (queues w))
          (<[key := mkTask false AwaitDebounce]> (drains w))
          (trace w ++ [ObsStart key])).
Proof.
  intros Hq. cbn [step]. by rewrite enqueueAnnounce_fresh.
Qed.

Lemma step_enqueue_busy
    (key : str) (item : AnnounceQueueItem) (settings : Settings.t)
    (sendFn : Callback) (now : Q) (queue : AnnounceQueueState)
    (R : Registry) (D : gmap str DrainTask) (T : list Obs) :
  draining queue = true ->
  step (EvEnqueue key item settings sendFn now)
       (mkWorld (<[key := queue]> R) D T) =
  Some (mkWorld
          (<[key := match enqueueInto item
                            (set_lastEnqueuedAt now
                               (mergeSettings queue settings sendFn)) with
                    | Some queue' => queue'
                    | None => set_lastEnqueuedAt now
                                (mergeSettings queue settings sendFn)
                    end]> R)
          D T).
Proof.
  intros Hd. cbn [step].
  erewrite enqueueAnnounce_existing;
    [| cbn [queues]; apply lookup_insert_eq | done].
  cbv zeta. cbn [queues drains trace].
  destruct (enqueueInto item _); cbn; by rewrite insert_insert_eq.
Qed.

Lemma step_debounce
    (key : str) (force : bool) (queue : AnnounceQueueState)
    (R : Registry) (D : gmap str DrainTask) (T : list Obs) :
  step (EvDebounce key)
       (mkWorld (<[key := queue]> R)
                (<[key := mkTask force AwaitDebounce]> D) T) =
  Some match drainCycle force queue with
       | CySend queue' force' removed arg =>
           mkWorld (<[key := queue']> R)
                   (<[key := mkTask force' AwaitSend]> D)
                   (T ++ [ObsSend key (send queue) removed arg])
       | CyBreak queue' =>
           if backlogEmpty queue'
           then mkWorld (delete key R) (delete key D) T
           else mkWorld (<[key := set_draining true queue']> R)
                        (<[key := mkTask false AwaitDebounce]> D)
                        (T ++ [ObsStart key])
       end.
Proof.
  cbn [step].
  erewrite resumeAfterDebounce_spec;
    [| cbn [drains]; apply lookup_insert_eq
     | cbn [queues]; apply lookup_insert_eq].
  f_equal.
  destruct (drainCycle force queue) as [queue' force' rem arg|queue'];
    cbn [queues drains trace].
  - by rewrite !insert_insert_eq.
  - destruct (backlogEmpty queue'); unfold removed, started;
      cbn [queues drains trace].
    + by rewrite !delete_insert_eq.
    + by rewrite !insert_insert_eq.
Qed.

Lemma step_send_resolved
    (key : str) (force : bool) (queue : AnnounceQueueState)
    (R : Registry) (D : gmap str DrainTask) (T : list Obs) :
  step (EvSend key Resolved)
       (mkWorld (<[key := queue]> R) (<[key := mkTask force AwaitSend]> D) T) =
  Some (if backlogEmpty queue
        then mkWorld (delete key R) (delete key D) T
        else mkWorld (<[key := queue]> R)
                     (<[key := mkTask force AwaitDebounce]> D) T).
Proof.
  cbn [step].
  erewrite resumeAfterSend_resolved;
    [| cbn [drains]; apply lookup_insert_eq
     | cbn [queues]; apply lookup_insert_eq].
  f_equal. destruct (backlogEmpty queue); unfold removed;
    cbn [queues drains trace].
  - by rewrite !delete_insert_eq.
  - by rewrite !insert_insert_eq.
Qed.

Lemma step_send_rejected
    (key err : str) (force : bool) (queue : AnnounceQueueState)
    (R : Registry) (D : gmap str DrainTask) (T : list Obs) :
  step (EvSend key (Rejected err))
       (mkWorld (<[key := queue]> R) (<[key := mkTask force AwaitSend]> D) T) =
  Some (if backlogEmpty queue
        then mkWorld (delete key R) (delete key D)
                     (T ++ [ObsError (drainFailedMessage key err)])
        else mkWorld (<[key := set_draining true queue]> R)
                     (<[key := mkTask false AwaitDebounce]> D)
                     ((T ++ [ObsError (drainFailedMessage key err)])
                      ++ [ObsStart key])).
Proof.
  cbn [step].
  erewrite resumeAfterSend_rejected;
    [| cbn [drains]; apply lookup_insert_eq
     | cbn [queues]; apply lookup_insert_eq].
  f_equal. cbv zeta. destruct (backlogEmpty queue); unfold removed, started;
    cbn [queues drains trace].
  - by rewrite !delete_insert_eq.
  - by rewrite !insert_insert_eq.
Qed.

(** The batch branch of a collect cycle. *)
Lemma drainCycle_collect_batch (queue : AnnounceQueueState)
    (lastItem : AnnounceQueueItem) :
  mode queue = Collect ->
  hasCrossChannelItems (items queue) = false ->
  last (items queue) = Some lastItem ->
  drainCycle false queue =
  CySend (buildSummaryPrompt (set_items [] queue)).2 false (items queue)
         (set_prompt
            (buildCollectPrompt (items queue)
               (buildSummaryPrompt (set_items [] queue)).1)
            lastItem).
Proof.
  intros Hm Hx Hl. unfold drainCycle.
  rewrite bool_decide_eq_true_2, Hx by done.
  destruct (buildSummaryPrompt (set_items [] queue)) as [summary queue'].
  by rewrite Hl.
Qed.

(** The block of an item whose body is not blank: the numbered marker,
    then the body without its trailing whitespace. *)
Lemma collectBlock_body (idx : nat) (item : AnnounceQueueItem) :
  trimEnd (prompt item) <> [] ->
  collectBlock idx item =
  lit "---" ++ newline ++ lit "Queued #" ++ String_of_nat (idx + 1)
  ++ newline ++ trimEnd (prompt item).
Proof.
  intros Hb. unfold collectBlock, trim.
  change (trimStart (lit "---" ++ ?rest)) with (lit "---" ++ rest).
  rewrite !(app_assoc _ _ (prompt item)), !(app_assoc _ _ (trimEnd (prompt item))).
  by apply trimEnd_app.
Qed.

(** ** Collect mode, one channel (C1) *)

(** C1, amended.  Three items enqueued for a fresh key in collect mode
    (cap not supplied or at least 3), whose stored origins share one
    non-empty origin key, and then one drain cycle: exactly one message
    is sent, for all three items.  It is the third item with its prompt
    replaced, so it carries the third item's session key and other
    metadata.  The prompt is the header followed by the three numbered
    blocks in enqueue order; the block of an item holds its body with the
    trailing whitespace trimmed (a body that ends in whitespace is not in
    the message as it was enqueued).  After the send has resolved the key
    has left the registry. *)
Theorem collect_single_channel_batch
    (key : str) (i1 i2 i3 : AnnounceQueueItem) (settings : Settings.t)
    (f1 f2 f3 : Callback) (t1 t2 t3 : Q) (w : World) (k : str) :
  queues w !! key = None ->
  Settings.mode settings = Collect ->
  (forall c, Settings.cap settings = Some c -> (3 <= c)%num) ->
  k <> [] ->
  (forall i, i ∈ [i1; i2; i3] ->
     origin (normalized i) <> None /\ originKey (normalized i) = Some k) ->
  exists w' message,
    run [EvEnqueue key i1 settings f1 t1; EvEnqueue key i2 settings f2 t2;
         EvEnqueue key i3 settings f3 t3; EvDebounce key;
         EvSend key Resolved] w = Some w' /\
    trace w' =
      trace w ++ [ObsStart key;
                  ObsSend key f3 [normalized i1; normalized i2; normalized i3]
                          message] /\
    message =
      set_prompt
        (join (newline ++ newline)
           [collectHeader; collectBlock 0 i1; collectBlock 1 i2;
            collectBlock 2 i3])
        (normalized i3) /\
    sessionKey message = sessionKey i3 /\
    enqueuedAt message = enqueuedAt i3 /\
    summaryLine message = summaryLine i3 /\
    originKey message = Some k /\
    (forall idx item, trimEnd (prompt item) <> [] ->
       collectBlock idx item =
       lit "---" ++ newline ++ lit "Queued #" ++ String_of_nat (idx + 1)
       ++ newline ++ trimEnd (prompt item)) /\
    queues w' !! key = None.
Proof.
  intros Hfresh Hmode Hcap Hk Hshare.
  erewrite run_cons; [| by apply step_enqueue_fresh].
  set (q1 := set_draining true _).
  assert (Hcap1 : (3 <= cap q1)%num).
  { apply (cap_createQueue_ge 3); [lia|done]. }
  erewrite run_cons; [| by apply step_enqueue_busy].
  rewrite enqueueInto_room.
  2:{ eapply numLt_le_trans;
        [|apply (cap_mergeSettings_ge 3); [lia|done|exact Hcap1]]. done. }
  set (q2 := set_items _ _).
  assert (Hcap2 : (3 <= cap q2)%num).
  { apply (cap_mergeSettings_ge 3); [lia|done|exact Hcap1]. }
  erewrite run_cons; [| by apply step_enqueue_busy].
  rewrite enqueueInto_room.
  2:{ eapply numLt_le_trans;
        [|apply (cap_mergeSettings_ge 3); [lia|done|exact Hcap2]]. done. }
  set (q3 := set_items _ _).
  assert (Hitems : items q3 = [normalized i1; normalized i2; normalized i3])
    by done.
  erewrite run_cons; [| by apply step_debounce].
  erewrite (drainCycle_collect_batch q3 (normalized i3));
    [| exact Hmode
     | rewrite Hitems; apply (hasCrossChannelItems_shared_key _ k); [done|];
       intros a Ha;
       repeat (apply elem_of_cons in Ha as [->|Ha];
               [apply Hshare; repeat constructor|]);
       by apply elem_of_nil in Ha
     | rewrite Hitems; reflexivity].
  rewrite (buildSummaryPrompt_none (set_items [] q3)) by done.
  erewrite run_cons; [| by apply step_send_resolved].
  cbn [run backlogEmpty items set_items droppedCount length Nat.eqb andb].
  eexists _, _. split; [reflexivity|]. cbn [trace queues].
  split; [by rewrite <- app_assoc|].
  split; [reflexivity|].
  split; [reflexivity|]. split; [reflexivity|]. split; [reflexivity|].
  split; [apply Hshare; repeat constructor|].
  split; [apply collectBlock_body | apply lookup_delete_eq].
Qed.

(** ** Overflow with eviction and summary (C3) *)

Lemma step_enqueue_busy_eq
    (key : str) (item : AnnounceQueueItem) (settings : Settings.t)
    (sendFn : Callback) (now : Q) (queue queue' : AnnounceQueueState)
    (R : Registry) (D : gmap str DrainTask) (T : list Obs) :
  draining queue = true ->
  enqueueInto item (set_lastEnqueuedAt now (mergeSettings queue settings sendFn))
    = Some queue' ->
  step (EvEnqueue key item settings sendFn now)
       (mkWorld (<[key := queue]> R) D T) =
  Some (mkWorld (<[key := queue']> R) D T).
Proof.
  intros Hd He. rewrite step_enqueue_busy by done. by rewrite He.
Qed.

Lemma buildQueueSummaryLine_length (item : AnnounceQueueItem) :
  length (buildQueueSummaryLine item) <= 160.
Proof. unfold buildQueueSummaryLine. apply elideText_length. lia. Qed.

Lemma elem_of_trimStart (s : str) (c : code_unit) : c ∈ trimStart s -> c ∈ s.
Proof.
  induction s as [|d s IH]; simpl; [done|].
  destruct (isWhiteSpace d); [|done].
  intros H. apply elem_of_cons. right. by apply IH.
Qed.

Lemma elem_of_trimEnd (s : str) (c : code_unit) : c ∈ trimEnd s -> c ∈ s.
Proof.
  induction s as [|d s IH]; simpl; [done|].
  destruct (trimEnd s) as [|e t] eqn:E.
  - destruct (isWhiteSpace d); [by intros H; apply elem_of_nil in H|].
    intros H. apply list_elem_of_singleton in H as ->.
    apply elem_of_cons. by left.
  - intros H. apply elem_of_cons in H as [->|H]; apply elem_of_cons;
      [by left | right; by apply IH].
Qed.

(** After the replacement the only whitespace left is the space. *)
Lemma collapse_from_spaces (inRun : bool) (s : str) (c : code_unit) :
  c ∈ collapse_from inRun s -> isWhiteSpace c = true -> c = 32%N.
Proof.
  revert inRun. induction s as [|d s IH]; intros inRun; simpl.
  - by intros H; apply elem_of_nil in H.
  - destruct (isWhiteSpace d) eqn:Hd.
    + destruct inRun; [apply IH|].
      intros H Hc. apply elem_of_cons in H as [->|H]; [done|]. by eapply IH.
    + intros H Hc. apply elem_of_cons in H as [->|H]; [congruence|].
      by eapply IH.
Qed.

(** The shape of a summary line: at most 160 code units, no whitespace
    but single spaces, and either the cleaned text itself or, when that
    is longer than 160, a prefix of it closed by the ellipsis. *)
Lemma buildQueueSummaryLine_shape (item : AnnounceQueueItem) :
  length (buildQueueSummaryLine item) <= 160 /\
  (forall c, c ∈ buildQueueSummaryLine item ->
     isWhiteSpace c = true -> c = 32%N) /\
  (length (cleanedSummary item) <= 160 /\
     buildQueueSummaryLine item = cleanedSummary item
   \/
   160 < length (cleanedSummary item) /\
     buildQueueSummaryLine item =
       trimEnd (firstn 159 (cleanedSummary item)) ++ ellipsis).
Proof.
  split; [apply buildQueueSummaryLine_length|].
  assert (Hclean : forall c, c ∈ cleanedSummary item ->
            isWhiteSpace c = true -> c = 32%N).
  { unfold cleanedSummary, trim, collapseWhitespace. intros c Hc.
    apply elem_of_trimEnd, elem_of_trimStart in Hc.
    exact (collapse_from_spaces _ _ _ Hc). }
  unfold buildQueueSummaryLine, elideText.
  destruct (length (cleanedSummary item) <=? 160) eqn:E.
  - apply Nat.leb_le in E. split; [done|]. by left.
  - apply Nat.leb_gt in E. split; [|by right].
    intros c Hc. apply elem_of_app in Hc as [Hc|Hc].
    + apply elem_of_trimEnd in Hc.
      apply Hclean. rewrite <- (take_drop 159 (cleanedSummary item)).
      apply elem_of_app. by left.
    + apply list_elem_of_singleton in Hc as ->. done.
Qed.

(** C3, amended.  With cap 2 and the summarize policy, four items
    enqueued for a fresh key before any drain cycle leave the two newest
    in the queue, a dropped count of 2 and the summary lines of the two
    oldest, in order.  A summary line has at most 160 code units and no
    whitespace but single spaces; it is the item's text with whitespace
    collapsed, cut after 159 code units and closed by an ellipsis when
    that text is longer than 160.  In individual
    mode, and in collect mode when the two remaining items are not
    cross-channel, the next message sent contains "Dropped 2 announces
    due to cap.". *)
Theorem overflow_evicts_and_summarizes
    (key : str) (i1 i2 i3 i4 : AnnounceQueueItem)
    (m : QueueMode) (d : option number)
    (f1 f2 f3 f4 : Callback) (t1 t2 t3 t4 : Q) (w : World) :
  queues w !! key = None ->
  exists w4 queue,
    run [EvEnqueue key i1 (Settings.mk m d (Some 2%num) (Some Summarize)) f1 t1;
         EvEnqueue key i2 (Settings.mk m d (Some 2%num) (Some Summarize)) f2 t2;
         EvEnqueue key i3 (Settings.mk m d (Some 2%num) (Some Summarize)) f3 t3;
         EvEnqueue key i4 (Settings.mk m d (Some 2%num) (Some Summarize)) f4 t4] w
    = Some w4 /\
    queues w4 !! key = Some queue /\
    droppedCount queue = 2 /\
    summaryLines queue = [buildQueueSummaryLine i1; buildQueueSummaryLine i2] /\
    items queue = [normalized i3; normalized i4] /\
    (forall item,
       length (buildQueueSummaryLine item) <= 160 /\
       (forall c, c ∈ buildQueueSummaryLine item ->
          isWhiteSpace c = true -> c = 32%N) /\
       (length (cleanedSummary item) <= 160 /\
          buildQueueSummaryLine item = cleanedSummary item
        \/
        160 < length (cleanedSummary item) /\
          buildQueueSummaryLine item =
            trimEnd (firstn 159 (cleanedSummary item)) ++ ellipsis)) /\
    (m = Individual \/
     hasCrossChannelItems [normalized i3; normalized i4] = false ->
     exists w5 removed arg,
       step (EvDebounce key) w4 = Some w5 /\
       trace w5 = trace w4 ++ [ObsSend key f4 removed arg] /\
       includes (lit "Dropped 2 announces due to cap.") (prompt arg) = true).
Proof.
  intros Hfresh.
  erewrite run_cons; [| by apply step_enqueue_fresh].
  do 3 (erewrite run_cons;
    [| apply step_enqueue_busy_eq; [reflexivity|];
       cbv -[buildQueueSummaryLine normalized Math_max]; reflexivity]).
  cbn [run]. eexists _, _. split; [reflexivity|]. cbn [queues trace].
  split; [apply lookup_insert_eq|].
  split; [reflexivity|]. split; [reflexivity|]. split; [reflexivity|].
  split; [apply buildQueueSummaryLine_shape|].
  intros Hmode. rewrite step_debounce.
  destruct m.
  - destruct Hmode as [Hmode|Hx]; [done|].
    erewrite (drainCycle_collect_batch _ (normalized i4));
      [| reflexivity | exact Hx | reflexivity].
    eexists _, _, _. split; [reflexivity|]. cbn [trace]. split; [reflexivity|].
    vm_compute. reflexivity.
  - eexists _, _, _. split; [reflexivity|]. cbn [trace]. split; [reflexivity|].
    vm_compute. reflexivity.
Qed.

(** ** What a drain cycle does to the queue *)

Lemma buildSummaryPrompt_queue (queue : AnnounceQueueState) :
  (buildSummaryPrompt queue).2 = queue \/
  (buildSummaryPrompt queue).2 = set_drops 0 [] queue.
Proof.
  unfold buildSummaryPrompt. destruct (_ || _); [by left | by right].
Qed.

(** A cycle that sends has taken [removed], the head of the queue, out of
    it; the rest stays in order. *)
Lemma drainCycle_CySend (force force' : bool) (queue queue' : AnnounceQueueState)
    (removed : list AnnounceQueueItem) (arg : AnnounceQueueItem) :
  drainCycle force queue = CySend queue' force' removed arg ->
  items queue = removed ++ items queue' /\ removed <> [] /\
  draining queue' = draining queue /\ mode queue' = mode queue /\
  send queue' = send queue.
Proof.
  assert (Hnext : forall f g q,
    sendNext f g q = CySend queue' force' removed arg ->
    items q = removed ++ items queue' /\ removed <> [] /\
    draining queue' = draining q /\ mode queue' = mode q /\
    send queue' = send q).
  { intros f g q. unfold sendNext. destruct (items q) as [|next rest] eqn:Hi;
      [done|]. by intros [= <- <- <- <-]. }
  unfold drainCycle. destruct (bool_decide (mode queue = Collect)).
  - destruct force; [apply Hnext|].
    destruct (hasCrossChannelItems (items queue)); [apply Hnext|].
    destruct (buildSummaryPrompt (set_items [] queue)) as [summary q1] eqn:Hb.
    destruct (last (items queue)) as [lastItem|] eqn:Hl; [|done].
    intros [= <- <- <- <-].
    assert (Hq1 : q1 = (buildSummaryPrompt (set_items [] queue)).2)
      by (by rewrite Hb).
    destruct (buildSummaryPrompt_queue (set_items [] queue)) as [H|H];
      rewrite H in Hq1; subst q1; cbn; rewrite app_nil_r;
      (split; [done|]); (split; [intros Hn; by rewrite Hn in Hl|done]).
  - destruct (buildSummaryPrompt queue) as [summary q1] eqn:Hb.
    assert (Hq1 : q1 = (buildSummaryPrompt queue).2) by (by rewrite Hb).
    assert (Hsame : items q1 = items queue /\ draining q1 = draining queue /\
                    mode q1 = mode queue /\ send q1 = send queue).
    { destruct (buildSummaryPrompt_queue queue) as [H|H];
        rewrite H in Hq1; by subst q1. }
    destruct Hsame as (Hi & Hd & Hm & Hs).
    rewrite <- Hi, <- Hd, <- Hm, <- Hs.
    destruct summary as [text|]; [destruct (truthy (Some text))|]; apply Hnext.
Qed.

(** A cycle leaves the loop by [break] only on an empty queue. *)
Lemma drainCycle_CyBreak (force : bool) (queue queue' : AnnounceQueueState) :
  drainCycle force queue = CyBreak queue' ->
  items queue = [] /\ items queue' = [] /\
  draining queue' = draining queue /\ mode queue' = mode queue.
Proof.
  assert (Hnext : forall f g q,
    sendNext f g q = CyBreak queue' ->
    items q = [] /\ items queue' = [] /\
    draining queue' = draining q /\ mode queue' = mode q).
  { intros f g q. unfold sendNext. destruct (items q) as [|next rest] eqn:Hi;
      [|done]. by intros [= <-]. }
  unfold drainCycle. destruct (bool_decide (mode queue = Collect)).
  - destruct force; [apply Hnext|].
    destruct (hasCrossChannelItems (items queue)); [apply Hnext|].
    destruct (buildSummaryPrompt (set_items [] queue)) as [summary q1] eqn:Hb.
    destruct (last (items queue)) as [lastItem|] eqn:Hl; [done|].
    intros [= <-].
    assert (Hq1 : q1 = (buildSummaryPrompt (set_items [] queue)).2)
      by (by rewrite Hb).
    apply last_None in Hl.
    destruct (buildSummaryPrompt_queue (set_items [] queue)) as [H|H];
      rewrite H in Hq1; by subst q1.
  - destruct (buildSummaryPrompt queue) as [summary q1] eqn:Hb.
    assert (Hq1 : q1 = (buildSummaryPrompt queue).2) by (by rewrite Hb).
    assert (Hsame : items q1 = items queue /\ draining q1 = draining queue /\
                    mode q1 = mode queue).
    { destruct (buildSummaryPrompt_queue queue) as [H|H];
        rewrite H in Hq1; by subst q1. }
    destruct Hsame as (Hi & Hd & Hm).
    rewrite <- Hi, <- Hd, <- Hm.
    destruct summary as [text|]; [destruct (truthy (Some text))|]; apply Hnext.
Qed.

Lemma enqueueAnnounce_total
    (key : str) (item : AnnounceQueueItem) (settings : Settings.t)
    (sendFn : Callback) (now : Q) (w : World) :
  is_Some (enqueueAnnounce key item settings sendFn now w).
Proof.
  assert (Hs : forall (b : bool) w0,
    is_Some (w' ← scheduleAnnounceDrain key w0; Some (b, w'))).
  { intros b w0. destruct (scheduleAnnounceDrain_total key w0) as [w' Hw].
    rewrite Hw. by eexists. }
  unfold enqueueAnnounce.
  destruct (getAnnounceQueue (queues w) key settings sendFn) as [queue reg].
  destruct (_ && _); [|apply Hs].
  destruct (bool_decide _); [apply Hs|].
  destruct (splice0 _ _) as [dropped rest].
  destruct (bool_decide _); apply Hs.
Qed.

(** ** A failing send (C8) *)

(** C8.  A drain cycle that reaches a send, followed by the failure of
    that send: the failure is caught by the closure and logged with the
    key in the message; nothing reaches the caller of [enqueueAnnounce],
    which goes on returning a value.  The items taken out for the send
    are gone from the queue and are not sent again in these steps.  If a
    backlog remains (items or pending drops), it is kept and a new drain
    closure waits for the next cycle; if none remains, the key leaves the
    registry. *)
Theorem send_failure_is_logged_and_drain_goes_on
    (key err : str) (w : World) (force force' : bool)
    (queue queue' : AnnounceQueueState)
    (removed : list AnnounceQueueItem) (arg : AnnounceQueueItem) :
  drains w !! key = Some (mkTask force AwaitDebounce) ->
  queues w !! key = Some queue ->
  drainCycle force queue = CySend queue' force' removed arg ->
  exists w',
    run [EvDebounce key; EvSend key (Rejected err)] w = Some w' /\
    items queue = removed ++ items queue' /\
    trace w' =
      trace w
      ++ [ObsSend key (send queue) removed arg;
          ObsError (lit "announce queue drain failed for " ++ key
                    ++ lit ": " ++ err)]
      ++ (if backlogEmpty queue' then [] else [ObsStart key]) /\
    (items queue' <> [] \/ 0 < droppedCount queue' ->
       queues w' !! key = Some (set_draining true queue') /\
       drains w' !! key = Some (mkTask false AwaitDebounce)) /\
    (items queue' = [] /\ droppedCount queue' = 0 ->
       queues w' !! key = None /\ drains w' !! key = None) /\
    (forall item settings sendFn now,
       is_Some (enqueueAnnounce key item settings sendFn now w')).
Proof.
  intros Ht Hq Hc.
  erewrite run_cons;
    [| cbn [step]; erewrite resumeAfterDebounce_spec by done;
       rewrite Hc; reflexivity].
  erewrite run_cons; [| apply step_send_rejected].
  cbn [run]. eexists. split; [reflexivity|].
  split; [by apply drainCycle_CySend in Hc as [? _]|].
  split.
  { destruct (backlogEmpty queue'); cbn [trace];
      rewrite <- !app_assoc; by rewrite ?app_nil_r. }
  split.
  - intros Hb.
    assert (He : backlogEmpty queue' = false).
    { apply not_true_iff_false. rewrite backlogEmpty_true.
      intros [Hi Hd]. destruct Hb as [Hb|Hb]; [done|lia]. }
    rewrite He. cbn [queues drains]. by rewrite !lookup_insert_eq.
  - split; [|intros; apply enqueueAnnounce_total].
    intros Hb. apply backlogEmpty_true in Hb. rewrite Hb.
    cbn [queues drains]. by rewrite !lookup_delete_eq.
Qed.

(** ** Drops pending on an empty queue (C10) *)

(** C10.  A collect-mode cycle of a fresh drain session (flag false) that
    finds no items but a positive dropped count under the summarize
    policy: the overflow summary is built, which resets the count and
    clears the lines, then no last item is found and the loop is left
    without a send.  Nothing is added to the trace, and the [finally]
    block, finding the backlog empty, takes the key out of the registry:
    the summary is never delivered. *)
Theorem pending_drops_without_items_are_lost
    (key : str) (w : World) (queue : AnnounceQueueState) :
  drains w !! key = Some (mkTask false AwaitDebounce) ->
  queues w !! key = Some queue ->
  mode queue = Collect ->
  dropPolicy queue = Summarize ->
  items queue = [] ->
  0 < droppedCount queue ->
  (exists text,
     buildSummaryPrompt (set_items [] queue) =
       (Some text, set_drops 0 [] (set_items [] queue)) /\
     includes (overflowHeader (droppedCount queue)) text = true) /\
  drainCycle false queue = CyBreak (set_drops 0 [] (set_items [] queue)) /\
  exists w',
    step (EvDebounce key) w = Some w' /\
    trace w' = trace w /\
    queues w' !! key = None /\
    drains w' !! key = None.
Proof.
  intros Ht Hq Hm Hp Hi Hn.
  assert (Hb : exists text,
     buildSummaryPrompt (set_items [] queue) =
       (Some text, set_drops 0 [] (set_items [] queue)) /\
     includes (overflowHeader (droppedCount queue)) text = true).
  { rewrite buildSummaryPrompt_some by done. eexists. split; [reflexivity|].
    cbn [summaryLines set_items]. destruct (summaryLines queue) as [|l ls].
    - change (droppedCount (set_items [] queue)) with (droppedCount queue).
      pose proof (includes_app [] (overflowHeader (droppedCount queue)) [])
        as H.
      by rewrite app_nil_r in H.
    - unfold summaryAsSpecified. cbn [join droppedCount set_items].
      apply (includes_app []). }
  assert (Hc : drainCycle false queue =
               CyBreak (set_drops 0 [] (set_items [] queue))).
  { unfold drainCycle. rewrite bool_decide_eq_true_2 by done.
    rewrite Hi. change (hasCrossChannelItems []) with false. cbv iota.
    destruct Hb as (text & -> & _). done. }
  split; [done|]. split; [done|].
  cbn [step]. erewrite resumeAfterDebounce_spec by done. rewrite Hc.
  change (backlogEmpty (set_drops 0 [] (set_items [] queue))) with true.
  cbv iota. eexists. split; [reflexivity|]. unfold removed.
  cbn [trace queues drains]. by rewrite !lookup_delete_eq.
Qed.

(** ** Every step, key by key *)

Lemma wellFormed_key (w : World) (key : str) :
  wellFormed w ->
  (queues w !! key = None /\ drains w !! key = None) \/
  (exists queue task, queues w !! key = Some queue /\
     drains w !! key = Some task /\ draining queue = true).
Proof.
  intros Hwf. specialize (Hwf key).
  destruct (queues w !! key) as [queue|], (drains w !! key) as [task|];
    try done; [right|left]; eauto.
Qed.

(** A step touches the queue and the closure of its own key only, and
    there it follows one of the paths of [KeyStep]. *)
Lemma step_analysis (e : Event) (w w' : World) :
  wellFormed w -> step e w = Some w' ->
  (forall key', key' <> eventKey e ->
     queues w' !! key' = queues w !! key' /\
     drains w' !! key' = drains w !! key') /\
  exists new,
    trace w' = trace w ++ new /\
    KeyStep e (queues w !! eventKey e) (drains w !! eventKey e) new
            (queues w' !! eventKey e) (drains w' !! eventKey e).
Proof.
  intros Hwf Hstep.
  assert (Hsame : forall key',
    queues w !! key' = queues w !! key' /\ drains w !! key' = drains w !! key')
    by done.
  assert (Hremoved : forall key key' w0, key' <> key ->
    queues (removed key w0) !! key' = queues w0 !! key' /\
    drains (removed key w0) !! key' = drains w0 !! key').
  { intros key key' w0 Hne. unfold removed. cbn [queues drains].
    by rewrite !lookup_delete_ne. }
  assert (Hstarted : forall key key' q w0, key' <> key ->
    queues (started key q w0) !! key' = queues w0 !! key' /\
    drains (started key q w0) !! key' = drains w0 !! key').
  { intros key key' q w0 Hne. unfold started. cbn [queues drains].
    by rewrite !lookup_insert_ne. }
  destruct e as [key item settings sendFn now|key|key outcome];
    cbn [eventKey]; cbn [step] in Hstep;
    destruct (wellFormed_key w key Hwf)
      as [[Hq Ht]|(queue & task & Hq & Ht & Hd)].
  - rewrite enqueueAnnounce_fresh in Hstep by done.
    injection Hstep as <-. split; [intros; by apply Hstarted|].
    exists [ObsStart key]. split; [done|].
    unfold started. cbn [queues drains]. rewrite !lookup_insert_eq, Hq, Ht.
    constructor.
  - erewrite enqueueAnnounce_existing in Hstep by done. cbv zeta in Hstep.
    rewrite Hq, Ht.
    pose proof (KsEnqueue key item settings sendFn now queue task Hd) as Hk.
    destruct (enqueueInto item _) as [queue'|] eqn:He;
      injection Hstep as <-; cbn [queues drains trace];
      (split; [intros key' Hne; by rewrite lookup_insert_ne|]);
      exists []; rewrite app_nil_r; (split; [done|]);
      by rewrite lookup_insert_eq, Ht.
  - unfold resumeAfterDebounce in Hstep. rewrite Ht in Hstep.
    injection Hstep as <-. split; [done|]. exists []. rewrite app_nil_r.
    split; [done|]. constructor. by left.
  - destruct task as [force [|]].
    + erewrite resumeAfterDebounce_spec in Hstep by done.
      injection Hstep as <-. rewrite Hq, Ht.
      destruct (drainCycle force queue) as [queue' force' rem arg|queue']
        eqn:Hc.
      * cbn [queues drains trace].
        split; [intros key' Hne; by rewrite !lookup_insert_ne|].
        eexists. split; [done|]. rewrite !lookup_insert_eq.
        by constructor.
      * destruct (backlogEmpty queue') eqn:He.
        -- split; [intros; by apply Hremoved|]. exists [].
           rewrite app_nil_r. split; [done|]. unfold removed.
           cbn [queues drains]. rewrite !lookup_delete_eq.
           by econstructor.
        -- split; [intros; by apply Hstarted|]. exists [ObsStart key].
           split; [done|]. unfold started. cbn [queues drains].
           rewrite !lookup_insert_eq. by econstructor.
    + unfold resumeAfterDebounce in Hstep. rewrite Ht in Hstep.
      injection Hstep as <-. split; [done|]. exists []. rewrite app_nil_r.
      split; [done|]. constructor. right. by exists force.
  - unfold resumeAfterSend in Hstep. rewrite Ht in Hstep.
    injection Hstep as <-. split; [done|]. exists []. rewrite app_nil_r.
    split; [done|]. constructor. by left.
  - destruct task as [force [|]].
    + unfold resumeAfterSend in Hstep. rewrite Ht in Hstep.
      injection Hstep as <-. split; [done|]. exists []. rewrite app_nil_r.
      split; [done|]. constructor. right. by exists force.
    + destruct outcome as [|err].
      * erewrite resumeAfterSend_resolved in Hstep by done.
        injection Hstep as <-. rewrite Hq, Ht.
        destruct (backlogEmpty queue) eqn:He.
        -- split; [intros; by apply Hremoved|]. exists [].
           rewrite app_nil_r. split; [done|]. unfold removed.
           cbn [queues drains]. rewrite !lookup_delete_eq.
           by constructor.
        -- cbn [queues drains trace].
           split; [intros key' Hne; by rewrite !lookup_insert_ne|].
           exists []. rewrite app_nil_r. split; [done|].
           rewrite lookup_insert_eq, Hq. by constructor.
      * erewrite resumeAfterSend_rejected in Hstep by done.
        injection Hstep as <-. rewrite Hq, Ht. cbv zeta.
        destruct (backlogEmpty queue) eqn:He.
        -- split.
           { intros key' Hne. unfold removed. cbn [queues drains].
             by rewrite !lookup_delete_ne. }
           eexists.
           split; [reflexivity|]. unfold removed.
           cbn [queues drains]. rewrite !lookup_delete_eq.
           by constructor.
        -- split.
           { intros key' Hne. unfold started. cbn [queues drains].
             by rewrite !lookup_insert_ne. }
           exists [ObsError (drainFailedMessage key err); ObsStart key].
           split; [unfold started; cbn [trace]; by rewrite <- app_assoc|].
           unfold started. cbn [queues drains].
           rewrite !lookup_insert_eq. by constructor.
Qed.

Lemma enqueueInto_draining (item : AnnounceQueueItem)
    (queue queue' : AnnounceQueueState) :
  enqueueInto item queue = Some queue' -> draining queue' = draining queue.
Proof.
  unfold enqueueInto. destruct (_ && _).
  - destruct (bool_decide (dropPolicy queue = New)); [done|].
    destruct (splice0 _ _) as [dropped rest].
    destruct (bool_decide (dropPolicy queue = Summarize));
      intros [= <-]; cbn; by rewrite ?recordDropped_draining.
  - by intros [= <-].
Qed.

Lemma wellFormed_empty : wellFormed emptyWorld.
Proof. intros key. unfold emptyWorld. cbn. by rewrite !lookup_empty. Qed.

Lemma wellFormed_step (e : Event) (w w' : World) :
  wellFormed w -> step e w = Some w' -> wellFormed w'.
Proof.
  intros Hwf Hstep key.
  destruct (step_analysis e w w' Hwf Hstep) as [Hframe (new & _ & Hk)].
  destruct (decide (key = eventKey e)) as [->|Hne].
  - pose proof (Hwf (eventKey e)) as Hwk. revert Hwk Hk.
    generalize (queues w !! eventKey e) (drains w !! eventKey e)
      (queues w' !! eventKey e) (drains w' !! eventKey e).
    intros q0 t0 q1 t1 Hwk Hk.
    destruct Hk; try done.
    + destruct (enqueueInto item _) as [queue'|] eqn:He; [|done].
      by rewrite (enqueueInto_draining _ _ _ He).
    + match goal with H : drainCycle _ _ = _ |- _ =>
        apply drainCycle_CySend in H as (_ & _ & -> & _) end.
      done.
  - destruct (Hframe key Hne) as [-> ->]. apply Hwf.
Qed.

Lemma wellFormed_run (es : list Event) (w w' : World) :
  wellFormed w -> run es w = Some w' -> wellFormed w'.
Proof.
  revert w. induction es as [|e es IH]; intros w Hwf Hrun; cbn [run] in Hrun.
  - by injection Hrun as <-.
  - destruct (step e w) as [w1|] eqn:Hs; [|done]. cbn in Hrun.
    eapply IH; [|exact Hrun]. by eapply wellFormed_step.
Qed.

(** ** The registry entry and the drain (C9) *)

(** The settings of a queue made by [createQueue], read off the
    settings of the call. *)
Lemma createQueue_settings (settings : Settings.t) (sendFn : Callback) :
  mode (createQueue settings sendFn) = Settings.mode settings /\
  send (createQueue settings sendFn) = sendFn /\
  (forall d, Settings.debounceMs settings = Some d ->
     ((0 <= d)%num -> debounceMs (createQueue settings sendFn) = d) /\
     ((d < 0)%num -> debounceMs (createQueue settings sendFn) = 0%num) /\
     (d = NaN -> debounceMs (createQueue settings sendFn) = NaN)) /\
  (Settings.debounceMs settings = None ->
     debounceMs (createQueue settings sendFn) = 1000%num) /\
  (forall c : Q, Settings.cap settings = Some (Finite c) -> (0 < c)%Q ->
     cap (createQueue settings sendFn) = inject_Z (Qfloor c)) /\
  (Settings.cap settings = Some Infinity ->
     cap (createQueue settings sendFn) = Infinity) /\
  ((forall c, Settings.cap settings = Some c -> ~ (0 < c)%num) ->
     cap (createQueue settings sendFn) = 20%num) /\
  (forall p, Settings.dropPolicy settings = Some p ->
     dropPolicy (createQueue settings sendFn) = p) /\
  (Settings.dropPolicy settings = None ->
     dropPolicy (createQueue settings sendFn) = Summarize).
Proof.
  cbn. split_and!; try done.
  - intros d ->. apply Math_max_0_cases.
  - by intros ->.
  - intros c -> Hc. apply gtb_Finite in Hc. by rewrite Hc.
  - by intros ->.
  - intros Hc. destruct (Settings.cap settings) as [c|]; [|done].
    specialize (Hc c eq_refl). destruct (gtb c 0) eqn:E; [|done].
    by destruct Hc.
  - by intros p ->.
  - by intros ->.
Qed.

(** C9.  In every world an execution can reach, a key has an entry in the
    registry exactly when it has pending items, pending drops or a drain
    closure in flight; an entry always comes with a closure and is marked
    as draining.  The entry is removed when its drain closure finds no
    items and no drops: after a send has settled, whether it resolved
    or failed, and after a cycle that had nothing to send; the closure
    ends with it.  An entry leaves the registry in no other way.  An
    enqueue for a key without an entry is accepted and makes a new
    entry that holds just the new item, has no drops and no summary
    lines, and takes every setting from that call: mode and callback as
    supplied, the debounce clamped at 0 and the cap floored where
    supplied (and positive), the policy as supplied, and the defaults
    1000, 20 and summarize for what the call does not supply; a drain
    closure is started for it. *)
Theorem registry_entry_iff_backlog_or_drain
    (es : list Event) (w : World) (key : str) :
  run es emptyWorld = Some w ->
  (is_Some (queues w !! key) <->
     (exists queue, queues w !! key = Some queue /\
        (items queue <> [] \/ 0 < droppedCount queue)) \/
     is_Some (drains w !! key)) /\
  (forall queue, queues w !! key = Some queue ->
     draining queue = true /\ is_Some (drains w !! key)) /\
  (forall queue force outcome,
     queues w !! key = Some queue ->
     drains w !! key = Some (mkTask force AwaitSend) ->
     items queue = [] -> droppedCount queue = 0 ->
     exists w',
       step (EvSend key outcome) w = Some w' /\
       queues w' !! key = None /\ drains w' !! key = None) /\
  (forall queue force queue',
     queues w !! key = Some queue ->
     drains w !! key = Some (mkTask force AwaitDebounce) ->
     drainCycle force queue = CyBreak queue' ->
     items queue' = [] -> droppedCount queue' = 0 ->
     exists w',
       step (EvDebounce key) w = Some w' /\
       queues w' !! key = None /\ drains w' !! key = None) /\
  (forall e w',
     step e w = Some w' ->
     is_Some (queues w !! key) -> queues w' !! key = None ->
     exists queue force,
       queues w !! key = Some queue /\
       ((exists outcome,
           e = EvSend key outcome /\
           drains w !! key = Some (mkTask force AwaitSend) /\
           items queue = [] /\ droppedCount queue = 0) \/
        (exists queue',
           e = EvDebounce key /\
           drains w !! key = Some (mkTask force AwaitDebounce) /\
           drainCycle force queue = CyBreak queue' /\
           items queue' = [] /\ droppedCount queue' = 0))) /\
  (forall item settings sendFn now,
     queues w !! key = None ->
     exists w' queue',
       enqueueAnnounce key item settings sendFn now w = Some (true, w') /\
       queues w' !! key = Some queue' /\
       items queue' = [normalized item] /\
       droppedCount queue' = 0 /\ summaryLines queue' = [] /\
       draining queue' = true /\ lastEnqueuedAt queue' = now /\
       mode queue' = Settings.mode settings /\
       send queue' = sendFn /\
       (forall d, Settings.debounceMs settings = Some d ->
          ((0 <= d)%num -> debounceMs queue' = d) /\
          ((d < 0)%num -> debounceMs queue' = 0%num) /\
          (d = NaN -> debounceMs queue' = NaN)) /\
       (Settings.debounceMs settings = None ->
          debounceMs queue' = 1000%num) /\
       (forall c : Q, Settings.cap settings = Some (Finite c) -> (0 < c)%Q ->
          cap queue' = inject_Z (Qfloor c)) /\
       (Settings.cap settings = Some Infinity -> cap queue' = Infinity) /\
       ((forall c, Settings.cap settings = Some c -> ~ (0 < c)%num) ->
          cap queue' = 20%num) /\
       (forall p, Settings.dropPolicy settings = Some p ->
          dropPolicy queue' = p) /\
       (Settings.dropPolicy settings = None ->
          dropPolicy queue' = Summarize) /\
       drains w' !! key = Some (mkTask false AwaitDebounce) /\
       trace w' = trace w ++ [ObsStart key]).
Proof.
  intros Hrun.
  pose proof (wellFormed_run es _ _ wellFormed_empty Hrun) as Hwf.
  split_and!.
  - destruct (wellFormed_key w key Hwf)
      as [[Hq Ht]|(queue & task & Hq & Ht & Hd)]; rewrite Hq, Ht.
    + split; [by intros [? ?]|].
      intros [(queue & ? & _)|[? ?]]; done.
    + split; [intros _; right; by eexists | by eexists].
  - intros queue Hq.
    destruct (wellFormed_key w key Hwf)
      as [[Hq' _]|(queue' & task & Hq' & Ht & Hd)]; [congruence|].
    assert (queue' = queue) as -> by congruence.
    split; [done | by eexists].
  - intros queue force outcome Hq Ht Hi Hn.
    assert (He : backlogEmpty queue = true) by (by apply backlogEmpty_true).
    exists (removed key
              match outcome with
              | Resolved => w
              | Rejected err =>
                  mkWorld (queues w) (drains w)
                    (trace w ++ [ObsError (drainFailedMessage key err)])
              end).
    split.
    + cbn [step]. destruct outcome as [|err].
      * by rewrite (resumeAfterSend_resolved _ _ _ _ Ht Hq), He.
      * by rewrite (resumeAfterSend_rejected _ _ _ _ _ Ht Hq), He.
    + unfold removed. destruct outcome; cbn [queues drains];
        by rewrite !lookup_delete_eq.
  - intros queue force queue' Hq Ht Hc Hi Hn.
    assert (He : backlogEmpty queue' = true) by (by apply backlogEmpty_true).
    exists (removed key w). split.
    + cbn [step]. by rewrite (resumeAfterDebounce_spec _ _ _ _ Ht Hq), Hc, He.
    + unfold removed. cbn [queues drains]. by rewrite !lookup_delete_eq.
  - intros e w' Hstep [queue Hq] Hgone.
    destruct (step_analysis e w w' Hwf Hstep) as [Hframe (new & _ & Hk)].
    destruct (decide (key = eventKey e)) as [->|Hne].
    2:{ destruct (Hframe key Hne) as [Hsame _]. congruence. }
    rewrite Hq, Hgone in Hk. exists queue.
    inversion Hk; subst; try done.
    + match goal with H : backlogEmpty _ = true |- _ =>
        apply backlogEmpty_true in H as [Hi Hn] end.
      exists force. split; [done|]. right. exists queue'.
      cbn [eventKey]. by split_and!.
    + match goal with H : backlogEmpty _ = true |- _ =>
        apply backlogEmpty_true in H as [Hi Hn] end.
      exists force. split; [done|]. left. exists Resolved.
      cbn [eventKey]. by split_and!.
    + match goal with H : backlogEmpty _ = true |- _ =>
        apply backlogEmpty_true in H as [Hi Hn] end.
      exists force. split; [done|]. left. exists (Rejected err).
      cbn [eventKey]. by split_and!.
  - intros item settings sendFn now Hq.
    rewrite enqueueAnnounce_fresh by done. eexists _, _.
    split; [reflexivity|].
    unfold started. cbn [queues drains trace].
    split; [apply lookup_insert_eq|].
    destruct (createQueue_settings settings sendFn)
      as (Hm & Hs & Hd & Hd0 & Hc & Hci & Hc0 & Hp & Hp0).
    split_and!; try done. apply lookup_insert_eq.
Qed.

(** ** The sticky flag of a collect session (C2) *)



(** Whatever a step adds to the trace is about the key of its event. *)
Lemma KeyStep_obs_key (e : Event) (q0 q1 : option AnnounceQueueState)
    (t0 t1 : option DrainTask) (new : list Obs) :
  KeyStep e q0 t0 new q1 t1 ->
  Forall (fun o => match o with
                   | ObsStart k | ObsSend k _ _ _ => k = eventKey e
                   | ObsError _ => True
                   end) new.
Proof. intros Hk. destruct Hk; repeat constructor. Qed.







(** ** Further properties of the source *)

(** Idempotent trigger.  Whatever the world, after a call of
    [scheduleAnnounceDrain] a second call for the same key changes
    nothing: the first call has started a closure and set the flag, or
    it has removed an entry without backlog, or it found nothing to do.
    A call for a key whose queue is already draining, or that has no
    queue, changes nothing in the first place: no second closure, no
    observation. *)
Theorem scheduleAnnounceDrain_idempotent (key : str) (w w1 : World) :
  scheduleAnnounceDrain key w = Some w1 ->
  scheduleAnnounceDrain key w1 = Some w1 /\
  (forall queue, queues w !! key = Some queue -> draining queue = true ->
     w1 = w) /\
  (queues w !! key = None -> w1 = w).
Proof.
  unfold scheduleAnnounceDrain at 1. rewrite scheduleAnnounceDrain_fuel_spec.
  intros [= <-].
  destruct (queues w !! key) as [queue|] eqn:Hq.
  - destruct (draining queue) eqn:Hd.
    + split; [by eapply scheduleAnnounceDrain_busy|]. by split.
    + split; [|split; [intros q [= <-]; congruence|done]].
      destruct (backlogEmpty queue) eqn:He.
      * unfold scheduleAnnounceDrain.
        rewrite scheduleAnnounceDrain_fuel_spec.
        unfold removed. cbn [queues]. by rewrite lookup_delete_eq.
      * apply (scheduleAnnounceDrain_busy _ _ (set_draining true queue));
          [|done].
        unfold started. cbn [queues]. apply lookup_insert_eq.
  - split; [|by split].
    unfold scheduleAnnounceDrain. by rewrite scheduleAnnounceDrain_fuel_spec, Hq.
Qed.

Lemma Math_floor_below_one (c : number) :
  (0 < c)%num -> (c < 1)%num -> Math_floor c = 0%num.
Proof.
  destruct c as [x| | |]; try done.
  rewrite !numLt_Finite. intros H0 H1. cbn [Math_floor].
  assert (Hf : Qfloor x = 0%Z).
  { assert (Hlo : (0 <= Qfloor x)%Z).
    { rewrite <- (Qfloor_Z 0). apply Qfloor_resp_le. by apply Qlt_le_weak. }
    assert (Hhi : (Qfloor x < 1)%Z).
    { rewrite Zlt_Qlt. eapply Qle_lt_trans; [apply Qfloor_le|]. exact H1. }
    lia. }
  by rewrite Hf.
Qed.

(** A cap of zero.  A supplied cap strictly between 0 and 1 passes the
    test [settings.cap > 0] and is floored to 0, at creation and at a
    merge.  With cap 0 the guard [cap > 0] of [enqueueAnnounce] is false:
    the item is appended whatever the policy and however long the queue
    is, so nothing bounds the queue any more. *)
Theorem fractional_cap_lifts_the_bound
    (settings : Settings.t) (sendFn : Callback) (c : number) :
  Settings.cap settings = Some c -> (0 < c)%num -> (c < 1)%num ->
  cap (createQueue settings sendFn) = 0%num /\
  (forall existing, cap (mergeSettings existing settings sendFn) = 0%num) /\
  (forall item queue,
     cap queue = 0%num ->
     enqueueInto item queue =
     Some (set_items (items queue ++ [normalized item]) queue)).
Proof.
  intros Hc H0 H1.
  assert (Hpos : gtb c 0 = true) by (by apply gtb_true_iff).
  split; [|split].
  - cbn. rewrite Hc, Hpos. by apply Math_floor_below_one.
  - intros existing. cbn. rewrite Hc, Hpos. by apply Math_floor_below_one.
  - intros item queue Hz. unfold enqueueInto. by rewrite Hz.
Qed.

Lemma set_items_nil_id (queue : AnnounceQueueState) :
  items queue = [] -> set_items [] queue = queue.
Proof. destruct queue. cbn. by intros ->. Qed.

Lemma set_draining_true_id (queue : AnnounceQueueState) :
  draining queue = true -> set_draining true queue = queue.
Proof. destruct queue. cbn. by intros ->. Qed.

Lemma drainCycle_stuck (force : bool) (queue : AnnounceQueueState) :
  items queue = [] -> dropPolicy queue <> Summarize ->
  drainCycle force queue = CyBreak queue.
Proof.
  intros Hi Hp. unfold drainCycle, sendNext.
  rewrite (buildSummaryPrompt_other_policy queue) by done.
  rewrite (buildSummaryPrompt_other_policy (set_items [] queue)) by done.
  rewrite Hi. change (hasCrossChannelItems []) with false.
  rewrite set_items_nil_id by done.
  by destruct (bool_decide (mode queue = Collect)), force.
Qed.

(** Drops that cannot be flushed.  A queue without items whose dropped
    count is positive while its policy is no longer summarize: the
    summary builder returns nothing and resets nothing, the cycle leaves
    the loop by [break], and the [finally] block, finding drops pending,
    starts a new drain session.  However often the timer fires, the entry
    stays in the registry as it is and nothing is ever sent. *)
Theorem unflushed_drops_restart_forever
    (key : str) (queue : AnnounceQueueState) (n : nat) (force : bool)
    (R : Registry) (D : gmap str DrainTask) (T : list Obs) :
  items queue = [] -> 0 < droppedCount queue ->
  dropPolicy queue <> Summarize -> draining queue = true ->
  run (replicate (S n) (EvDebounce key))
      (mkWorld (<[key := queue]> R) (<[key := mkTask force AwaitDebounce]> D) T)
  = Some (mkWorld (<[key := queue]> R)
                  (<[key := mkTask false AwaitDebounce]> D)
                  (T ++ replicate (S n) (ObsStart key))).
Proof.
  intros Hi Hn Hp Hd. revert force T.
  assert (Hone : forall force T,
    step (EvDebounce key)
      (mkWorld (<[key := queue]> R) (<[key := mkTask force AwaitDebounce]> D) T)
    = Some (mkWorld (<[key := queue]> R)
                    (<[key := mkTask false AwaitDebounce]> D)
                    (T ++ [ObsStart key]))).
  { intros force T. rewrite step_debounce, drainCycle_stuck by done.
    assert (He : backlogEmpty queue = false).
    { apply not_true_iff_false. rewrite backlogEmpty_true. lia. }
    by rewrite He, set_draining_true_id. }
  induction n as [|n IH]; intros force T.
  - cbn [replicate]. erewrite run_cons; [|apply Hone]. done.
  - change (replicate (S (S n)) (EvDebounce key))
      with (EvDebounce key :: replicate (S n) (EvDebounce key)).
    erewrite run_cons; [|apply Hone]. rewrite IH.
    by rewrite <- app_assoc.
Qed.

(** ** The text helpers on their own *)

Lemma trimEnd_prefix (s : str) : trimEnd s `prefix_of` s.
Proof.
  induction s as [|c s IH]; simpl; [done|].
  destruct (trimEnd s) as [|e t] eqn:E.
  - destruct (isWhiteSpace c); [apply prefix_nil | apply prefix_cons, prefix_nil].
  - by apply prefix_cons.
Qed.

Lemma trimEnd_idem (s : str) : trimEnd (trimEnd s) = trimEnd s.
Proof.
  induction s as [|c s IH]; simpl; [done|].
  destruct (trimEnd s) as [|e t] eqn:E.
  - destruct (isWhiteSpace c) eqn:Hc; simpl; [done|by rewrite Hc].
  - change (trimEnd (c :: e :: t))
      with (match trimEnd (e :: t) with
            | [] => if isWhiteSpace c then [] else [c]
            | t' => c :: t'
            end).
    by rewrite IH.
Qed.

(** Shortening a text.  A text within the limit is returned as it is.  A
    longer one is cut: what is kept is a prefix of the text of at most
    [limit - 1] code units without whitespace at its end, closed by the
    ellipsis.  The result is never longer than the limit, except that
    for the limit 0 a non-empty text becomes the ellipsis alone. *)
Theorem elideText_shape (text : str) (limit : nat) :
  (length text <= limit -> elideText text limit = text) /\
  (limit < length text ->
     exists kept,
       elideText text limit = kept ++ ellipsis /\
       kept `prefix_of` text /\ length kept <= limit - 1 /\
       trimEnd kept = kept) /\
  length (elideText text limit) <= Nat.max 1 limit.
Proof.
  unfold elideText. split; [|split].
  - intros H. apply Nat.leb_le in H. by rewrite H.
  - intros H. apply Nat.leb_gt in H. rewrite H.
    exists (trimEnd (firstn (Nat.max 0 (limit - 1)) text)).
    split; [done|]. split; [|split].
    + etrans; [apply trimEnd_prefix|]. apply prefix_take.
    + etrans; [apply trimEnd_length|]. rewrite length_take. lia.
    + apply trimEnd_idem.
  - destruct (length text <=? limit) eqn:E.
    + apply Nat.leb_le in E. lia.
    + rewrite length_app. change (length ellipsis) with 1.
      pose proof (trimEnd_length (firstn (Nat.max 0 (limit - 1)) text)) as H.
      rewrite length_take in H. lia.
Qed.

(** ** The overflow notice is built once *)

(** A notice that [buildSummaryPrompt] returns is never the empty
    string, so the truthiness tests of the drain loop ([if (summary)],
    [if (summaryPrompt)]) never discard a notice whose counters have
    been reset.  Right after any call a second call returns nothing and
    changes nothing: the drops of one burst are reported once. *)
Theorem buildSummaryPrompt_flushes_once (queue : AnnounceQueueState) :
  buildSummaryPrompt (buildSummaryPrompt queue).2
  = (None, (buildSummaryPrompt queue).2) /\
  (forall text, (buildSummaryPrompt queue).1 = Some text ->
     truthy (Some text) = true /\
     startsWith (lit "[Queue overflow] Dropped ") text = true /\
     droppedCount (buildSummaryPrompt queue).2 = 0 /\
     summaryLines (buildSummaryPrompt queue).2 = [] /\
     items (buildSummaryPrompt queue).2 = items queue) /\
  ((buildSummaryPrompt queue).1 = None ->
     (buildSummaryPrompt queue).2 = queue).
Proof.
  destruct (decide (dropPolicy queue = Summarize)) as [Hp|Hp];
    [destruct (droppedCount queue) as [|n] eqn:Hn|].
  - rewrite !(buildSummaryPrompt_none queue Hn). cbn [fst snd].
    rewrite (buildSummaryPrompt_none queue Hn). done.
  - rewrite !(buildSummaryPrompt_some queue Hp) by lia. cbn [fst snd].
    split; [by apply buildSummaryPrompt_none|].
    split; [|done]. intros text [= <-].
    destruct (summaryLines queue); done.
  - rewrite !(buildSummaryPrompt_other_policy queue Hp). cbn [fst snd].
    rewrite (buildSummaryPrompt_other_policy queue Hp). done.
Qed.

(** ** The batch message lists every item *)

Lemma join_cons (sep p : str) (rest : list str) :
  join sep (p :: rest) =
  p ++ match rest with [] => [] | _ :: _ => sep ++ join sep rest end.
Proof. destruct rest; simpl; by rewrite ?app_nil_r. Qed.

Lemma includes_join (sep p : str) (parts : list str) :
  p ∈ parts -> includes p (join sep parts) = true.
Proof.
  intros Hp. apply list_elem_of_split in Hp as (l1 & l2 & ->).
  assert (H : exists pre post, join sep (l1 ++ p :: l2) = pre ++ p ++ post).
  { induction l1 as [|q l1 (pre & post & IH)].
    - exists []. eexists. cbn [app]. apply join_cons.
    - exists (q ++ sep ++ pre), post. cbn [app]. rewrite join_cons.
      destruct (l1 ++ p :: l2) eqn:E; [by destruct l1|].
      by rewrite IH, <- !app_assoc. }
  destruct H as (pre & post & ->). apply includes_app.
Qed.

Lemma startsWith_join (sep p : str) (rest : list str) :
  startsWith p (join sep (p :: rest)) = true.
Proof. rewrite join_cons. apply startsWith_app. Qed.

(** A decimal numeral has at least one digit and no whitespace. *)
Lemma String_of_nat_digits (n : nat) :
  exists ds d, String_of_nat n = ds ++ [d] /\ isWhiteSpace d = false.
Proof.
  unfold String_of_nat.
  assert (Hne : Nat.to_uint n <> Decimal.Nil).
  { intros H. pose proof (DecimalNat.Unsigned.of_to n) as Hn.
    rewrite H in Hn. cbn in Hn. subst n. discriminate. }
  assert (Hall : forall u,
    Forall (fun c => isWhiteSpace c = false) (lit (NilEmpty.string_of_uint u))).
  { induction u; cbn; by constructor. }
  specialize (Hall (Nat.to_uint n)).
  destruct (Nat.to_uint n) eqn:E; [done| ..];
    match goal with
    | |- exists ds d, ?l = _ /\ _ =>
        destruct (exists_last (l := l)) as (ds & d & Hl); [done|];
        exists ds, d; split; [exact Hl|];
        rewrite Hl in Hall; apply Forall_app in Hall as [_ Hall];
        by apply Forall_cons in Hall as [Hd _]
    end.
Qed.

(** The marker that opens the block of the item at position [idx]. *)
Lemma collectBlock_marker (idx : nat) (item : AnnounceQueueItem) :
  startsWith (lit "---" ++ newline ++ lit "Queued #" ++ String_of_nat (idx + 1))
             (collectBlock idx item) = true.
Proof.
  unfold collectBlock, trim.
  change (trimStart (lit "---" ++ ?rest)) with (lit "---" ++ rest).
  destruct (String_of_nat_digits (idx + 1)) as (ds & d & -> & Hd).
  set (marker := lit "---" ++ newline ++ lit "Queued #" ++ ds ++ [d]).
  replace (lit "---" ++ newline ++ lit "Queued #" ++ (ds ++ [d]) ++ newline
           ++ prompt item)
    with (marker ++ newline ++ prompt item)
    by (subst marker; by rewrite <- !app_assoc).
  assert (Hm : trimEnd marker = marker).
  { subst marker. rewrite !(app_assoc _ _ [d]). by apply trimEnd_snoc. }
  destruct (trimEnd (newline ++ prompt item)) as [|c t] eqn:E.
  - rewrite trimEnd_blank_app by done. rewrite Hm.
    pose proof (startsWith_app marker []) as H. by rewrite app_nil_r in H.
  - rewrite trimEnd_app by (by rewrite E). apply startsWith_app.
Qed.

(** Whatever the batch and the summary: the message opens with the
    header; the block of every item is in it, and that block opens with
    the marker that numbers the item by its position, counted from 1; a
    summary that is a non-empty string is in it, while an empty one is
    left out like a missing one.  For an empty batch without summary the
    message is the header alone. *)
Theorem buildCollectPrompt_lists_every_item
    (batch : list AnnounceQueueItem) (summary : option str) :
  startsWith collectHeader (buildCollectPrompt batch summary) = true /\
  (forall idx item, batch !! idx = Some item ->
     includes (collectBlock idx item) (buildCollectPrompt batch summary)
     = true /\
     startsWith (lit "---" ++ newline ++ lit "Queued #"
                 ++ String_of_nat (idx + 1))
                (collectBlock idx item) = true) /\
  (forall text, summary = Some text -> text <> [] ->
     includes text (buildCollectPrompt batch summary) = true) /\
  buildCollectPrompt batch (Some []) = buildCollectPrompt batch None /\
  buildCollectPrompt [] None = collectHeader.
Proof.
  split; [apply startsWith_join|].
  split; [|split; [|done]].
  - intros idx item Hi. split; [|apply collectBlock_marker].
    unfold buildCollectPrompt. apply includes_join.
    apply elem_of_app. right. apply elem_of_app. right.
    apply list_elem_of_lookup. exists idx.
    by rewrite list_lookup_imap, Hi.
  - intros text -> Hne. unfold buildCollectPrompt. apply includes_join.
    apply elem_of_app. right. apply elem_of_app. left.
    apply truthy_Some in Hne. rewrite Hne. by apply list_elem_of_singleton.
Qed.

(** ** The cross-channel verdict and the order of the items *)

Lemma crossChannel_subseteq (l1 l2 : list AnnounceQueueItem) :
  l1 ⊆ l2 ->
  hasCrossChannelItems l1 = true -> hasCrossChannelItems l2 = true.
Proof.
  intros Hsub. rewrite !hasCrossChannelItems_true_iff.
  intros [H|[H|H]].
  - left. destruct H as (a & b & ka & kb & Ha & Hb & H).
    exists a, b, ka, kb. split; [by apply Hsub|]. split; [by apply Hsub|done].
  - right; left. destruct H as (a & Ha & H). exists a.
    split; [by apply Hsub|done].
  - right; right. destruct H as [(a & Ha & Hoa) (b & Hb & Hob)].
    split; [exists a | exists b]; (split; [by apply Hsub|done]).
Qed.

(** The verdict of [hasCrossChannelItems] depends on which items are in
    the list, not on their order or number: more items never turn a
    cross-channel list into a single-channel one, and lists with the
    same items (permutations of one another, say) get the same verdict.
    Taking items away can clear the verdict: of two items with an origin
    and different keys, either one alone is single-channel. *)
Theorem hasCrossChannelItems_by_membership :
  (forall l1 l2 : list AnnounceQueueItem,
     l1 ⊆ l2 ->
     hasCrossChannelItems l1 = true -> hasCrossChannelItems l2 = true) /\
  (forall l1 l2 : list AnnounceQueueItem,
     l1 ≡ₚ l2 -> hasCrossChannelItems l1 = hasCrossChannelItems l2) /\
  (forall a b ka kb,
     origin a <> None -> origin b <> None ->
     originKey a = Some ka -> originKey b = Some kb ->
     ka <> [] -> kb <> [] -> ka <> kb ->
     hasCrossChannelItems [a; b] = true /\
     hasCrossChannelItems [a] = false /\
     hasCrossChannelItems [b] = false).
Proof.
  split; [apply crossChannel_subseteq|]. split.
  - intros l1 l2 Hp.
    destruct (hasCrossChannelItems l1) eqn:H1.
    + symmetry. eapply crossChannel_subseteq; [|exact H1].
      intros x. by rewrite Hp.
    + destruct (hasCrossChannelItems l2) eqn:H2; [|done].
      rewrite <- H1. eapply crossChannel_subseteq; [|exact H2].
      intros x. by rewrite Hp.
  - intros a b ka kb Hoa Hob Hka Hkb Hna Hnb Hne.
    split; [|split].
    + apply hasCrossChannelItems_true_iff. left.
      exists a, b, ka, kb. repeat split; try done; repeat constructor.
    + apply (hasCrossChannelItems_shared_key _ ka); [done|].
      intros x Hx. by apply list_elem_of_singleton in Hx as ->.
    + apply (hasCrossChannelItems_shared_key _ kb); [done|].
      intros x Hx. by apply list_elem_of_singleton in Hx as ->.
Qed.

(** ** Calling [getAnnounceQueue] again *)

Lemma mergeSettings_idem (existing : AnnounceQueueState)
    (settings : Settings.t) (sendFn : Callback) :
  mergeSettings (mergeSettings existing settings sendFn) settings sendFn
  = mergeSettings existing settings sendFn.
Proof.
  unfold mergeSettings. cbn.
  destruct (Settings.debounceMs settings), (Settings.cap settings) as [c|],
    (Settings.dropPolicy settings); try done;
    by destruct (gtb c 0).
Qed.

Lemma mergeSettings_createQueue (settings : Settings.t) (sendFn : Callback) :
  mergeSettings (createQueue settings sendFn) settings sendFn
  = createQueue settings sendFn.
Proof.
  unfold mergeSettings, createQueue. cbn.
  destruct (Settings.debounceMs settings), (Settings.cap settings) as [c|],
    (Settings.dropPolicy settings); try done;
    by destruct (gtb c 0).
Qed.

(** A second call of [getAnnounceQueue] with the same arguments returns
    the queue of the first call and leaves the registry as the first
    call left it, whether the first call created the entry or merged
    into one.  No call touches the entry of another key. *)
Theorem getAnnounceQueue_twice
    (reg : Registry) (key : str) (settings : Settings.t) (sendFn : Callback) :
  getAnnounceQueue (getAnnounceQueue reg key settings sendFn).2
                   key settings sendFn
  = getAnnounceQueue reg key settings sendFn /\
  (forall key', key' <> key ->
     (getAnnounceQueue reg key settings sendFn).2 !! key' = reg !! key').
Proof.
  unfold getAnnounceQueue.
  destruct (reg !! key) as [existing|] eqn:Hk; cbn [fst snd];
    rewrite lookup_insert_eq.
  - rewrite mergeSettings_idem, insert_insert_eq. split; [done|].
    intros key' Hne. by rewrite lookup_insert_ne.
  - rewrite mergeSettings_createQueue, insert_insert_eq. split; [done|].
    intros key' Hne. by rewrite lookup_insert_ne.
Qed.

(** ** The debounce wait *)

Lemma Math_max_0_le (d : number) :
  (d <= 0)%num -> leb (Math_max 0 d) 0 = true.
Proof.
  destruct d as [x| | |]; try done.
  intros H. unfold Math_max. destruct (geb x 0%num) eqn:E; [|done]. exact H.
Qed.

Lemma Math_max_0_pos (d : number) :
  (0 < d)%num -> Math_max 0 d = d /\ leb d 0 = false.
Proof.
  intros H. split.
  - by apply Math_max_0_cases, numLt_le.
  - apply not_true_iff_false. by apply numLt_not_le.
Qed.

(** [check] resolves exactly when the debounce has elapsed since the
    latest enqueue. *)
Lemma check_Resolve (debounceMs : number) (queue : AnnounceQueueState)
    (now : Q) :
  check debounceMs queue now = Resolve <->
  (lastEnqueuedAt queue + debounceMs <= now)%num.
Proof.
  unfold check.
  destruct (geb (now - lastEnqueuedAt queue)%Q debounceMs) eqn:E.
  - split; [intros _|done].
    destruct debounceMs as [d| | |]; try done.
    apply geb_Finite in E. apply numLe_Finite.
    apply (Qplus_le_l _ _ (- lastEnqueuedAt queue)).
    eapply Qle_trans; [|exact E]. ring_simplify. apply Qle_refl.
  - split; [done|]. intros H. exfalso.
    apply not_true_iff_false in E. apply E.
    destruct debounceMs as [d| | |]; try done.
    apply geb_Finite. apply numLe_Finite in H.
    apply (Qplus_le_l _ _ (lastEnqueuedAt queue)). ring_simplify.
    rewrite Qplus_comm. exact H.
Qed.

(** One call of [check].  It resolves the promise exactly when the
    debounce has elapsed since the latest enqueue.  Otherwise it arms a
    timer whose delay is the debounce of the wait less the time since
    the latest enqueue, and that time is short of the debounce unless
    the debounce is [NaN].  A finite debounce is reached by the clock:
    for every queue there is a time from which on every call of [check]
    resolves the promise as long as nothing more is enqueued.  A
    debounce of [NaN] or [Infinity] is never reached: no call of [check]
    resolves the promise, whatever the clock and the queue, so the wait
    never ends. *)
Theorem check_aims_at_the_quiet_period
    (debounceMs : number) (queue : AnnounceQueueState) (now : Q) :
  (check debounceMs queue now = Resolve <->
     (lastEnqueuedAt queue + debounceMs <= now)%num) /\
  (forall minuend since,
     check debounceMs queue now = SetTimeout minuend since ->
     minuend = debounceMs /\
     since = Finite (now - lastEnqueuedAt queue)%Q /\
     ((since < debounceMs)%num \/ debounceMs = NaN)) /\
  (forall d : Q, debounceMs = Finite d ->
     forall queue' later,
       lastEnqueuedAt queue' = lastEnqueuedAt queue ->
       (lastEnqueuedAt queue + d <= later)%Q ->
       check debounceMs queue' later = Resolve) /\
  (debounceMs = NaN \/ debounceMs = Infinity ->
     forall queue' later, check debounceMs queue' later <> Resolve).
Proof.
  split; [apply check_Resolve|]. split; [|split].
  - intros minuend since Hc. unfold check in Hc.
    destruct (geb (now - lastEnqueuedAt queue)%Q debounceMs) eqn:E; [done|].
    injection Hc as <- <-. split; [done|]. split; [done|].
    destruct debounceMs as [d| | |]; try done; [|by right|by left].
    left. apply numLt_Finite. apply Qnot_le_lt. intros H.
    apply geb_Finite in H. congruence.
  - intros d -> queue' later Hsame Hlater. apply check_Resolve.
    rewrite Hsame. by apply numLe_Finite.
  - intros Hd queue' later Hc. apply check_Resolve in Hc.
    by destruct Hd as [-> | ->].
Qed.

(** The call of [waitForQueueDebounce]: a stored debounce of zero or
    less gives a promise that is resolved at once, whatever the clock
    says; a positive one is the debounce of the whole wait, and the
    first [check] runs before the promise is returned. *)
Theorem waitForQueueDebounce_start (queue : AnnounceQueueState) (now : Q) :
  ((debounceMs queue <= 0)%num ->
     (waitForQueueDebounce queue now).2 = Resolve) /\
  ((0 < debounceMs queue)%num ->
     waitForQueueDebounce queue now
     = (debounceMs queue, check (debounceMs queue) queue now) /\
     ((waitForQueueDebounce queue now).2 = Resolve <->
        (lastEnqueuedAt queue + debounceMs queue <= now)%num)).
Proof.
  unfold waitForQueueDebounce. split.
  - intros H. by rewrite Math_max_0_le.
  - intros H. destruct (Math_max_0_pos _ H) as [-> ->].
    split; [done|]. cbn [snd]. apply check_Resolve.
Qed.

(** ** What enqueues and cycles leave alone *)

Lemma recordDropped_spec (dropped : list AnnounceQueueItem)
    (queue : AnnounceQueueState) :
  recordDropped dropped queue =
  set_drops (droppedCount queue + length dropped)
            (summaryLines queue ++ map buildQueueSummaryLine dropped) queue.
Proof.
  unfold recordDropped. revert queue.
  induction dropped as [|d dropped IH]; intros queue; cbn [fold_left].
  - destruct queue. cbn. by rewrite Nat.add_0_r, app_nil_r.
  - rewrite IH. unfold set_drops. cbn. f_equal; [lia|].
    by rewrite <- app_assoc.
Qed.

(** An enqueue changes the items, the dropped count and the summary
    lines of the queue object it works on, nothing else. *)
Lemma enqueueInto_settings (item : AnnounceQueueItem)
    (queue queue' : AnnounceQueueState) :
  enqueueInto item queue = Some queue' ->
  mode queue' = mode queue /\ debounceMs queue' = debounceMs queue /\
  cap queue' = cap queue /\ dropPolicy queue' = dropPolicy queue /\
  send queue' = send queue /\ draining queue' = draining queue /\
  lastEnqueuedAt queue' = lastEnqueuedAt queue.
Proof.
  unfold enqueueInto. destruct (_ && _).
  - destruct (bool_decide (dropPolicy queue = New)); [done|].
    destruct (splice0 _ _) as [dropped rest].
    destruct (bool_decide (dropPolicy queue = Summarize));
      intros [= <-]; rewrite ?recordDropped_spec; done.
  - by intros [= <-].
Qed.

(** A drain cycle takes items from the head of the queue and may reset
    the dropped count and the summary lines, nothing else. *)
Lemma drainCycle_queue (force : bool) (queue : AnnounceQueueState) :
  exists removed rest,
    items queue = removed ++ rest /\
    (cycleQueue (drainCycle force queue) = set_items rest queue \/
     cycleQueue (drainCycle force queue)
     = set_items rest (set_drops 0 [] queue)).
Proof.
  assert (Hnext : forall f g q,
    exists removed rest,
      items q = removed ++ rest /\
      cycleQueue (sendNext f g q) = set_items rest q).
  { intros f g q. unfold sendNext.
    destruct (items q) as [|next rest] eqn:Hi; cbn.
    - exists [], []. split; [done|]. destruct q; cbn in *. by subst.
    - by exists [next], rest. }
  unfold drainCycle. destruct (bool_decide (mode queue = Collect)).
  - destruct force;
      [destruct (Hnext true id queue) as (rm & rest & Hi & ->);
       exists rm, rest; split; [done|by left]|].
    destruct (hasCrossChannelItems (items queue));
      [destruct (Hnext true id queue) as (rm & rest & Hi & ->);
       exists rm, rest; split; [done|by left]|].
    destruct (buildSummaryPrompt (set_items [] queue)) as [summary q1] eqn:Hb.
    assert (Hq1 : q1 = (buildSummaryPrompt (set_items [] queue)).2)
      by (by rewrite Hb).
    assert (H : cycleQueue match last (items queue) with
                           | Some lastItem =>
                               CySend q1 false (items queue)
                                 (set_prompt
                                    (buildCollectPrompt (items queue) summary)
                                    lastItem)
                           | None => CyBreak q1
                           end = q1) by (by destruct (last (items queue))).
    rewrite H. exists (items queue), []. split; [by rewrite app_nil_r|].
    destruct (buildSummaryPrompt_queue (set_items [] queue)) as [H'|H'];
      rewrite H' in Hq1; subst q1; [by left|by right].
  - destruct (buildSummaryPrompt queue) as [summary q1] eqn:Hb.
    assert (Hq1 : q1 = (buildSummaryPrompt queue).2) by (by rewrite Hb).
    assert (H : exists f g,
      match summary with
      | Some text =>
          if truthy summary then sendNext force (set_prompt text) q1
          else sendNext force id q1
      | None => sendNext force id q1
      end = sendNext f g q1).
    { destruct summary as [text|]; [destruct (truthy (Some text))|];
        by eexists _, _. }
    destruct H as (f & g & ->).
    destruct (Hnext f g q1) as (rm & rest & Hi & ->).
    exists rm, rest.
    destruct (buildSummaryPrompt_queue queue) as [H'|H'];
      rewrite H' in Hq1; subst q1; (split; [done|]); [by left|by right].
Qed.

Lemma drainCycle_settings (force : bool) (queue : AnnounceQueueState) :
  mode (cycleQueue (drainCycle force queue)) = mode queue /\
  debounceMs (cycleQueue (drainCycle force queue)) = debounceMs queue /\
  cap (cycleQueue (drainCycle force queue)) = cap queue /\
  dropPolicy (cycleQueue (drainCycle force queue)) = dropPolicy queue /\
  send (cycleQueue (drainCycle force queue)) = send queue /\
  draining (cycleQueue (drainCycle force queue)) = draining queue /\
  lastEnqueuedAt (cycleQueue (drainCycle force queue))
    = lastEnqueuedAt queue /\
  (droppedCount (cycleQueue (drainCycle force queue)) = droppedCount queue /\
   summaryLines (cycleQueue (drainCycle force queue)) = summaryLines queue
   \/
   droppedCount (cycleQueue (drainCycle force queue)) = 0 /\
   summaryLines (cycleQueue (drainCycle force queue)) = []).
Proof.
  destruct (drainCycle_queue force queue) as (rm & rest & _ & [-> | ->]);
    cbn; split_and!; try done; [by left|by right].
Qed.

(** ** Invariants of the queues an execution can reach *)

Section QueueInvariant.

Variable Allowed : Event -> Prop.
Variable P : AnnounceQueueState -> Prop.

Hypothesis P_create : forall key item settings sendFn now,
  Allowed (EvEnqueue key item settings sendFn now) ->
  P (set_draining true
       (set_items [normalized item]
          (set_lastEnqueuedAt now (createQueue settings sendFn)))).

Hypothesis P_enqueue : forall key item settings sendFn now queue,
  Allowed (EvEnqueue key item settings sendFn now) ->
  draining queue = true -> P queue ->
  P match enqueueInto item
            (set_lastEnqueuedAt now (mergeSettings queue settings sendFn)) with
    | Some queue' => queue'
    | None => set_lastEnqueuedAt now (mergeSettings queue settings sendFn)
    end.

Hypothesis P_cycle : forall force queue,
  P queue -> P (set_draining true (cycleQueue (drainCycle force queue))).

Hypothesis P_draining : forall queue,
  P queue <-> P (set_draining true queue).

Lemma invariant_step (e : Event) (w w' : World) :
  wellFormed w -> Allowed e ->
  (forall key queue, queues w !! key = Some queue -> P queue) ->
  step e w = Some w' ->
  forall key queue, queues w' !! key = Some queue -> P queue.
Proof.
  intros Hwf Hal HP Hstep key.
  destruct (step_analysis e w w' Hwf Hstep) as [Hframe (new & _ & Hk)].
  destruct (decide (key = eventKey e)) as [->|Hne].
  2:{ destruct (Hframe key Hne) as [-> _]. apply HP. }
  pose proof (HP (eventKey e)) as HPk. revert HPk Hk.
  generalize (queues w !! eventKey e) (drains w !! eventKey e)
    (queues w' !! eventKey e) (drains w' !! eventKey e).
  intros q0 t0 q1 t1 HPk Hk.
  destruct Hk; intros q' Hq'; try done; try (by apply HPk);
    injection Hq' as <-.
  - by apply (P_create key).
  - apply (P_enqueue key); [done|done|by apply HPk].
  - match goal with H : drainCycle _ _ = _ |- _ =>
      pose proof (P_cycle force queue (HPk _ eq_refl)) as Hc;
      rewrite H in Hc end.
    by apply (proj2 (P_draining queue')).
  - match goal with H : drainCycle _ _ = _ |- _ =>
      pose proof (P_cycle force queue (HPk _ eq_refl)) as Hc;
      rewrite H in Hc end.
    done.
  - apply (proj1 (P_draining queue)). by apply HPk.
Qed.

Lemma invariant_run (es : list Event) (w w' : World) :
  wellFormed w -> Forall Allowed es ->
  (forall key queue, queues w !! key = Some queue -> P queue) ->
  run es w = Some w' ->
  forall key queue, queues w' !! key = Some queue -> P queue.
Proof.
  revert w. induction es as [|e es IH]; intros w Hwf Hal HP Hrun;
    cbn [run] in Hrun.
  - by injection Hrun as <-.
  - destruct (step e w) as [w1|] eqn:Hs; [|done]. cbn in Hrun.
    apply Forall_cons in Hal as [He Hal].
    eapply (IH w1); [by eapply wellFormed_step|done| |done].
    by eapply invariant_step.
Qed.

Lemma invariant_reachable (es : list Event) (w : World) :
  Forall Allowed es -> run es emptyWorld = Some w ->
  forall key queue, queues w !! key = Some queue -> P queue.
Proof.
  intros Hal Hrun. eapply (invariant_run es emptyWorld); try done.
Qed.

End QueueInvariant.

(** *** The stored settings *)

Lemma Math_floor_positive (c : number) :
  (0 < c)%num -> saneCap (Math_floor c).
Proof.
  destruct c as [x| | |]; try done; [|by right].
  intros Hc. left. exists (Qfloor x). split; [|done].
  rewrite <- (Qfloor_Z 0). apply Qfloor_resp_le.
  by apply Qlt_le_weak, numLt_Finite.
Qed.

Lemma Math_max_0_sane (d : number) : saneDebounce (Math_max 0 d).
Proof.
  destruct d as [x| | |]; [left|by right|by left|by left].
  by apply Math_max_nonneg.
Qed.

Lemma Math_max_0_finite (x : Q) :
  exists y : Q, Math_max 0 x = Finite y /\ (0 <= y)%Q.
Proof.
  unfold Math_max. destruct (geb x 0%num) eqn:E.
  - exists x. split; [done|]. by apply geb_Finite in E.
  - by exists 0%Q.
Qed.

Lemma wholeNumber_20 : wholeNumber 20%num.
Proof. by exists 20%Z. Qed.

Lemma createQueue_sane (settings : Settings.t) (sendFn : Callback) :
  saneDebounce (debounceMs (createQueue settings sendFn)) /\
  saneCap (cap (createQueue settings sendFn)).
Proof.
  cbn. split.
  - destruct (Settings.debounceMs settings);
      [apply Math_max_0_sane|by left].
  - destruct (Settings.cap settings) as [c|];
      [|left; apply wholeNumber_20].
    destruct (gtb c 0) eqn:E; [|left; apply wholeNumber_20].
    by apply Math_floor_positive.
Qed.

Lemma mergeSettings_sane (existing : AnnounceQueueState)
    (settings : Settings.t) (sendFn : Callback) :
  saneDebounce (debounceMs existing) ->
  saneCap (cap existing) ->
  saneDebounce (debounceMs (mergeSettings existing settings sendFn)) /\
  saneCap (cap (mergeSettings existing settings sendFn)).
Proof.
  intros Hd Hc. cbn. split.
  - destruct (Settings.debounceMs settings); [apply Math_max_0_sane|done].
  - destruct (Settings.cap settings) as [c|]; [|done].
    destruct (gtb c 0) eqn:E; [|done].
    by apply Math_floor_positive.
Qed.

Lemma settings_sane_reachable (es : list Event) (w : World) (key : str)
    (queue : AnnounceQueueState) :
  run es emptyWorld = Some w -> queues w !! key = Some queue ->
  saneDebounce (debounceMs queue) /\ saneCap (cap queue).
Proof.
  intros Hrun.
  apply (invariant_reachable (fun _ => True)
           (fun q => saneDebounce (debounceMs q) /\ saneCap (cap q))
           ) with (es := es) (w := w); try done.
  - intros _ item settings sendFn now _. apply createQueue_sane.
  - intros _ item settings sendFn now q _ _ [Hd Hc].
    pose proof (mergeSettings_sane q settings sendFn Hd Hc) as Hm.
    destruct (enqueueInto item _) as [q'|] eqn:He; [|done].
    apply enqueueInto_settings in He as (_ & -> & -> & _). done.
  - intros force q [Hd Hc].
    destruct (drainCycle_settings force q) as (_ & Hd' & Hc' & _).
    cbn. by rewrite Hd', Hc'.
  - by apply Forall_true.
Qed.

Lemma createQueue_finite (settings : Settings.t) (sendFn : Callback) :
  (forall d, Settings.debounceMs settings = Some d ->
     exists x : Q, d = Finite x) ->
  (forall c, Settings.cap settings = Some c -> exists x : Q, c = Finite x) ->
  finiteStored (createQueue settings sendFn).
Proof.
  intros Hd Hc. unfold finiteStored. cbn. split.
  - destruct (Settings.debounceMs settings) as [d|]; [|by exists 1000%Q].
    destruct (Hd d eq_refl) as [x ->]. apply Math_max_0_finite.
  - destruct (Settings.cap settings) as [c|]; [|apply wholeNumber_20].
    destruct (Hc c eq_refl) as [x ->].
    destruct (gtb x 0) eqn:E; [|apply wholeNumber_20].
    by destruct (Math_floor_positive x E).
Qed.

Lemma mergeSettings_finite (existing : AnnounceQueueState)
    (settings : Settings.t) (sendFn : Callback) :
  (forall d, Settings.debounceMs settings = Some d ->
     exists x : Q, d = Finite x) ->
  (forall c, Settings.cap settings = Some c -> exists x : Q, c = Finite x) ->
  finiteStored existing ->
  finiteStored (mergeSettings existing settings sendFn).
Proof.
  intros Hd Hc [Hed Hec]. unfold finiteStored. cbn. split.
  - destruct (Settings.debounceMs settings) as [d|]; [|done].
    destruct (Hd d eq_refl) as [x ->]. apply Math_max_0_finite.
  - destruct (Settings.cap settings) as [c|]; [|done].
    destruct (Hc c eq_refl) as [x ->].
    destruct (gtb x 0) eqn:E; [|done].
    by destruct (Math_floor_positive x E).
Qed.

Lemma settings_finite_reachable (es : list Event) (w : World) (key : str)
    (queue : AnnounceQueueState) :
  Forall finiteSettings es ->
  run es emptyWorld = Some w -> queues w !! key = Some queue ->
  finiteStored queue.
Proof.
  intros Hfin Hrun.
  apply (invariant_reachable finiteSettings finiteStored)
    with (es := es) (w := w); try done.
  - intros _ item settings sendFn now [Hd Hc]. by apply createQueue_finite.
  - intros _ item settings sendFn now q [Hd Hc] _ Hq.
    pose proof (mergeSettings_finite q settings sendFn Hd Hc Hq) as Hm.
    destruct (enqueueInto item _) as [q'|] eqn:He; [|done].
    apply enqueueInto_settings in He as (_ & Hd' & Hc' & _).
    unfold finiteStored. by rewrite Hd', Hc'.
  - intros force q Hq.
    destruct (drainCycle_settings force q) as (_ & Hd' & Hc' & _).
    unfold finiteStored. cbn. by rewrite Hd', Hc'.
Qed.

(** In every queue an execution can reach, the stored debounce is a
    number that is at least 0 ([Infinity] is possible) or it is [NaN],
    and the stored cap is a whole number that is not negative (zero is
    possible) or it is [Infinity].  The clamp
    [Math.max(0, queue.debounceMs)] of [waitForQueueDebounce] never
    changes anything: the debounce of a wait is the stored one.  When
    every number that the enqueues supplied is finite, the stored
    debounce is a finite number that is at least 0 and the stored cap is
    a whole number. *)
Theorem stored_settings_are_sane (es : list Event) (w : World) (key : str)
    (queue : AnnounceQueueState) :
  run es emptyWorld = Some w -> queues w !! key = Some queue ->
  ((0 <= debounceMs queue)%num \/ debounceMs queue = NaN) /\
  (wholeNumber (cap queue) \/ cap queue = Infinity) /\
  (forall now, (waitForQueueDebounce queue now).1 = debounceMs queue) /\
  (Forall finiteSettings es ->
     (exists d : Q, debounceMs queue = Finite d /\ (0 <= d)%Q) /\
     wholeNumber (cap queue)).
Proof.
  intros Hrun Hq.
  destruct (settings_sane_reachable es w key queue Hrun Hq) as [Hd Hc].
  split; [done|]. split; [done|]. split.
  - intros now. unfold waitForQueueDebounce.
    assert (Hm : Math_max 0 (debounceMs queue) = debounceMs queue).
    { destruct Hd as [Hd | ->]; [|done]. by apply Math_max_0_cases. }
    rewrite Hm. by destruct (leb (debounceMs queue) 0).
  - intros Hfin. by apply (settings_finite_reachable es w key).
Qed.

(** *** The summary lines *)

Lemma shiftWhileOver_suffix (cap : number) (lines : list str) :
  shiftWhileOver cap lines `suffix_of` lines.
Proof.
  induction lines as [|l lines IH]; [done|].
  cbn [shiftWhileOver].
  destruct (gtb (of_nat (length (l :: lines))) cap); [|done].
  by apply suffix_cons_r.
Qed.

(** What an accepted enqueue does to the dropped count and the summary
    lines: nothing, or it counts the evicted items and appends their
    summary lines, of which it may then forget the oldest. *)
Lemma enqueueInto_drops (item : AnnounceQueueItem)
    (queue queue' : AnnounceQueueState) :
  enqueueInto item queue = Some queue' ->
  (droppedCount queue' = droppedCount queue /\
   summaryLines queue' = summaryLines queue) \/
  exists dropped,
    droppedCount queue' = droppedCount queue + length dropped /\
    summaryLines queue' `suffix_of`
      (summaryLines queue ++ map buildQueueSummaryLine dropped).
Proof.
  unfold enqueueInto. destruct (_ && _).
  - destruct (bool_decide (dropPolicy queue = New)); [done|].
    destruct (splice0 _ _) as [dropped rest].
    destruct (bool_decide (dropPolicy queue = Summarize));
      intros [= <-]; [|by left].
    right. exists dropped. rewrite recordDropped_spec. cbn.
    split; [done|]. apply shiftWhileOver_suffix.
  - intros [= <-]. by left.
Qed.

Lemma summary_invariant_reachable (es : list Event) (w : World) (key : str)
    (queue : AnnounceQueueState) :
  run es emptyWorld = Some w -> queues w !! key = Some queue ->
  length (summaryLines queue) <= droppedCount queue /\
  Forall (fun line => exists item, line = buildQueueSummaryLine item)
         (summaryLines queue).
Proof.
  intros Hrun.
  apply (invariant_reachable (fun _ => True)
           (fun q => length (summaryLines q) <= droppedCount q /\
                     Forall (fun line =>
                               exists item, line = buildQueueSummaryLine item)
                            (summaryLines q)))
    with (es := es) (w := w); try done.
  - intros _ item settings sendFn now q _ _ [Hl Hf].
    destruct (enqueueInto item _) as [q'|] eqn:He; [|done].
    apply enqueueInto_drops in He as [[-> ->]|(dropped & -> & Hs)]; [done|].
    cbn [droppedCount summaryLines mergeSettings set_lastEnqueuedAt] in Hs |- *.
    split.
    + apply suffix_length in Hs. rewrite length_app, length_map in Hs. lia.
    + destruct Hs as [k Hs].
      assert (Hall : Forall (fun line =>
                 exists item, line = buildQueueSummaryLine item)
               (summaryLines q ++ map buildQueueSummaryLine dropped)).
      { apply Forall_app. split; [done|].
        apply Forall_forall. intros line Hin.
        apply list_elem_of_fmap in Hin as (d & -> & _). by exists d. }
      rewrite Hs in Hall. by apply Forall_app in Hall as [_ ?].
  - intros force q [Hl Hf].
    destruct (drainCycle_settings force q)
      as (_ & _ & _ & _ & _ & _ & _ & [[Hn Hs]|[Hn Hs]]);
      cbn; rewrite Hn, Hs; [done|]. split; [cbn; lia|constructor].
  - by apply Forall_true.
Qed.

(** In every queue an execution can reach, there are never more summary
    lines than counted drops (so a queue without counted drops has
    none), and every stored line came out of [buildQueueSummaryLine]: it
    has at most 160 code units and no whitespace but single spaces, line
    breaks in particular, so that each bullet of an overflow notice is
    one line. *)
Theorem summary_lines_are_counted_and_short (es : list Event) (w : World)
    (key : str) (queue : AnnounceQueueState) :
  run es emptyWorld = Some w -> queues w !! key = Some queue ->
  length (summaryLines queue) <= droppedCount queue /\
  (droppedCount queue = 0 -> summaryLines queue = []) /\
  Forall (fun line =>
            length line <= 160 /\
            forall c, c ∈ line -> isWhiteSpace c = true -> c = 32%N)
         (summaryLines queue).
Proof.
  intros Hrun Hq.
  destruct (summary_invariant_reachable es w key queue Hrun Hq) as [Hl Hf].
  split; [done|]. split.
  - intros Hz. rewrite Hz in Hl.
    destruct (summaryLines queue); [done|cbn in Hl; lia].
  - eapply Forall_impl; [exact Hf|]. intros line [item ->].
    destruct (buildQueueSummaryLine_shape item) as (H1 & H2 & _). done.
Qed.

(** ** Enqueue against a whole-number cap *)

Lemma Qle_bool_inject_Z (x y : Z) :
  Qle_bool (inject_Z x) (inject_Z y) = (x <=? y)%Z.
Proof. unfold Qle_bool. cbn. by rewrite !Z.mul_1_r. Qed.

Lemma gtb_of_nat (a b : nat) : gtb (of_nat a) (of_nat b) = (b <? a).
Proof.
  unfold of_nat. cbn [gtb]. rewrite Qle_bool_inject_Z.
  destruct (Z.leb_spec (Z.of_nat a) (Z.of_nat b)), (Nat.ltb_spec b a);
    cbn; try done; lia.
Qed.

Lemma geb_of_nat (a b : nat) : geb (of_nat a) (of_nat b) = (b <=? a).
Proof.
  unfold of_nat. cbn [geb]. rewrite Qle_bool_inject_Z.
  destruct (Z.leb_spec (Z.of_nat b) (Z.of_nat a)), (Nat.leb_spec b a);
    cbn; try done; lia.
Qed.

Lemma gtb_of_nat_0 (c : nat) : gtb (of_nat c) 0 = (0 <? c).
Proof. apply (gtb_of_nat c 0). Qed.

Lemma ToInteger_whole (x : Q) (z : Z) :
  (0 <= z)%Z -> x == inject_Z z -> ToInteger x = z.
Proof.
  intros Hz Hx. unfold ToInteger.
  assert (H0 : Qle_bool 0 x = true).
  { apply Qle_bool_iff. rewrite Hx. change 0%Q with (inject_Z 0).
    by rewrite <- Zle_Qle. }
  rewrite H0, (Qfloor_comp _ _ Hx). apply Qfloor_Z.
Qed.

(** [queue.items.length - cap + 1] for a cap that has been reached, and
    what [splice] removes then. *)
Lemma dropCount_whole {A} (n c : nat) (arr : list A) :
  c <= n ->
  splice0 (of_nat n - of_nat c + 1)%num arr
  = (firstn (n - c + 1) arr, skipn (n - c + 1) arr).
Proof.
  intros Hle. unfold splice0, of_nat. cbn [sub add neg].
  rewrite (ToInteger_whole _ (Z.of_nat (n - c + 1))); [|lia|].
  - by rewrite Nat2Z.id.
  - replace (Z.of_nat (n - c + 1)) with (Z.of_nat n + - Z.of_nat c + 1)%Z
      by lia.
    rewrite !inject_Z_plus, inject_Z_opp. reflexivity.
Qed.

Lemma shiftWhileOver_of_nat (c : nat) (lines : list str) :
  shiftWhileOver (of_nat c) lines = skipn (length lines - c) lines.
Proof.
  induction lines as [|l lines IH]; [done|].
  cbn [shiftWhileOver]. rewrite gtb_of_nat.
  destruct (Nat.ltb_spec c (length (l :: lines))) as [H|H]; cbn [length] in *.
  - rewrite IH. replace (S (length lines) - c) with (S (length lines - c))
      by lia. done.
  - by replace (S (length lines) - c) with 0 by lia.
Qed.

(** An enqueue into a queue that has reached its cap, under a policy
    that evicts. *)
Lemma enqueueInto_over (item : AnnounceQueueItem)
    (queue : AnnounceQueueState) (c : nat) :
  cap queue = of_nat c -> 0 < c -> c <= length (items queue) ->
  dropPolicy queue <> New ->
  enqueueInto item queue =
  Some (let k := length (items queue) - c + 1 in
        let evicted :=
          set_items (skipn k (items queue) ++ [normalized item]) queue in
        if bool_decide (dropPolicy queue = Summarize)
        then set_drops (droppedCount queue + k)
               (skipn (length (summaryLines queue) + k - c)
                  (summaryLines queue
                   ++ map buildQueueSummaryLine (firstn k (items queue))))
               evicted
        else evicted).
Proof.
  intros Hc Hpos Hfull Hpol. unfold enqueueInto. rewrite Hc.
  rewrite gtb_of_nat_0, geb_of_nat.
  rewrite (proj2 (Nat.ltb_lt _ _) Hpos), (proj2 (Nat.leb_le _ _) Hfull).
  cbn [andb]. rewrite bool_decide_eq_false_2 by done.
  rewrite dropCount_whole by done.
  cbv zeta.
  destruct (bool_decide (dropPolicy queue = Summarize)); [|done].
  rewrite recordDropped_spec. cbn. rewrite shiftWhileOver_of_nat.
  rewrite length_app, length_map, length_take.
  rewrite (Nat.min_l (length (items queue) - c + 1)) by lia.
  done.
Qed.

(** An enqueue into a queue that has not reached its cap, or has the
    cap 0. *)
Lemma enqueueInto_under (item : AnnounceQueueItem)
    (queue : AnnounceQueueState) (c : nat) :
  cap queue = of_nat c -> c = 0 \/ length (items queue) < c ->
  enqueueInto item queue =
  Some (set_items (items queue ++ [normalized item]) queue).
Proof.
  intros Hc Hroom. unfold enqueueInto. rewrite Hc.
  rewrite gtb_of_nat_0, geb_of_nat.
  assert (H : (0 <? c) && (c <=? length (items queue)) = false).
  { destruct (Nat.ltb_spec 0 c), (Nat.leb_spec c (length (items queue)));
      cbn; try done; lia. }
  by rewrite H.
Qed.

(** An enqueue into a queue whose cap is [Infinity]: the cap is never
    reached. *)
Lemma enqueueInto_unbounded (item : AnnounceQueueItem)
    (queue : AnnounceQueueState) :
  cap queue = Infinity ->
  enqueueInto item queue =
  Some (set_items (items queue ++ [normalized item]) queue).
Proof. intros Hc. unfold enqueueInto. by rewrite Hc. Qed.

Lemma wholeNumber_of_nat (x : number) :
  wholeNumber x <-> exists c : nat, x = of_nat c.
Proof.
  split.
  - intros (z & Hz & ->). exists (Z.to_nat z). unfold of_nat.
    by rewrite Z2Nat.id.
  - intros [c ->]. exists (Z.of_nat c). split; [lia|done].
Qed.

Lemma sane_cap_of_nat (queue : AnnounceQueueState) :
  saneCap (cap queue) ->
  (exists c : nat, cap queue = of_nat c) \/ cap queue = Infinity.
Proof. intros [H|H]; [left|by right]. by apply wholeNumber_of_nat. Qed.

(** The overflow step in general.  In a world an execution can reach,
    an enqueue that finds the (merged) whole-number cap [c >= 1] reached
    and a policy other than reject-new is accepted; it evicts the
    [k = length - c + 1] oldest items, more than one when the cap has
    been lowered, and leaves the [c - 1] newest of the old items in
    order, followed by the new item: exactly [c] items.  Under summarize
    the dropped count goes up by [k], and the summary lines of the
    evicted items are appended in order, after which only the newest [c]
    lines are kept; under evict-oldest the evicted items leave no record.
    The closure and the trace are not touched. *)
Theorem overflow_keeps_the_newest
    (es0 : list Event) (w : World) (key : str) (item : AnnounceQueueItem)
    (settings : Settings.t) (sendFn : Callback) (now : Q)
    (existing : AnnounceQueueState) (c : nat) :
  run es0 emptyWorld = Some w ->
  queues w !! key = Some existing ->
  cap (mergeSettings existing settings sendFn) = of_nat c ->
  0 < c -> c <= length (items existing) ->
  dropPolicy (mergeSettings existing settings sendFn) <> New ->
  let k := length (items existing) - c + 1 in
  exists w' queue',
    enqueueAnnounce key item settings sendFn now w = Some (true, w') /\
    queues w' !! key = Some queue' /\
    items queue' = skipn k (items existing) ++ [normalized item] /\
    length (items queue') = c /\
    (dropPolicy (mergeSettings existing settings sendFn) = Summarize ->
       droppedCount queue' = droppedCount existing + k /\
       summaryLines queue' =
         skipn (length (summaryLines existing) + k - c)
           (summaryLines existing
            ++ map buildQueueSummaryLine (firstn k (items existing)))) /\
    (dropPolicy (mergeSettings existing settings sendFn) = Old ->
       droppedCount queue' = droppedCount existing /\
       summaryLines queue' = summaryLines existing) /\
    drains w' = drains w /\ trace w' = trace w.
Proof.
  intros Hrun Hq Hc Hpos Hfull Hpol k.
  pose proof (wellFormed_run es0 _ _ wellFormed_empty Hrun) as Hwf.
  destruct (wellFormed_key w key Hwf)
    as [[Hq' _]|(queue & task & Hq' & _ & Hd)]; [congruence|].
  assert (queue = existing) as -> by congruence.
  rewrite (enqueueAnnounce_existing _ _ _ _ _ _ _ Hq Hd). cbv zeta.
  rewrite (enqueueInto_over item _ c); try done. cbv zeta.
  fold k. eexists _, _. split; [reflexivity|].
  cbn [queues drains trace]. split; [apply lookup_insert_eq|].
  set (merged := mergeSettings existing settings sendFn) in *.
  change (dropPolicy (set_lastEnqueuedAt now merged))
    with (dropPolicy merged).
  assert (Hlen : length (skipn k (items existing) ++ [normalized item]) = c).
  { rewrite length_app, length_drop. cbn. subst k. lia. }
  destruct (bool_decide (dropPolicy merged = Summarize)) eqn:Hs.
  - apply bool_decide_eq_true in Hs. cbn.
    split; [done|]. split; [exact Hlen|]. split; [done|].
    split; [|done]. intros Ho. change (dropPolicy merged = Old) in Ho.
    congruence.
  - apply bool_decide_eq_false in Hs. cbn.
    split; [done|]. split; [exact Hlen|]. split; [|done].
    intros Hx. change (dropPolicy merged = Summarize) in Hx. done.
Qed.

(** *** The cap as a bound *)

Lemma cap_respected_after_enqueue (item : AnnounceQueueItem)
    (queue queue' : AnnounceQueueState) (c : nat) :
  cap queue = of_nat c ->
  enqueueInto item queue = Some queue' ->
  0 < c -> length (items queue') <= c.
Proof.
  intros Hc He Hpos.
  destruct (Nat.le_gt_cases c (length (items queue))) as [Hfull|Hroom].
  - destruct (decide (dropPolicy queue = New)) as [Hn|Hn].
    { unfold enqueueInto in He. rewrite Hc, gtb_of_nat_0, geb_of_nat in He.
      rewrite (proj2 (Nat.ltb_lt _ _) Hpos),
        (proj2 (Nat.leb_le _ _) Hfull) in He. cbn [andb] in He.
      by rewrite bool_decide_eq_true_2 in He. }
    rewrite (enqueueInto_over item queue c) in He by done.
    injection He as <-. cbv zeta.
    destruct (bool_decide (dropPolicy queue = Summarize)); cbn;
      rewrite length_app, length_drop; cbn; lia.
  - rewrite (enqueueInto_under item queue c) in He by (done || by right).
    injection He as <-. cbn. rewrite length_app. cbn. lia.
Qed.

Lemma of_nat_le (a b : nat) : (of_nat a <= of_nat b)%num <-> a <= b.
Proof. unfold of_nat. rewrite numLe_inject_Z. lia. Qed.

Lemma of_nat_pos (c : nat) : (0 < of_nat c)%num <-> 0 < c.
Proof. unfold of_nat. rewrite (numLt_inject_Z 0). lia. Qed.

(** Every accepted enqueue respects the cap.  In a world an execution
    can reach, whenever [enqueueAnnounce] returns [true] and the cap of
    the queue is positive afterwards, the queue holds at most that many
    items afterwards, whatever the policy and even when this very call
    has lowered the cap below the length of the queue. *)
Theorem accepted_enqueue_respects_cap
    (es0 : list Event) (w w' : World) (key : str) (item : AnnounceQueueItem)
    (settings : Settings.t) (sendFn : Callback) (now : Q)
    (queue' : AnnounceQueueState) :
  run es0 emptyWorld = Some w ->
  enqueueAnnounce key item settings sendFn now w = Some (true, w') ->
  queues w' !! key = Some queue' ->
  (0 < cap queue')%num ->
  (of_nat (length (items queue')) <= cap queue')%num.
Proof.
  intros Hrun He Hq' Hpos.
  pose proof (wellFormed_run es0 _ _ wellFormed_empty Hrun) as Hwf.
  destruct (wellFormed_key w key Hwf)
    as [[Hq _]|(queue & task & Hq & _ & Hd)].
  - rewrite enqueueAnnounce_fresh in He by done. injection He as <-.
    unfold started in Hq'. cbn [queues] in Hq'.
    rewrite lookup_insert_eq in Hq'. injection Hq' as <-.
    cbn [items set_draining set_items length] in *.
    change (cap (set_draining true _)) with (cap (createQueue settings sendFn))
      in *.
    destruct (sane_cap_of_nat (createQueue settings sendFn)) as [[c Hc]|Hc];
      [apply createQueue_sane| |by rewrite Hc].
    rewrite Hc in *. apply of_nat_pos in Hpos. apply of_nat_le. lia.
  - rewrite (enqueueAnnounce_existing _ _ _ _ _ _ _ Hq Hd) in He.
    cbv zeta in He.
    destruct (enqueueInto item _) as [q1|] eqn:Hi; [|done].
    injection He as <-. cbn [queues] in Hq'.
    rewrite lookup_insert_eq in Hq'. injection Hq' as <-.
    destruct (settings_sane_reachable es0 w key queue Hrun Hq) as [Hsd Hsc].
    pose proof (enqueueInto_settings _ _ _ Hi) as (_ & _ & Hcap & _).
    cbn [cap set_lastEnqueuedAt] in Hcap.
    destruct (sane_cap_of_nat (mergeSettings queue settings sendFn))
      as [[c Hc]|Hc]; [by apply mergeSettings_sane| |by rewrite Hcap, Hc].
    rewrite Hcap, Hc in *. apply of_nat_pos in Hpos. apply of_nat_le.
    eapply cap_respected_after_enqueue; [|exact Hi|done]. exact Hc.
Qed.

Lemma createQueue_cap_whole (settings : Settings.t) (sendFn : Callback) :
  (exists c : nat, cap (createQueue settings sendFn) = of_nat c)
  \/ cap (createQueue settings sendFn) = Infinity.
Proof. apply sane_cap_of_nat, createQueue_sane. Qed.

Lemma mergeSettings_cap_whole (existing : AnnounceQueueState)
    (settings : Settings.t) (sendFn : Callback) :
  saneCap (cap existing) ->
  (exists c : nat, cap (mergeSettings existing settings sendFn) = of_nat c)
  \/ cap (mergeSettings existing settings sendFn) = Infinity.
Proof.
  intros Hc0. apply sane_cap_of_nat. cbn.
  destruct (Settings.cap settings) as [c|]; [|done].
  destruct (gtb c 0) eqn:E; [|done].
  by apply Math_floor_positive.
Qed.

Lemma enqueueInto_None (item : AnnounceQueueItem) (queue : AnnounceQueueState) :
  enqueueInto item queue = None -> dropPolicy queue = New.
Proof.
  unfold enqueueInto. destruct (_ && _); [|done].
  destruct (bool_decide (dropPolicy queue = New)) eqn:E.
  - intros _. by apply bool_decide_eq_true in E.
  - destruct (splice0 _ _) as [dropped rest].
    by destruct (bool_decide (dropPolicy queue = Summarize)).
Qed.

(** The cap as an invariant.  In an execution in which no enqueue asks
    for the reject-new policy, every queue with a positive cap holds at
    most that many items at every moment.  (A rejected enqueue is what
    can leave a queue longer than a cap it has just lowered.) *)
Theorem cap_bounds_the_queue_without_reject_policy
    (es : list Event) (w : World) (key : str) (queue : AnnounceQueueState) :
  Forall neverRejects es ->
  run es emptyWorld = Some w -> queues w !! key = Some queue ->
  (0 < cap queue)%num ->
  (of_nat (length (items queue)) <= cap queue)%num.
Proof.
  intros Hal Hrun Hq Hpos.
  assert (HP : dropPolicy queue <> New /\
               ((exists c : nat, cap queue = of_nat c /\
                                 (0 < c -> length (items queue) <= c))
                \/ cap queue = Infinity)).
  { revert Hq.
    apply (invariant_reachable neverRejects
             (fun q => dropPolicy q <> New /\
                       ((exists c : nat, cap q = of_nat c /\
                                         (0 < c -> length (items q) <= c))
                        \/ cap q = Infinity)))
      with (es := es) (w := w); try done.
    - intros k0 item settings sendFn now Hs. split.
      + cbn. cbn in Hs. destruct (Settings.dropPolicy settings) as [p|]; [|done].
        congruence.
      + destruct (createQueue_cap_whole settings sendFn) as [[c Hc]|Hc];
          [left|by right].
        exists c. split; [exact Hc|]. cbn. lia.
    - intros k0 item settings sendFn now q Hs _ (Hp & Hcq).
      set (merged := mergeSettings q settings sendFn).
      assert (Hpm : dropPolicy merged <> New).
      { cbn. cbn in Hs.
        destruct (Settings.dropPolicy settings) as [p|]; [|done].
        congruence. }
      assert (Hsane : saneCap (cap q)).
      { destruct Hcq as [(c0 & Hc0 & _)|Hc0]; [left|by right].
        apply wholeNumber_of_nat. by exists c0. }
      destruct (enqueueInto item (set_lastEnqueuedAt now merged))
        as [q1|] eqn:Hi; [|by apply enqueueInto_None in Hi].
      pose proof (enqueueInto_settings _ _ _ Hi)
        as (_ & _ & Hcap & Hpol & _).
      rewrite Hpol, Hcap. split; [done|].
      destruct (mergeSettings_cap_whole q settings sendFn Hsane)
        as [[c Hc]|Hc]; fold merged in Hc; [left|by right].
      exists c. split; [done|].
      intros Hcpos.
      eapply (cap_respected_after_enqueue item _ q1 c); [|exact Hi|done].
      exact Hc.
    - intros force q (Hp & Hcq).
      destruct (drainCycle_queue force q) as (rm & rest & Hi & [-> | ->]);
        cbn; (split; [done|]);
        (destruct Hcq as [(c & Hc & Hl)|Hc]; [left|by right]);
        exists c; (split; [done|]);
        intros Hcpos; specialize (Hl Hcpos);
        rewrite Hi, length_app in Hl; lia. }
  destruct HP as (_ & [(c & Hc & Hl)|Hc]); [|by rewrite Hc].
  rewrite Hc in *.
  apply of_nat_pos in Hpos. apply of_nat_le. by apply Hl.
Qed.

(** ** The overflow summary of a queue in the registry (C5) *)

(** An accepted enqueue never leaves counted drops without a summary
    line: the lines it forgets are the oldest beyond the cap, and the
    cap it has found reached is at least 1. *)
Lemma enqueueInto_keeps_a_line (item : AnnounceQueueItem)
    (queue queue' : AnnounceQueueState) :
  saneCap (cap queue) ->
  enqueueInto item queue = Some queue' ->
  (0 < droppedCount queue -> summaryLines queue <> []) ->
  0 < droppedCount queue' -> summaryLines queue' <> [].
Proof.
  intros Hsane He Hinv.
  destruct (sane_cap_of_nat queue Hsane) as [[c Hc]|Hc].
  2:{ rewrite enqueueInto_unbounded in He by done. by injection He as <-. }
  destruct (decide (c = 0 \/ length (items queue) < c)) as [Hroom|Hfull].
  { rewrite (enqueueInto_under item queue c) in He by done.
    by injection He as <-. }
  destruct (decide (dropPolicy queue = New)) as [Hn|Hn].
  { unfold enqueueInto in He. rewrite Hc, gtb_of_nat_0, geb_of_nat in He.
    rewrite (proj2 (Nat.ltb_lt 0 c)), (proj2 (Nat.leb_le c _)) in He by lia.
    cbn [andb] in He. by rewrite bool_decide_eq_true_2 in He. }
  rewrite (enqueueInto_over item queue c) in He by (done || lia).
  injection He as <-. cbv zeta.
  destruct (bool_decide (dropPolicy queue = Summarize)); [|done].
  cbn [summaryLines set_drops set_items]. intros _ Hnil.
  apply (f_equal length) in Hnil.
  rewrite length_drop, length_app, length_map, length_take in Hnil.
  cbn [length] in Hnil. lia.
Qed.

Lemma drops_have_lines_reachable (es : list Event) (w : World) (key : str)
    (queue : AnnounceQueueState) :
  run es emptyWorld = Some w -> queues w !! key = Some queue ->
  0 < droppedCount queue -> summaryLines queue <> [].
Proof.
  intros Hrun Hq.
  enough (HP : saneCap (cap queue) /\
               (0 < droppedCount queue -> summaryLines queue <> []))
    by apply HP.
  revert Hq.
  apply (invariant_reachable (fun _ => True)
           (fun q => saneCap (cap q) /\
                     (0 < droppedCount q -> summaryLines q <> [])))
    with (es := es) (w := w); try done.
  - intros _ item settings sendFn now _. split; [apply createQueue_sane|].
    cbn. lia.
  - intros _ item settings sendFn now q _ _ [Hc Hl].
    assert (Hm : saneCap (cap (mergeSettings q settings sendFn))).
    { destruct (mergeSettings_cap_whole q settings sendFn Hc) as [Hw|Hi];
        [left; by apply wholeNumber_of_nat|by right]. }
    destruct (enqueueInto item _) as [q'|] eqn:He; [|done].
    split.
    + by apply enqueueInto_settings in He as (_ & _ & -> & _).
    + by apply (enqueueInto_keeps_a_line item
                  (set_lastEnqueuedAt now (mergeSettings q settings sendFn))
                  q' Hm He).
  - intros force q [Hc Hl].
    destruct (drainCycle_settings force q)
      as (_ & _ & Hcap & _ & _ & _ & _ & [[Hn Hs]|[Hn Hs]]);
      cbn; rewrite Hcap, Hn, Hs; (split; [done|]); [done|lia].
  - by apply Forall_true.
Qed.

(** C5.  [buildSummaryPrompt] as the drain loop calls it: on a queue of
    the registry, in collect mode after the items have been taken out of
    it.  It returns nothing and leaves the queue alone unless the policy
    is summarize and something was dropped.  Otherwise it returns the
    header line with the count and the right singular or plural, then a
    "Summary:" line, then one bullet per summary line in order, and it
    resets the count to 0 and clears the lines.  The "Summary:" line is
    never missing: a queue of the registry that has counted drops has a
    summary line. *)
Theorem buildSummaryPrompt_spec (es : list Event) (w : World) (key : str)
    (queue : AnnounceQueueState) (taken : list AnnounceQueueItem) :
  run es emptyWorld = Some w -> queues w !! key = Some queue ->
  (dropPolicy queue <> Summarize \/ droppedCount queue = 0 ->
     buildSummaryPrompt (set_items taken queue) = (None, set_items taken queue))
  /\
  (dropPolicy queue = Summarize /\ 0 < droppedCount queue ->
     summaryLines queue <> [] /\
     buildSummaryPrompt (set_items taken queue) =
       (Some (join newline
                (overflowHeader (droppedCount queue) :: lit "Summary:"
                 :: map bullet (summaryLines queue))),
        set_drops 0 [] (set_items taken queue)) /\
     includes (lit "Dropped " ++ String_of_nat (droppedCount queue)
               ++ (if droppedCount queue =? 1
                   then lit " announce" else lit " announces")
               ++ lit " due to cap.")
              (overflowHeader (droppedCount queue)) = true /\
     droppedCount (buildSummaryPrompt (set_items taken queue)).2 = 0 /\
     summaryLines (buildSummaryPrompt (set_items taken queue)).2 = [] /\
     items (buildSummaryPrompt (set_items taken queue)).2 = taken).
Proof.
  intros Hrun Hq. split.
  - intros [Hp|Hn];
      [by apply buildSummaryPrompt_other_policy
      |by apply buildSummaryPrompt_none].
  - intros [Hp Hn].
    pose proof (drops_have_lines_reachable es w key queue Hrun Hq Hn) as Hl.
    split; [done|].
    rewrite (buildSummaryPrompt_some (set_items taken queue)) by done.
    cbn [summaryLines droppedCount set_items].
    destruct (summaryLines queue) as [|l ls] eqn:El; [done|].
    split; [by unfold summaryAsSpecified; cbn; rewrite El|].
    split; [|done].
    rewrite <- (app_nil_r (overflowHeader _)).
    apply overflowHeader_includes.
Qed.

(** ** Executions, one event at a time *)

Lemma run_app (es1 es2 : list Event) (w : World) :
  run (es1 ++ es2) w = run es1 w ≫= run es2.
Proof.
  revert w. induction es1 as [|e es1 IH]; intros w; cbn [run app]; [done|].
  destruct (step e w) as [w1|]; cbn; [apply IH|done].
Qed.

Lemma run_snoc (es : list Event) (e : Event) (w w' : World) :
  run (es ++ [e]) w = Some w' ->
  exists w1, run es w = Some w1 /\ step e w1 = Some w'.
Proof.
  rewrite run_app. destruct (run es w) as [w1|]; cbn; [|done].
  intros H. exists w1. split; [done|].
  destruct (step e w1) as [w2|]; cbn in *; [done|done].
Qed.

Lemma offeredItems_app (key : str) (es1 es2 : list Event) :
  offeredItems key (es1 ++ es2) = offeredItems key es1 ++ offeredItems key es2.
Proof. apply flat_map_app. Qed.

Lemma deliveredItems_app (key : str) (o1 o2 : list Obs) :
  deliveredItems key (o1 ++ o2)
  = deliveredItems key o1 ++ deliveredItems key o2.
Proof. apply flat_map_app. Qed.

(** A step for one key delivers nothing for another. *)
Lemma deliveredItems_other (key : str) (e : Event)
    (q0 q1 : option AnnounceQueueState) (t0 t1 : option DrainTask)
    (new : list Obs) :
  KeyStep e q0 t0 new q1 t1 -> key <> eventKey e ->
  deliveredItems key new = [].
Proof.
  intros Hk Hne. apply KeyStep_obs_key in Hk.
  induction Hk as [|o new Ho _ IH]; [done|].
  change (deliveredItems key (o :: new))
    with (match o with
          | ObsSend k _ removed _ => if decide (k = key) then removed else []
          | _ => []
          end ++ deliveredItems key new).
  rewrite IH. destruct o as [k|k cb rm arg|msg]; try done.
  by rewrite decide_False by congruence.
Qed.

Lemma splice0_app {A} (count : number) (arr dropped rest : list A) :
  splice0 count arr = (dropped, rest) -> arr = dropped ++ rest.
Proof. unfold splice0. intros [= <- <-]. by rewrite take_drop. Qed.

(** An accepted enqueue drops a prefix of the queue, if anything, and
    puts the new item at the end. *)
Lemma enqueueInto_items (item : AnnounceQueueItem)
    (queue queue' : AnnounceQueueState) :
  enqueueInto item queue = Some queue' ->
  exists dropped rest,
    items queue = dropped ++ rest /\
    items queue' = rest ++ [normalized item].
Proof.
  unfold enqueueInto. destruct (_ && _).
  - destruct (bool_decide (dropPolicy queue = New)); [done|].
    destruct (splice0 _ _) as [dropped rest] eqn:Hs.
    apply splice0_app in Hs.
    destruct (bool_decide (dropPolicy queue = Summarize));
      intros [= <-]; exists dropped, rest;
      (split; [done|]);
      rewrite ?recordDropped_spec; done.
  - intros [= <-]. by exists [], (items queue).
Qed.

(** ** First in, first out *)

Lemma ledger_snoc (entry : Event -> World -> list AnnounceQueueItem)
    (es : list Event) (e : Event) (w w1 : World) :
  run es w = Some w1 ->
  ledger entry (es ++ [e]) w = ledger entry es w ++ entry e w1.
Proof.
  revert w. induction es as [|e0 es IH]; intros w Hrun; cbn [run] in Hrun.
  - injection Hrun as <-. cbn [app ledger].
    destruct (step e w); by rewrite app_nil_r.
  - cbn [app ledger]. destruct (step e0 w) as [w0|] eqn:Hs; [|done].
    cbn in Hrun. by rewrite (IH w0 Hrun), app_assoc.
Qed.

Lemma sublist_same_length {A} (l1 l2 : list A) :
  l1 `sublist_of` l2 -> length l2 <= length l1 -> l1 = l2.
Proof.
  induction 1 as [|x l1 l2 Hs IH|x l1 l2 Hs IH]; cbn; intros Hl.
  - done.
  - f_equal. apply IH. lia.
  - apply sublist_length in Hs. lia.
Qed.

(** One step neither makes up an item nor loses one: what was waiting
    before, with what the step offers, is what the step delivers, leaves
    waiting, evicts and rejects. *)
Lemma step_conserves (key : str) (e : Event) (w1 w : World) :
  wellFormed w1 -> step e w1 = Some w ->
  exists new,
    trace w = trace w1 ++ new /\
    deliveredItems key new ++ pendingItems key w
    ++ evictedBy key e w1 ++ rejectedBy key e w1
    ≡ₚ pendingItems key w1 ++ offeredItems key [e].
Proof.
  intros Hwf Hstep.
  destruct (step_analysis e w1 w Hwf Hstep) as [Hframe (new & Ht & Hk)].
  exists new. split; [done|].
  destruct (decide (key = eventKey e)) as [->|Hne].
  2:{ rewrite (deliveredItems_other key e _ _ _ _ _ Hk Hne).
      unfold pendingItems. destruct (Hframe key Hne) as [-> _].
      destruct e as [k item settings sendFn now|k|k outcome];
        cbn [eventKey] in Hne; cbn [evictedBy rejectedBy offeredItems flat_map];
        rewrite ?decide_False by congruence; by rewrite ?app_nil_r. }
  destruct e as [k item settings sendFn now|k|k outcome]; cbn [eventKey] in *.
  - (* an enqueue *)
    cbn [evictedBy rejectedBy offeredItems flat_map].
    rewrite !decide_True by done. rewrite app_nil_r.
    cbn [step] in Hstep.
    destruct (wellFormed_key w1 k Hwf)
      as [[Hq _]|(queue & task & Hq & _ & Hd)].
    + rewrite enqueueAnnounce_fresh in Hstep |- * by done.
      injection Hstep as <-. rewrite Hq in Hk. inversion Hk; subst.
      unfold pendingItems, started. cbn [queues].
      by rewrite Hq, lookup_insert_eq.
    + rewrite (enqueueAnnounce_existing _ _ _ _ _ _ _ Hq Hd) in Hstep |- *.
      cbv zeta in Hstep |- *. rewrite Hq in Hk.
      assert (Hnew : new = []) by (by inversion Hk).
      subst new. cbn [deliveredItems flat_map app].
      destruct (enqueueInto item _) as [queue'|] eqn:He;
        injection Hstep as <-; unfold pendingItems; cbn [queues];
        rewrite Hq, lookup_insert_eq.
      * apply enqueueInto_items in He as (dropped & rest & Hi & ->).
        cbn [items set_lastEnqueuedAt mergeSettings] in Hi. rewrite Hi.
        rewrite !length_app. cbn [length].
        replace (length dropped + length rest + 1 - (length rest + 1))
          with (length dropped) by lia.
        rewrite take_app_length. solve_Permutation.
      * cbn [items set_lastEnqueuedAt mergeSettings app]. done.
  - (* the timer *)
    cbn [evictedBy rejectedBy offeredItems flat_map]. rewrite !app_nil_r.
    unfold pendingItems. revert Hk.
    generalize (queues w1 !! k) (drains w1 !! k) (queues w !! k)
      (drains w !! k).
    intros q0 t0 q1 t1 Hk.
    inversion Hk; subst; cbn [deliveredItems flat_map app];
      rewrite ?decide_True by done; rewrite ?app_nil_r; try done.
    + match goal with H : drainCycle _ _ = _ |- _ =>
        apply drainCycle_CySend in H as (Hi & _) end.
      by rewrite Hi.
    + match goal with H : drainCycle _ _ = _ |- _ =>
        apply drainCycle_CyBreak in H as (Hi & _) end.
      by rewrite Hi.
    + match goal with H : drainCycle _ _ = _ |- _ =>
        apply drainCycle_CyBreak in H as (Hi & Hi' & _) end.
      cbn [items set_draining]. by rewrite Hi, Hi'.
  - (* a send settles *)
    cbn [evictedBy rejectedBy offeredItems flat_map]. rewrite !app_nil_r.
    unfold pendingItems. revert Hk.
    generalize (queues w1 !! k) (drains w1 !! k) (queues w !! k)
      (drains w !! k).
    intros q0 t0 q1 t1 Hk.
    inversion Hk; subst; cbn [deliveredItems flat_map app];
      rewrite ?app_nil_r; try done;
      match goal with H : backlogEmpty _ = true |- _ =>
        apply backlogEmpty_true in H as [-> _] end; done.
Qed.

(** Deliveries follow the enqueue order, and nothing is lost on the way.
    After any execution, the items taken out of the queue of a key for
    its sends, in send order, followed by the items still waiting, form
    a subsequence of the items that were enqueued for the key (as
    stored: with the normalised origin and the origin key derived from
    it), in enqueue order: no item is sent twice, none overtakes an
    older one, none is made up.  The items that are missing from that
    sequence are those which an enqueue evicted and those whose enqueue
    was rejected, each as often as it was enqueued: the items enqueued
    are, up to their order, the items sent, waiting, evicted and
    rejected.  So when nothing was evicted and nothing rejected, the
    items sent and waiting are the items enqueued. *)
Theorem deliveries_follow_the_enqueue_order
    (es : list Event) (w : World) (key : str) :
  run es emptyWorld = Some w ->
  (deliveredItems key (trace w) ++ pendingItems key w)
    `sublist_of` offeredItems key es /\
  offeredItems key es
    ≡ₚ deliveredItems key (trace w) ++ pendingItems key w
       ++ evictedItems key es ++ rejectedItems key es /\
  (evictedItems key es = [] -> rejectedItems key es = [] ->
   deliveredItems key (trace w) ++ pendingItems key w = offeredItems key es).
Proof.
  intros Hrun.
  assert (Hsub : (deliveredItems key (trace w) ++ pendingItems key w)
                   `sublist_of` offeredItems key es).
  { revert w Hrun. induction es as [|e es IH] using rev_ind; intros w Hrun.
    { injection Hrun as <-. unfold pendingItems, emptyWorld. cbn.
      by rewrite lookup_empty. }
    apply run_snoc in Hrun as (w1 & Hrun & Hstep).
    specialize (IH w1 Hrun).
    pose proof (wellFormed_run es _ _ wellFormed_empty Hrun) as Hwf.
    destruct (step_analysis e w1 w Hwf Hstep) as [Hframe (new & Ht & Hk)].
    rewrite Ht, deliveredItems_app, offeredItems_app, <- app_assoc.
    destruct (decide (key = eventKey e)) as [->|Hne].
    2:{ rewrite (deliveredItems_other key e _ _ _ _ _ Hk Hne). cbn [app].
        unfold pendingItems in *. destruct (Hframe key Hne) as [-> _].
        by apply sublist_inserts_r. }
    unfold pendingItems in *. revert IH Hk.
    generalize (queues w1 !! eventKey e) (drains w1 !! eventKey e)
      (queues w !! eventKey e) (drains w !! eventKey e).
    intros q0 t0 q1 t1 IH Hk.
    destruct Hk; cbn [eventKey offeredItems deliveredItems flat_map app] in *;
      rewrite ?decide_True by done; rewrite ?app_nil_r in *; try done.
    - (* a new queue *)
      by apply sublist_app.
    - (* an enqueue into a running queue *)
      destruct (enqueueInto item _) as [queue'|] eqn:He.
      + apply enqueueInto_items in He as (dropped & rest & Hi & ->).
        cbn [items set_lastEnqueuedAt mergeSettings] in Hi. rewrite Hi in IH.
        rewrite app_assoc. apply sublist_app; [|done].
        etrans; [|exact IH]. apply sublist_app; [done|].
        by apply sublist_inserts_l.
      + cbn [items set_lastEnqueuedAt mergeSettings].
        by apply sublist_inserts_r.
    - (* a cycle that sends *)
      match goal with H : drainCycle _ _ = _ |- _ =>
        apply drainCycle_CySend in H as (Hi & _) end.
      by rewrite Hi in IH.
    - (* a cycle that breaks and leaves the registry *)
      etrans; [|exact IH]. by apply sublist_inserts_r.
    - (* a cycle that breaks and restarts *)
      match goal with H : drainCycle _ _ = _ |- _ =>
        apply drainCycle_CyBreak in H as (Hi & Hi' & _) end.
      cbn [items set_draining]. by rewrite Hi' , <- Hi.
    - etrans; [|exact IH]. by apply sublist_inserts_r.
    - etrans; [|exact IH]. by apply sublist_inserts_r. }
  assert (Hperm : offeredItems key es
            ≡ₚ deliveredItems key (trace w) ++ pendingItems key w
               ++ evictedItems key es ++ rejectedItems key es).
  { clear Hsub. revert w Hrun.
    induction es as [|e es IH] using rev_ind; intros w Hrun.
    { injection Hrun as <-. unfold pendingItems, emptyWorld. cbn.
      by rewrite lookup_empty. }
    apply run_snoc in Hrun as (w1 & Hrun & Hstep).
    specialize (IH w1 Hrun).
    pose proof (wellFormed_run es _ _ wellFormed_empty Hrun) as Hwf.
    destruct (step_conserves key e w1 w Hwf Hstep) as (new & Ht & Hc).
    unfold evictedItems, rejectedItems in *.
    rewrite !(ledger_snoc _ es e emptyWorld w1 Hrun).
    rewrite Ht, deliveredItems_app, offeredItems_app, IH.
    revert Hc.
    generalize (deliveredItems key (trace w1)) (deliveredItems key new)
      (pendingItems key w1) (pendingItems key w)
      (ledger (evictedBy key) es emptyWorld) (evictedBy key e w1)
      (ledger (rejectedBy key) es emptyWorld) (rejectedBy key e w1)
      (offeredItems key [e]).
    intros D Dn P P' E En R Rn O Hc.
    trans (D ++ (P ++ O) ++ E ++ R); [solve_Permutation|].
    rewrite <- Hc. solve_Permutation. }
  split; [exact Hsub|]. split; [exact Hperm|].
  intros He Hr. apply sublist_same_length; [exact Hsub|].
  rewrite Hperm, He, Hr, !app_nil_r. done.
Qed.

(** ** What a message is made of *)

(** The argument of a send is the last of the items taken out for it,
    with at most its prompt replaced. *)
Lemma drainCycle_message (force force' : bool)
    (queue queue' : AnnounceQueueState)
    (removed : list AnnounceQueueItem) (arg : AnnounceQueueItem) :
  drainCycle force queue = CySend queue' force' removed arg ->
  exists lastItem,
    last removed = Some lastItem /\ arg = set_prompt (prompt arg) lastItem.
Proof.
  assert (Hid : forall it : AnnounceQueueItem, it = set_prompt (prompt it) it)
    by (by intros []).
  assert (Hnext : forall f g q,
    (forall it, g it = set_prompt (prompt (g it)) it) ->
    sendNext f g q = CySend queue' force' removed arg ->
    exists lastItem,
      last removed = Some lastItem /\ arg = set_prompt (prompt arg) lastItem).
  { intros f g q Hg. unfold sendNext.
    destruct (items q) as [|next rest]; [done|].
    intros [= <- <- <- <-]. exists next. split; [done|apply Hg]. }
  unfold drainCycle. destruct (bool_decide (mode queue = Collect)).
  - destruct force; [by apply Hnext|].
    destruct (hasCrossChannelItems (items queue)); [by apply Hnext|].
    destruct (buildSummaryPrompt (set_items [] queue)) as [summary q1].
    destruct (last (items queue)) as [lastItem|] eqn:Hl; [|done].
    intros [= <- <- <- <-]. by exists lastItem.
  - destruct (buildSummaryPrompt queue) as [summary q1].
    destruct summary as [text|]; [destruct (truthy (Some text))|];
      by apply Hnext.
Qed.

(** Every message carries an item of the queue.  In every execution,
    each call of the send callback took at least one item out of the
    queue, and its argument is the last of those items with at most the
    prompt replaced: session key, origin, origin key, time stamp and
    summary line are that item's own. *)
Theorem every_message_is_the_last_item_taken
    (es : list Event) (w : World) :
  run es emptyWorld = Some w ->
  Forall (fun o =>
            match o with
            | ObsSend _ _ removed arg =>
                exists lastItem,
                  last removed = Some lastItem /\
                  arg = set_prompt (prompt arg) lastItem
            | _ => True
            end) (trace w).
Proof.
  revert w. induction es as [|e es IH] using rev_ind; intros w Hrun.
  { injection Hrun as <-. constructor. }
  apply run_snoc in Hrun as (w1 & Hrun & Hstep).
  specialize (IH w1 Hrun).
  pose proof (wellFormed_run es _ _ wellFormed_empty Hrun) as Hwf.
  destruct (step_analysis e w1 w Hwf Hstep) as [_ (new & -> & Hk)].
  apply Forall_app. split; [done|]. clear IH.
  destruct Hk; repeat constructor.
  by eapply drainCycle_message.
Qed.

(** ** The settings of the latest enqueue *)

Lemma latestEnqueue_snoc (key : str) (es : list Event) (e : Event) :
  latestEnqueue key (es ++ [e]) =
  match e with
  | EvEnqueue k _ settings sendFn _ =>
      if decide (k = key) then Some (Settings.mode settings, sendFn)
      else latestEnqueue key es
  | _ => latestEnqueue key es
  end.
Proof.
  unfold latestEnqueue. rewrite flat_map_app. cbn [flat_map].
  destruct e as [k item settings sendFn now| |]; rewrite ?app_nil_r; try done.
  destruct (decide (k = key)); rewrite ?app_nil_r; [|done].
  cbn [app]. by rewrite last_snoc.
Qed.

Lemma latest_enqueue_reachable (es : list Event) (w : World) (key : str)
    (queue : AnnounceQueueState) :
  run es emptyWorld = Some w -> queues w !! key = Some queue ->
  latestEnqueue key es = Some (mode queue, send queue).
Proof.
  revert w queue. induction es as [|e es IH] using rev_ind;
    intros w queue Hrun Hq.
  { injection Hrun as <-. unfold emptyWorld in Hq. cbn in Hq.
    by rewrite lookup_empty in Hq. }
  apply run_snoc in Hrun as (w1 & Hrun & Hstep).
  specialize (IH w1).
  pose proof (wellFormed_run es _ _ wellFormed_empty Hrun) as Hwf.
  destruct (step_analysis e w1 w Hwf Hstep) as [Hframe (new & _ & Hk)].
  rewrite latestEnqueue_snoc.
  destruct (decide (key = eventKey e)) as [->|Hne].
  2:{ destruct (Hframe key Hne) as [Hq1 _]. rewrite Hq1 in Hq.
      destruct e as [k item settings sendFn now| |]; cbn [eventKey] in Hne;
        rewrite ?decide_False by congruence; by eapply IH. }
  revert IH Hk Hq.
  generalize (queues w1 !! eventKey e) (drains w1 !! eventKey e)
    (queues w !! eventKey e) (drains w !! eventKey e).
  intros q0 t0 q1 t1 IH Hk Hq.
  destruct Hk; cbn [eventKey] in *; rewrite ?decide_True by done;
    try (by eapply IH); try done; injection Hq as <-.
  - done.
  - destruct (enqueueInto item _) as [queue'|] eqn:He; [|done].
    by apply enqueueInto_settings in He as (-> & _ & _ & _ & -> & _).
  - match goal with H : drainCycle _ _ = _ |- _ =>
      apply drainCycle_CySend in H as (_ & _ & _ & -> & ->) end.
    by eapply IH.
  - match goal with H : drainCycle _ _ = _ |- _ =>
      pose proof (drainCycle_settings force queue0) as (Hm & _ & _ & _ & Hs & _);
      rewrite H in Hm, Hs end.
    cbn in Hm, Hs. cbn. rewrite Hm, Hs. by eapply IH.
  - cbn. by eapply IH.
Qed.

(** The latest enqueue decides for the whole backlog.  In every
    execution the mode and the send callback of a queue are those of the
    most recent enqueue call for its key, accepted or rejected; so every
    message goes through the callback of the most recent enqueue call
    that came before the cycle, also when the items it delivers were
    enqueued with another callback. *)
Theorem latest_enqueue_sets_mode_and_callback
    (es : list Event) (w : World) :
  run es emptyWorld = Some w ->
  (forall key queue, queues w !! key = Some queue ->
     latestEnqueue key es = Some (mode queue, send queue)) /\
  (forall e w' key callback removed arg,
     step e w = Some w' ->
     trace w' = trace w ++ [ObsSend key callback removed arg] ->
     exists m, latestEnqueue key es = Some (m, callback)).
Proof.
  intros Hrun. split; [intros key queue; by apply latest_enqueue_reachable|].
  intros e w' key callback rm arg Hstep Ht.
  pose proof (wellFormed_run es _ _ wellFormed_empty Hrun) as Hwf.
  destruct (step_analysis e w w' Hwf Hstep) as [_ (new & Ht' & Hk)].
  rewrite Ht' in Ht. apply app_inv_head in Ht. subst new.
  pose proof (latest_enqueue_reachable es w (eventKey e)) as Hl.
  revert Hl Hk.
  generalize (queues w !! eventKey e) (drains w !! eventKey e)
    (queues w' !! eventKey e) (drains w' !! eventKey e).
  intros q0 t0 q1 t1 Hl Hk.
  inversion Hk; subst. cbn [eventKey] in Hl.
  exists (mode queue). by apply Hl.
Qed.

(** ** The overflow notice in individual mode *)

(** The notice takes the place of an item's text.  Outside collect mode,
    a cycle that finds drops to report under the summarize policy takes
    the head item out of the queue and sends it with the notice as its
    prompt.  The notice is made of the dropped count and the summary
    lines alone: the prompt the head item was enqueued with is in no
    message, and the item is gone from the queue. *)
Theorem individual_notice_replaces_the_head_prompt
    (force : bool) (queue : AnnounceQueueState)
    (next : AnnounceQueueItem) (rest : list AnnounceQueueItem) :
  mode queue = Individual -> dropPolicy queue = Summarize ->
  0 < droppedCount queue -> items queue = next :: rest ->
  let notice :=
    match summaryLines queue with
    | [] => overflowHeader (droppedCount queue)
    | _ :: _ => summaryAsSpecified queue
    end in
  drainCycle force queue
  = CySend (set_items rest (set_drops 0 [] queue)) force [next]
           (set_prompt notice next) /\
  (forall body,
     drainCycle force (set_items (set_prompt body next :: rest) queue)
     = CySend (set_items rest (set_drops 0 [] queue)) force
              [set_prompt body next] (set_prompt notice next)).
Proof.
  intros Hm Hp Hn Hi notice.
  assert (Hgen : forall q head,
    mode q = Individual -> dropPolicy q = Summarize ->
    droppedCount q = droppedCount queue ->
    summaryLines q = summaryLines queue ->
    items q = head :: rest ->
    drainCycle force q
    = CySend (set_items rest (set_drops 0 [] q)) force [head]
             (set_prompt notice head)).
  { intros q head Hqm Hqp Hqn Hql Hqi. unfold drainCycle.
    rewrite bool_decide_eq_false_2 by (rewrite Hqm; done).
    rewrite buildSummaryPrompt_some by (done || lia).
    assert (Ht : match summaryLines q with
                 | [] => overflowHeader (droppedCount q)
                 | _ :: _ => summaryAsSpecified q
                 end = notice).
    { subst notice. unfold summaryAsSpecified. by rewrite Hql, Hqn. }
    rewrite Ht.
    assert (Htr : truthy (Some notice) = true).
    { subst notice. by destruct (summaryLines queue). }
    rewrite Htr. unfold sendNext.
    change (items (set_drops 0 [] q)) with (items q). rewrite Hqi. done. }
  split; [by apply Hgen|].
  intros body. by rewrite (Hgen _ (set_prompt body next)).
Qed.

(** ** A drain that is left alone *)

Lemma drainCycle_individual_next (force : bool) (queue : AnnounceQueueState)
    (next : AnnounceQueueItem) (rest : list AnnounceQueueItem) :
  mode queue = Individual \/ force = true ->
  droppedCount queue = 0 -> items queue = next :: rest ->
  drainCycle force queue = CySend (set_items rest queue) force [next] next.
Proof.
  intros Hm Hn Hi. unfold drainCycle.
  destruct (bool_decide (mode queue = Collect)) eqn:Hc.
  - apply bool_decide_eq_true in Hc.
    destruct Hm as [Hm| ->]; [congruence|].
    unfold sendNext. by rewrite Hi.
  - rewrite buildSummaryPrompt_none by done. unfold sendNext. by rewrite Hi.
Qed.

(** One message per item.  A queue without pending drops that is in
    individual mode, or whose drain session has been forced to individual
    sends, and a closure that waits for the timer: when nothing else
    happens to the key and every send resolves, the timer and the sends
    take turns once per item, the items are sent as they are in queue
    order, each through the queue's callback, and with the last send
    resolved the key has left the registry. *)
Theorem undisturbed_drain_sends_every_item_in_order
    (key : str) (queue : AnnounceQueueState) (force : bool)
    (R : Registry) (D : gmap str DrainTask) (T : list Obs) :
  mode queue = Individual \/ force = true ->
  droppedCount queue = 0 -> items queue <> [] ->
  run (flat_map (fun _ => [EvDebounce key; EvSend key Resolved])
                (items queue))
      (mkWorld (<[key := queue]> R)
               (<[key := mkTask force AwaitDebounce]> D) T)
  = Some (mkWorld (delete key R) (delete key D)
                  (T ++ map (fun item => ObsSend key (send queue) [item] item)
                            (items queue))).
Proof.
  intros Hm Hn Hne.
  remember (items queue) as l eqn:Hl.
  revert queue T Hm Hn Hl. induction l as [|next rest IH];
    intros queue T Hm Hn Hl; [done|].
  cbn [flat_map app map].
  erewrite run_cons; [|apply step_debounce].
  rewrite (drainCycle_individual_next force queue next rest) by done.
  erewrite run_cons; [|apply step_send_resolved].
  destruct rest as [|next' rest'].
  - cbn. by rewrite Hn.
  - assert (He : backlogEmpty (set_items (next' :: rest') queue) = false)
      by done.
    rewrite He. rewrite (IH ltac:(done) (set_items (next' :: rest') queue));
      try done.
    cbn [send set_items]. by rewrite <- app_assoc.
Qed.

(** One message for a whole batch.  A queue in collect mode with items
    that are not cross-channel, and a closure with the flag unset that
    waits for the timer: the next cycle takes all items out at once and
    sends one message, the last item with the batch text as its prompt.
    When drops are counted under the summarize policy the text includes
    the overflow notice, and the counters are reset by this.  When the
    send has resolved, and nothing was enqueued meanwhile, the key has
    left the registry. *)
Theorem undisturbed_collect_drain_sends_one_batch
    (key : str) (queue : AnnounceQueueState) (lastItem : AnnounceQueueItem)
    (R : Registry) (D : gmap str DrainTask) (T : list Obs) :
  mode queue = Collect ->
  hasCrossChannelItems (items queue) = false ->
  last (items queue) = Some lastItem ->
  droppedCount queue = 0 \/ dropPolicy queue = Summarize ->
  run [EvDebounce key; EvSend key Resolved]
      (mkWorld (<[key := queue]> R)
               (<[key := mkTask false AwaitDebounce]> D) T)
  = Some (mkWorld (delete key R) (delete key D)
            (T ++ [ObsSend key (send queue) (items queue)
                     (set_prompt
                        (buildCollectPrompt (items queue)
                           (buildSummaryPrompt queue).1)
                        lastItem)])) /\
  (forall text, (buildSummaryPrompt queue).1 = Some text ->
     includes text (buildCollectPrompt (items queue)
                      (buildSummaryPrompt queue).1) = true).
Proof.
  intros Hm Hx Hl Hdrops. split.
  - erewrite run_cons; [|apply step_debounce].
    rewrite (drainCycle_collect_batch queue lastItem) by done.
    erewrite run_cons; [|apply step_send_resolved].
    assert (He : backlogEmpty (buildSummaryPrompt (set_items [] queue)).2
                 = true).
    { destruct (droppedCount queue) as [|n] eqn:E.
      - rewrite buildSummaryPrompt_none by done.
        unfold backlogEmpty. cbn. by rewrite E.
      - destruct Hdrops as [?|Hp]; [done|].
        rewrite buildSummaryPrompt_some by (cbn; done || lia). done. }
    rewrite He. cbn [run].
    assert (Hs : (buildSummaryPrompt (set_items [] queue)).1
                 = (buildSummaryPrompt queue).1).
    { unfold buildSummaryPrompt.
      cbn [dropPolicy droppedCount summaryLines set_items].
      by destruct (_ || _). }
    by rewrite Hs.
  - intros text Ht. rewrite Ht. unfold buildCollectPrompt.
    apply includes_join. apply elem_of_app. right. apply elem_of_app. left.
    assert (Htr : truthy (Some text) = true).
    { destruct (decide (dropPolicy queue = Summarize)) as [Hp|Hp].
      - destruct (droppedCount queue) as [|n] eqn:E.
        + by rewrite buildSummaryPrompt_none in Ht.
        + rewrite buildSummaryPrompt_some in Ht by (done || lia).
          injection Ht as <-. by destruct (summaryLines queue).
      - by rewrite buildSummaryPrompt_other_policy in Ht. }
    rewrite Htr. by apply list_elem_of_singleton.
Qed.

(** ** Keys do not interfere *)

Lemma step_total (e : Event) (w : World) : is_Some (step e w).
Proof.
  destruct e as [key item settings sendFn now|key|key outcome]; cbn [step].
  - destruct (enqueueAnnounce_total key item settings sendFn now w) as [r Hr].
    rewrite Hr. by eexists.
  - unfold resumeAfterDebounce.
    destruct (drains w !! key) as [[force [|]]|]; [|by eexists..].
    destruct (queues w !! key) as [queue|]; [|by eexists].
    destruct (drainCycle force queue) as [q' f' rm arg|q']; [by eexists|].
    erewrite drainFinally_spec; [by eexists|].
    cbn [queues]. apply lookup_insert_eq.
  - unfold resumeAfterSend.
    destruct (drains w !! key) as [[force [|]]|]; [by eexists| |by eexists].
    destruct outcome as [|err].
    + destruct (queues w !! key) as [queue|] eqn:Hq.
      * erewrite drainLoop_spec by done. by eexists.
      * unfold drainLoop. rewrite Hq. by eexists.
    + destruct (queues w !! key) as [queue|] eqn:Hq.
      * erewrite drainFinally_spec by done. by eexists.
      * unfold drainFinally. cbn [queues]. rewrite Hq. by eexists.
Qed.

(** What a step does to its key is a function of the event and of the
    queue and closure of that key. *)
Lemma KeyStep_fun (e : Event) (q : option AnnounceQueueState)
    (t : option DrainTask) (new1 new2 : list Obs)
    (q1 q2 : option AnnounceQueueState) (t1 t2 : option DrainTask) :
  KeyStep e q t new1 q1 t1 -> KeyStep e q t new2 q2 t2 ->
  new1 = new2 /\ q1 = q2 /\ t1 = t2.
Proof.
  intros H1 H2.
  destruct H1; inversion H2; subst;
    repeat match goal with
           | H : _ \/ _ |- _ => destruct H as [?|[? ?]]
           end;
    try done; try congruence;
    repeat match goal with
           | H1 : drainCycle ?f ?x = _, H2 : drainCycle ?f ?x = _ |- _ =>
               rewrite H1 in H2; injection H2 as ?; subst
           end;
    try done; try congruence.
Qed.

Lemma obsOf_app (key : str) (o1 o2 : list Obs) :
  obsOf key (o1 ++ o2) = obsOf key o1 ++ obsOf key o2.
Proof. apply filter_app. Qed.

Lemma obsOf_other (key : str) (e : Event)
    (q0 q1 : option AnnounceQueueState) (t0 t1 : option DrainTask)
    (new : list Obs) :
  KeyStep e q0 t0 new q1 t1 -> key <> eventKey e -> obsOf key new = [].
Proof.
  intros Hk Hne. apply KeyStep_obs_key in Hk.
  induction Hk as [|o new Ho _ IH]; [done|].
  unfold obsOf in *. rewrite filter_cons, IH.
  destruct o as [k|k cb rm arg|msg]; cbn [obsKey];
    rewrite decide_False; try done; congruence.
Qed.

Lemma eventsOf_snoc (key : str) (es : list Event) (e : Event) :
  eventsOf key (es ++ [e]) =
  eventsOf key es ++ (if decide (eventKey e = key) then [e] else []).
Proof.
  unfold eventsOf. by rewrite filter_app.
Qed.

(** The fate of a key depends on its own events only.  Take any
    execution and drop from it every event of every other key: what is
    left runs as well, and it ends with the same queue and the same
    closure for the key, after the same drain starts and the same sends
    of the key, in the same order. *)
Theorem keys_do_not_interfere (es : list Event) (w : World) (key : str) :
  run es emptyWorld = Some w ->
  exists w',
    run (eventsOf key es) emptyWorld = Some w' /\
    queues w' !! key = queues w !! key /\
    drains w' !! key = drains w !! key /\
    obsOf key (trace w') = obsOf key (trace w).
Proof.
  revert w. induction es as [|e es IH] using rev_ind; intros w Hrun.
  { injection Hrun as <-. by exists emptyWorld. }
  apply run_snoc in Hrun as (w1 & Hrun & Hstep).
  destruct (IH w1 Hrun) as (w1' & Hrun' & Hq & Hd & Ho).
  pose proof (wellFormed_run es _ _ wellFormed_empty Hrun) as Hwf.
  pose proof (wellFormed_run _ _ _ wellFormed_empty Hrun') as Hwf'.
  destruct (step_analysis e w1 w Hwf Hstep) as [Hframe (new & Ht & Hk)].
  rewrite eventsOf_snoc.
  destruct (decide (eventKey e = key)) as [<-|Hne].
  - destruct (step_total e w1') as [w' Hstep'].
    destruct (step_analysis e w1' w' Hwf' Hstep') as [_ (new' & Ht' & Hk')].
    rewrite Hq, Hd in Hk'.
    destruct (KeyStep_fun _ _ _ _ _ _ _ _ _ Hk Hk') as (-> & Hq2 & Hd2).
    exists w'. split.
    + rewrite run_app, Hrun'. cbn. by rewrite Hstep'.
    + split; [done|]. split; [done|].
      by rewrite Ht, Ht', !obsOf_app, Ho.
  - exists w1'. rewrite app_nil_r. split; [done|].
    destruct (Hframe key (not_eq_sym Hne)) as [-> ->].
    split; [done|]. split; [done|].
    rewrite Ht, obsOf_app, (obsOf_other key e _ _ _ _ _ Hk) by done.
    by rewrite app_nil_r.
Qed.

(** ** What every call of [enqueueAnnounce] leaves behind *)

Lemma enqueueInto_rejects (item : AnnounceQueueItem)
    (queue : AnnounceQueueState) :
  enqueueInto item queue = None ->
  dropPolicy queue = New /\ (0 < cap queue)%num /\
  (cap queue <= of_nat (length (items queue)))%num.
Proof.
  unfold enqueueInto.
  destruct (gtb (cap queue) 0) eqn:Hpos; [|done].
  destruct (geb (of_nat (length (items queue))) (cap queue)) eqn:Hfull;
    [|done]. cbn [andb].
  destruct (bool_decide (dropPolicy queue = New)) eqn:E.
  - intros _. apply bool_decide_eq_true in E.
    by apply gtb_true_iff in Hpos; apply geb_true_iff in Hfull.
  - destruct (splice0 _ _) as [dropped rest].
    by destruct (bool_decide (dropPolicy queue = Summarize)).
Qed.

(** The result of [enqueueAnnounce].  In a world an execution can
    reach, every call returns; afterwards the key has a queue that is
    marked as draining and a drain closure, the queue carries the mode
    and the callback of the call and the time of the call as its latest
    enqueue time, whether the item was accepted or not, and no other key
    is touched.  When the call returns [true] the item, with its origin
    normalised and its origin key derived, is the last of the queue.
    It returns [false] only under the reject-new policy with a positive
    cap that the queue has reached, and then the items are as before. *)
Theorem enqueueAnnounce_postcondition
    (es0 : list Event) (w : World) (key : str) (item : AnnounceQueueItem)
    (settings : Settings.t) (sendFn : Callback) (now : Q) :
  run es0 emptyWorld = Some w ->
  exists accepted w' queue' task,
    enqueueAnnounce key item settings sendFn now w = Some (accepted, w') /\
    queues w' !! key = Some queue' /\ drains w' !! key = Some task /\
    draining queue' = true /\ lastEnqueuedAt queue' = now /\
    mode queue' = Settings.mode settings /\ send queue' = sendFn /\
    (accepted = true -> last (items queue') = Some (normalized item)) /\
    (accepted = false ->
       dropPolicy queue' = New /\ (0 < cap queue')%num /\
       (cap queue' <= of_nat (length (items queue')))%num /\
       pendingItems key w' = pendingItems key w) /\
    (forall key', key' <> key ->
       queues w' !! key' = queues w !! key' /\
       drains w' !! key' = drains w !! key').
Proof.
  intros Hrun.
  pose proof (wellFormed_run es0 _ _ wellFormed_empty Hrun) as Hwf.
  destruct (wellFormed_key w key Hwf)
    as [[Hq Ht]|(queue & task & Hq & Ht & Hd)].
  - rewrite enqueueAnnounce_fresh by done.
    eexists true, _, _, _. split; [reflexivity|].
    unfold started. cbn [queues drains].
    split; [apply lookup_insert_eq|]. split; [apply lookup_insert_eq|].
    split_and!; try done.
    intros key' Hne. by rewrite !lookup_insert_ne.
  - rewrite (enqueueAnnounce_existing _ _ _ _ _ _ _ Hq Hd). cbv zeta.
    destruct (enqueueInto item _) as [queue'|] eqn:He.
    + eexists true, _, queue', task. split; [reflexivity|].
      cbn [queues drains]. split; [apply lookup_insert_eq|].
      split; [done|].
      pose proof (enqueueInto_settings _ _ _ He)
        as (Hm & _ & _ & _ & Hs & Hdr & Hl).
      destruct (enqueueInto_items _ _ _ He) as (dropped & rest & _ & Hi).
      rewrite Hm, Hs, Hdr, Hl, Hi. split_and!; try done.
      * intros _. apply last_snoc.
      * intros key' Hne. by rewrite lookup_insert_ne.
    + eexists false, _, _, task. split; [reflexivity|].
      cbn [queues drains]. split; [apply lookup_insert_eq|].
      split; [done|].
      apply enqueueInto_rejects in He as (Hp & Hpos & Hfull).
      split_and!; try done.
      * unfold pendingItems. cbn [queues].
        by rewrite lookup_insert_eq, Hq.
      * intros key' Hne. by rewrite lookup_insert_ne.
Qed.

(** ** One send at a time *)

(** Sends of a key never overlap.  In a world an execution can reach,
    while the closure of a key waits for a send to settle, no other
    event makes it send or start again: enqueues for the key find the
    queue draining and start no second closure, timer events are not
    awaited, and events of other keys do not reach it.  The closure
    stays as it is, and no drain start or send of the key is added to
    the trace, until that send settles. *)
Theorem sends_of_a_key_are_sequential
    (es : list Event) (w w' : World) (key : str) (force : bool) (e : Event) :
  run es emptyWorld = Some w ->
  drains w !! key = Some (mkTask force AwaitSend) ->
  (forall outcome, e <> EvSend key outcome) ->
  step e w = Some w' ->
  drains w' !! key = Some (mkTask force AwaitSend) /\
  obsOf key (trace w') = obsOf key (trace w).
Proof.
  intros Hrun Hd Hne Hstep.
  pose proof (wellFormed_run es _ _ wellFormed_empty Hrun) as Hwf.
  destruct (step_analysis e w w' Hwf Hstep) as [Hframe (new & Ht & Hk)].
  rewrite Ht, obsOf_app.
  destruct (decide (key = eventKey e)) as [->|Hkey].
  2:{ destruct (Hframe key Hkey) as [_ ->].
      rewrite (obsOf_other key e _ _ _ _ _ Hk) by done.
      by rewrite app_nil_r. }
  rewrite Hd in Hk. revert Hk.
  generalize (queues w !! eventKey e) (queues w' !! eventKey e)
    (drains w' !! eventKey e).
  intros q0 q1 t1 Hk.
  inversion Hk; subst; cbn [eventKey] in *;
    try (by rewrite app_nil_r);
    by (exfalso; eapply Hne).
Qed.

(** ** Summary lines are in normal form *)

Lemma trimStart_idem (s : str) : trimStart (trimStart s) = trimStart s.
Proof.
  induction s as [|c s IH]; [done|]. cbn [trimStart].
  destruct (isWhiteSpace c) eqn:Hc; [done|]. cbn [trimStart]. by rewrite Hc.
Qed.

Lemma trimEnd_cons (c : code_unit) (s : str) :
  trimEnd (c :: s) =
  match trimEnd s with
  | [] => if isWhiteSpace c then [] else [c]
  | t => c :: t
  end.
Proof. done. Qed.

Lemma trimEnd_cons_text (c : code_unit) (s : str) :
  isWhiteSpace c = false -> trimEnd (c :: s) = c :: trimEnd s.
Proof. intros Hc. rewrite trimEnd_cons, Hc. by destruct (trimEnd s). Qed.

Lemma trimStart_trimEnd (s : str) : trimStart (trimEnd s) = trimEnd (trimStart s).
Proof.
  induction s as [|c s IH]; [done|].
  destruct (isWhiteSpace c) eqn:Hc.
  - cbn [trimStart]. rewrite Hc, trimEnd_cons, Hc, <- IH.
    destruct (trimEnd s) as [|d t]; [done|].
    cbn [trimStart]. by rewrite Hc.
  - cbn [trimStart]. rewrite Hc, trimEnd_cons_text by done.
    cbn [trimStart]. by rewrite Hc.
Qed.

Lemma trim_idem (s : str) : trim (trim s) = trim s.
Proof.
  unfold trim.
  by rewrite trimStart_trimEnd, trimStart_idem, trimEnd_idem.
Qed.

Lemma trimStart_trim (s : str) : trimStart (trim s) = trim s.
Proof. unfold trim. by rewrite trimStart_trimEnd, trimStart_idem. Qed.

Lemma trimEnd_trim (s : str) : trimEnd (trim s) = trim s.
Proof. unfold trim. apply trimEnd_idem. Qed.

(** A text that [trimStart] leaves alone is empty or starts with
    something other than whitespace. *)
Lemma trimStart_fixed (s : str) :
  trimStart s = s ->
  s = [] \/ exists c rest, s = c :: rest /\ isWhiteSpace c = false.
Proof.
  destruct s as [|c rest]; [by left|]. intros H. right. exists c, rest.
  split; [done|]. cbn [trimStart] in H.
  destruct (isWhiteSpace c) eqn:Hc; [|done].
  exfalso. assert (Hl : length (trimStart rest) = S (length rest))
    by (by rewrite H).
  assert (Hle : forall x : str, length (trimStart x) <= length x).
  { clear. induction x as [|d x IH]; cbn; [lia|].
    destruct (isWhiteSpace d); cbn; lia. }
  specialize (Hle rest). lia.
Qed.

Lemma collapse_from_length (inRun : bool) (s : str) :
  length (collapse_from inRun s) <= length s.
Proof.
  revert inRun. induction s as [|c s IH]; intros inRun; cbn; [lia|].
  destruct (isWhiteSpace c), inRun; cbn;
    try (specialize (IH true); lia); specialize (IH false); lia.
Qed.

(** Collapsing twice is collapsing once. *)
Lemma collapse_from_idem (s : str) :
  collapse_from true (collapse_from true s) = collapse_from true s /\
  collapse_from false (collapse_from false s) = collapse_from false s /\
  collapse_from false (collapse_from true s) = collapse_from true s.
Proof.
  induction s as [|c s (IHa & IHb & IHc)]; [done|].
  cbn [collapse_from]. destruct (isWhiteSpace c) eqn:Hc.
  - split; [done|]. split; [|done].
    cbn [collapse_from]. change (isWhiteSpace 32%N) with true. cbv iota.
    by rewrite IHa.
  - cbn [collapse_from]. rewrite Hc, IHb. done.
Qed.

Lemma trimStart_collapse_from (inRun : bool) (s : str) :
  trimStart (collapse_from inRun s) = collapse_from true s.
Proof.
  revert inRun. induction s as [|c s IH]; intros inRun; [done|].
  cbn [collapse_from]. destruct (isWhiteSpace c) eqn:Hc.
  - destruct inRun; [apply IH|].
    cbn [trimStart]. change (isWhiteSpace 32%N) with true. cbv iota. apply IH.
  - cbn [trimStart]. by rewrite Hc.
Qed.

(** What is left of a text after [trimEnd], if anything, survives the
    collapsing of whitespace. *)
Lemma collapse_from_trimEnd_nonempty (inRun : bool) (s : str) :
  trimEnd s <> [] -> collapse_from inRun (trimEnd s) <> [].
Proof.
  revert inRun. induction s as [|c s IH]; intros inRun; [done|].
  rewrite trimEnd_cons.
  destruct (trimEnd s) as [|d t] eqn:E.
  - destruct (isWhiteSpace c) eqn:Hc; [done|]. intros _. cbn. by rewrite Hc.
  - intros _. remember (d :: t) as u eqn:Hu. cbn [collapse_from].
    destruct (isWhiteSpace c); [|done].
    destruct inRun; [|done]. apply IH. by subst u.
Qed.

Lemma trimEnd_collapse_from (inRun : bool) (s : str) :
  trimEnd (collapse_from inRun s) = collapse_from inRun (trimEnd s).
Proof.
  revert inRun. induction s as [|c s IH]; intros inRun; [done|].
  destruct (isWhiteSpace c) eqn:Hc.
  - rewrite (trimEnd_cons c s), Hc.
    pose proof (collapse_from_trimEnd_nonempty true s) as Hne.
    destruct (trimEnd s) as [|d t] eqn:E.
    + cbn [collapse_from]. rewrite Hc.
      destruct inRun; [by rewrite IH|].
      rewrite trimEnd_cons, IH. done.
    + remember (d :: t) as u eqn:Hu.
      assert (Hu' : collapse_from true u <> [])
        by (apply Hne; by subst u).
      cbn [collapse_from]. rewrite Hc.
      destruct inRun; [apply IH|].
      rewrite trimEnd_cons, IH.
      by destruct (collapse_from true u).
  - rewrite (trimEnd_cons_text c s Hc). cbn [collapse_from]. rewrite Hc.
    by rewrite trimEnd_cons_text, IH.
Qed.

(** A collapsed text stays collapsed when it is cut. *)
Lemma collapse_from_take (inRun : bool) (n : nat) (s : str) :
  collapse_from inRun s = s ->
  collapse_from inRun (firstn n s) = firstn n s.
Proof.
  revert inRun n. induction s as [|c s IH]; intros inRun n H;
    [by destruct n|].
  destruct n as [|n]; [done|]. cbn [firstn take collapse_from] in *.
  destruct (isWhiteSpace c) eqn:Hc.
  - destruct inRun.
    + exfalso. pose proof (collapse_from_length true s) as Hl.
      rewrite H in Hl. cbn in Hl. lia.
    + injection H as H1 H2. subst c. f_equal. by apply IH.
  - injection H as H. f_equal. by apply IH.
Qed.

Lemma collapse_from_snoc (inRun : bool) (s : str) (c : code_unit) :
  isWhiteSpace c = false ->
  collapse_from inRun (s ++ [c]) = collapse_from inRun s ++ [c].
Proof.
  intros Hc. revert inRun. induction s as [|d s IH]; intros inRun; cbn.
  - by rewrite Hc.
  - destruct (isWhiteSpace d), inRun; cbn; by rewrite IH.
Qed.

(** The cleaned text of an item is trimmed and collapsed. *)
Lemma cleaned_normal (s : str) :
  trim (trim (collapseWhitespace s)) = trim (collapseWhitespace s) /\
  collapseWhitespace (trim (collapseWhitespace s))
  = trim (collapseWhitespace s).
Proof.
  split; [apply trim_idem|].
  unfold collapseWhitespace, trim.
  rewrite <- trimEnd_collapse_from, !trimStart_collapse_from.
  by rewrite (proj2 (proj2 (collapse_from_idem s))).
Qed.

Lemma elideText_nil (text : str) (limit : nat) :
  elideText text limit = [] <-> text = [].
Proof.
  unfold elideText. split.
  - destruct (length text <=? limit); [done|].
    intros H. apply app_eq_nil in H as [_ H]. done.
  - by intros ->.
Qed.

(** A trimmed text that is not empty is not emptied by cleaning. *)
Lemma cleaned_nil (s : str) :
  trim (collapseWhitespace (trim s)) = [] <-> trim s = [].
Proof.
  split; [|by intros ->].
  unfold collapseWhitespace. unfold trim at 1.
  rewrite trimStart_collapse_from, trimEnd_collapse_from, trimEnd_trim.
  intros H. destruct (trim s) as [|c t] eqn:E; [done|]. exfalso.
  unfold trim in E.
  pose proof (collapse_from_trimEnd_nonempty true (trimStart s)) as Hne.
  rewrite E in Hne. by apply Hne.
Qed.

(** The base text of [buildQueueSummaryLine] is a trimmed text. *)
Lemma cleanedSummary_base (item : AnnounceQueueItem) :
  exists s,
    cleanedSummary item = trim (collapseWhitespace (trim s)) /\
    (trim s = [] <->
       trim (prompt item) = [] /\
       forall l, summaryLine item = Some l -> trim l = []).
Proof.
  unfold cleanedSummary. destruct (summaryLine item) as [l|].
  - destruct (truthy (Some (trim l))) eqn:Ht.
    + exists l. split; [done|]. apply truthy_Some in Ht. split; [done|].
      intros [_ H]. by apply H.
    + exists (prompt item). split; [done|].
      assert (Hl : trim l = []).
      { destruct (trim l) eqn:E; [done|]. by unfold truthy in Ht. }
      split; [|by intros [? _]]. intros Hp. split; [done|].
      by intros l' [= <-].
  - exists (prompt item). split; [done|]. split; [|by intros [? _]].
    intros Hp. by split.
Qed.

(** Summary lines are in normal form.  The line of an item is empty
    exactly when the item has no text at all: its prompt is blank, and
    so is its summary line if it has one.  Any other line is a fixed
    point: an item that carries it as its summary line gets the very
    same line, so that summarising what has been summarised changes
    nothing. *)
Theorem summary_line_is_a_normal_form (item item' : AnnounceQueueItem) :
  (buildQueueSummaryLine item = [] <->
     trim (prompt item) = [] /\
     forall l, summaryLine item = Some l -> trim l = []) /\
  (buildQueueSummaryLine item <> [] ->
   summaryLine item' = Some (buildQueueSummaryLine item) ->
   buildQueueSummaryLine item' = buildQueueSummaryLine item).
Proof.
  destruct (cleanedSummary_base item) as (s & Hclean & Hblank).
  split.
  { unfold buildQueueSummaryLine.
    by rewrite elideText_nil, Hclean, cleaned_nil. }
  intros Hne Hs.
  set (line := buildQueueSummaryLine item) in *.
  assert (Hnormal : trim line = line /\ collapseWhitespace line = line).
  { destruct (cleaned_normal (trim s)) as [Ht Hc]. rewrite <- Hclean in Ht, Hc.
    subst line. unfold buildQueueSummaryLine, elideText.
    destruct (length (cleanedSummary item) <=? 160) eqn:E; [done|].
    apply Nat.leb_gt in E. cbn [Nat.max Nat.sub].
    assert (Hstart : trimStart (cleanedSummary item) = cleanedSummary item).
    { rewrite Hclean. apply trimStart_trim. }
    apply trimStart_fixed in Hstart as [Hnil|(c & rest & Hcr & Hc0)].
    { rewrite Hnil in E. cbn in E. lia. }
    set (P := firstn 159 (cleanedSummary item)).
    assert (HP : collapse_from false P = P)
      by (by apply collapse_from_take).
    assert (HK : collapse_from false (trimEnd P) = trimEnd P)
      by (by rewrite <- trimEnd_collapse_from, HP).
    assert (Hhead : exists t, trimEnd P = c :: t).
    { subst P. rewrite Hcr. cbn [firstn take].
      rewrite trimEnd_cons_text by done. by eexists. }
    destruct Hhead as [t Hhead].
    split.
    - unfold trim.
      assert (Hts : trimStart (trimEnd P ++ ellipsis) = trimEnd P ++ ellipsis).
      { rewrite Hhead. cbn [app trimStart]. by rewrite Hc0. }
      rewrite Hts. by apply trimEnd_snoc.
    - unfold collapseWhitespace, ellipsis.
      rewrite collapse_from_snoc by done. by rewrite HK. }
  destruct Hnormal as [Ht Hc].
  unfold buildQueueSummaryLine at 1. unfold cleanedSummary.
  rewrite Hs, Ht.
  rewrite (proj2 (truthy_Some line) Hne), Hc, Ht.
  unfold elideText.
  assert (Hl : length line <= 160) by apply buildQueueSummaryLine_length.
  apply Nat.leb_le in Hl. by rewrite Hl.
Qed.

(** ** A drain that is left alone comes to an end *)

(** A cycle of a fresh session on a queue without items whose drops are
    to be summarised: the notice is built, which resets the counters,
    and the loop is left without a send. *)
Lemma drainCycle_flush_empty (queue : AnnounceQueueState) :
  items queue = [] -> dropPolicy queue = Summarize ->
  0 < droppedCount queue ->
  drainCycle false queue = CyBreak (set_drops 0 [] queue).
Proof.
  intros Hi Hp Hn. unfold drainCycle.
  destruct (bool_decide (mode queue = Collect)).
  - rewrite Hi. change (hasCrossChannelItems []) with false. cbv iota.
    rewrite set_items_nil_id by done.
    by rewrite buildSummaryPrompt_some.
  - rewrite buildSummaryPrompt_some by done.
    assert (Ht : truthy (Some match summaryLines queue with
                               | [] => overflowHeader (droppedCount queue)
                               | _ :: _ => summaryAsSpecified queue
                               end) = true)
      by (by destruct (summaryLines queue)).
    rewrite Ht. unfold sendNext.
    change (items (set_drops 0 [] queue)) with (items queue). by rewrite Hi.
Qed.

Lemma drain_finishes_from_the_wait (key : str) (n : nat) :
  forall (queue : AnnounceQueueState) (force : bool)
         (R : Registry) (D : gmap str DrainTask) (T : list Obs),
    length (items queue) <= n ->
    droppedCount queue = 0 \/ dropPolicy queue = Summarize ->
    exists es w',
      Forall (fun e => e = EvDebounce key \/ e = EvSend key Resolved) es /\
      length es <= 2 * n + 2 /\
      run es (mkWorld (<[key := queue]> R)
                      (<[key := mkTask force AwaitDebounce]> D) T)
      = Some w' /\
      queues w' = delete key R /\ drains w' = delete key D.
Proof.
  induction n as [|n IH]; intros queue force R D T Hlen Hdrops.
  - (* no items: one cycle, or two when the session was forced *)
    assert (Hi : items queue = [])
      by (destruct (items queue); [done|cbn in Hlen; lia]).
    destruct (drainCycle force queue) as [q' f' rm arg|q'] eqn:Hc.
    { apply drainCycle_CySend in Hc as (Hc & Hne & _).
      rewrite Hi in Hc. by destruct rm. }
    pose proof (drainCycle_settings force queue) as
      (_ & _ & _ & Hpol & _ & _ & _ & Hcount).
    rewrite Hc in Hpol, Hcount. cbn [cycleQueue] in Hpol, Hcount.
    apply drainCycle_CyBreak in Hc as Hb. destruct Hb as (_ & Hi' & _).
    destruct (backlogEmpty q') eqn:He.
    + exists [EvDebounce key]. eexists.
      split; [repeat constructor; by left|]. split; [cbn; lia|].
      erewrite run_cons; [|apply step_debounce]. rewrite Hc, He.
      by split.
    + assert (Hpos : 0 < droppedCount q').
      { destruct (droppedCount q') as [|k] eqn:E; [|lia].
        exfalso. apply not_true_iff_false in He. apply He.
        by apply backlogEmpty_true. }
      assert (Hsum : dropPolicy q' = Summarize).
      { destruct Hcount as [[Hn _]|[Hn _]]; [|lia].
        rewrite Hpol. destruct Hdrops as [Hz|?]; [lia|done]. }
      exists [EvDebounce key; EvDebounce key]. eexists.
      split; [repeat constructor; by left|]. split; [cbn; lia|].
      erewrite run_cons; [|apply step_debounce]. rewrite Hc, He.
      erewrite run_cons; [|apply step_debounce].
      rewrite (drainCycle_flush_empty (set_draining true q')) by done.
      assert (He2 : backlogEmpty (set_drops 0 [] (set_draining true q'))
                    = true) by (by apply backlogEmpty_true).
      rewrite He2. by split.
  - destruct (drainCycle force queue) as [q' f' rm arg|q'] eqn:Hc.
    + (* a send: when it has resolved, fewer items are left *)
      pose proof (drainCycle_settings force queue) as
        (_ & _ & _ & Hpol & _ & _ & _ & Hcount).
      rewrite Hc in Hpol, Hcount. cbn [cycleQueue] in Hpol, Hcount.
      apply drainCycle_CySend in Hc as Hs. destruct Hs as (Hi & Hne & _).
      assert (Hlen' : length (items q') <= n).
      { rewrite Hi, length_app in Hlen. destruct rm; [done|].
        cbn in Hlen. lia. }
      assert (Hdrops' : droppedCount q' = 0 \/ dropPolicy q' = Summarize).
      { destruct Hcount as [[Hn _]|[Hn _]]; [|by left].
        rewrite Hn, Hpol. done. }
      destruct (backlogEmpty q') eqn:He.
      * exists [EvDebounce key; EvSend key Resolved]. eexists.
        split; [repeat constructor; by (left + right)|]. split; [cbn; lia|].
        erewrite run_cons; [|apply step_debounce]. rewrite Hc.
        erewrite run_cons; [|apply step_send_resolved]. rewrite He.
        by split.
      * destruct (IH q' f' R D (T ++ [ObsSend key (send queue) rm arg])
                    Hlen' Hdrops') as (es & w' & Hall & Hn & Hrun & Hq & Hd).
        exists (EvDebounce key :: EvSend key Resolved :: es), w'.
        split; [by repeat constructor; (left + right + idtac)|].
        split; [cbn; lia|].
        erewrite run_cons; [|apply step_debounce]. rewrite Hc.
        erewrite run_cons; [|apply step_send_resolved]. rewrite He.
        by split.
    + (* the queue is empty already *)
      apply drainCycle_CyBreak in Hc as Hb. destruct Hb as (Hi & _).
      destruct (IH queue force R D T) as (es & w' & Hall & Hn & Hrun & Hq);
        [rewrite Hi; cbn; lia|done|].
      exists es, w'. split; [done|]. split; [lia|done].
Qed.

(** Left alone, a drain ends.  Take a key in a world an execution can
    reach, whose queue has no drops pending or has the summarize policy
    (the one under which pending drops can be flushed).  If nothing more
    is enqueued for the key and every send resolves, then after at most
    one timer event and one send result per pending item, and three
    more events, the key has left the registry and its closure has
    ended; no other key is touched by this. *)
Theorem undisturbed_drain_comes_to_an_end
    (es0 : list Event) (w : World) (key : str) (queue : AnnounceQueueState) :
  run es0 emptyWorld = Some w -> queues w !! key = Some queue ->
  droppedCount queue = 0 \/ dropPolicy queue = Summarize ->
  exists es w',
    Forall (fun e => e = EvDebounce key \/ e = EvSend key Resolved) es /\
    length es <= 2 * length (items queue) + 3 /\
    run es w = Some w' /\
    queues w' !! key = None /\ drains w' !! key = None /\
    (forall key', key' <> key ->
       queues w' !! key' = queues w !! key' /\
       drains w' !! key' = drains w !! key').
Proof.
  intros Hrun Hq Hdrops.
  pose proof (wellFormed_run es0 _ _ wellFormed_empty Hrun) as Hwf.
  destruct (wellFormed_key w key Hwf)
    as [[Hq' _]|(queue' & [force a] & Hq' & Ht & _)]; [congruence|].
  assert (queue' = queue) as -> by congruence.
  assert (Hw : w = mkWorld (<[key := queue]> (queues w))
                           (<[key := mkTask force a]> (drains w)) (trace w)).
  { destruct w as [Q D T]. cbn in *. by rewrite !insert_id. }
  assert (Hframe : forall w' : World,
    queues w' = delete key (queues w) -> drains w' = delete key (drains w) ->
    queues w' !! key = None /\ drains w' !! key = None /\
    (forall key', key' <> key ->
       queues w' !! key' = queues w !! key' /\
       drains w' !! key' = drains w !! key')).
  { intros w' -> ->. rewrite !lookup_delete_eq. split; [done|].
    split; [done|]. intros key' Hne. by rewrite !lookup_delete_ne. }
  destruct a.
  - destruct (drain_finishes_from_the_wait key (length (items queue)) queue
                force (queues w) (drains w) (trace w) (le_n _) Hdrops)
      as (es & w' & Hall & Hn & Hes & Hqs & Hds).
    exists es, w'. split; [done|]. split; [lia|].
    split; [by rewrite Hw|]. by apply Hframe.
  - destruct (backlogEmpty queue) eqn:He.
    + exists [EvSend key Resolved]. eexists.
      split; [repeat constructor; by right|]. split; [cbn; lia|].
      split.
      { rewrite Hw at 1. erewrite run_cons; [|apply step_send_resolved].
        rewrite He. reflexivity. }
      by apply Hframe.
    + destruct (drain_finishes_from_the_wait key (length (items queue)) queue
                  force (queues w) (drains w) (trace w) (le_n _) Hdrops)
        as (es & w' & Hall & Hn & Hes & Hqs & Hds).
      exists (EvSend key Resolved :: es), w'.
      split; [constructor; [by right|done]|]. split; [cbn; lia|].
      split; [|by apply Hframe].
      rewrite Hw at 1. erewrite run_cons; [|apply step_send_resolved].
      by rewrite He.
Qed.

End AnnounceQueue.

(** * Concrete runs

    The collaborators are instantiated by the simplest host: a delivery
    context is the name of its channel, normalisation changes nothing and
    the origin key is the channel name; send callbacks are numbered. *)

Local Abbreviation hostRun :=
  (run (DeliveryContext := str) (Callback := nat) (fun o => o) (fun o => o)).
Local Abbreviation hostStep :=
  (step (DeliveryContext := str) (Callback := nat) (fun o => o) (fun o => o)).
Local Abbreviation hostItem body session channel :=
  (mkItem (DeliveryContext := str) (lit body) None 0 (lit session)
          (Some (lit channel)) None).
Local Abbreviation stored body session channel :=
  (mkItem (DeliveryContext := str) (lit body) None 0 (lit session)
          (Some (lit channel)) (Some (lit channel))).
Local Abbreviation mainKey := (lit "main").

(** ** C7 *)

Lemma getAnnounceQueue_merges_or_creates_witness :
  exists queue reg',
    getAnnounceQueue (DeliveryContext := str) (Callback := nat) ∅ mainKey
      (Settings.mk Collect (Some (-5)%num) (Some (Finite (5 # 2))) None) 7
    = (queue, reg') /\
    reg' = <[mainKey := queue]> ∅ /\
    debounceMs queue = 0%num /\ cap queue = 2%num /\ dropPolicy queue = Summarize.
Proof.
  eexists _, _. split; [reflexivity|].
  edestruct (getAnnounceQueue_merges_or_creates
               (DeliveryContext := str) (Callback := nat) ∅ mainKey
               (Settings.mk Collect (Some (-5)%num) (Some (Finite (5 # 2))) None)
               7)
    as (Hreg & _ & _ & Hdeb & Hcap & _ & _ & Hrest); [reflexivity|].
  split; [exact Hreg|].
  split; [exact (proj1 (proj2 (Hdeb _ eq_refl)) eq_refl)|].
  split; [exact (proj1 (Hcap _ eq_refl eq_refl))|].
  rewrite lookup_empty in Hrest.
  exact (proj1 (proj2 (proj2 Hrest)) eq_refl).
Defined.

Local Abbreviation secondCall debounce cap :=
  [EvEnqueue mainKey (hostItem "one" "s1" "chat")
     (Settings.mk Collect (Some 500%num) None None) 7 1;
   EvEnqueue mainKey (hostItem "two" "s2" "chat")
     (Settings.mk Collect debounce cap None) 8 2].
Local Abbreviation entryAfter events :=
  (hostRun events emptyWorld ≫= fun w => queues w !! mainKey).

(** The claim as stated fails for a supplied [debounceMs] that is not a
    valid non-negative number, and for a supplied cap of [Infinity].  A
    first call makes an entry whose debounce is 500.  A second call that
    supplies -5 overwrites it with 0, and one that supplies [NaN]
    overwrites it with [NaN], which is not at least 0; as the claim
    words it, the prior 500 would be kept both times.  A second call
    that supplies the cap [Infinity], which is positive, stores it as it
    is, which is not an integer. *)
Lemma debounce_overwritten_by_any_number :
  (debounceMs <$> entryAfter (secondCall None None)) = Some 500%num /\
  (debounceMs <$> entryAfter (secondCall (Some (-5)%num) None))
  = Some 0%num /\
  debounceAsSpecified 500 (Some (-5)%num) = 500%num /\
  (debounceMs <$> entryAfter (secondCall (Some NaN) None)) = Some NaN /\
  debounceAsSpecified 500 (Some NaN) = 500%num /\
  ~ (0 <= NaN)%num /\
  (cap <$> entryAfter (secondCall None (Some Infinity))) = Some Infinity /\
  ~ wholeNumber Infinity.
Proof.
  split_and!; try (vm_compute; reflexivity).
  - intros H. discriminate H.
  - intros (z & _ & H). discriminate H.
Qed.

(** ** C4 *)

Lemma enqueueAnnounce_reject_new_witness :
  exists w',
    enqueueAnnounce (fun o => o) (fun o => o) mainKey
      (hostItem "late" "s2" "chat")
      (Settings.mk Individual None None None) 8 5
      (mkWorld (<[mainKey :=
                   mkState [stored "first" "s1" "chat"] true 1 Individual
                           1000 1 New 0 [] 7]> ∅)
               (<[mainKey := mkTask false AwaitDebounce]> ∅)
               [ObsStart mainKey])
    = Some (false, w') /\
    (items <$> queues w' !! mainKey) = Some [stored "first" "s1" "chat"] /\
    trace w' = [ObsStart mainKey].
Proof.
  edestruct (enqueueAnnounce_reject_new (fun o => o) (fun o => o) mainKey
               (hostItem "late" "s2" "chat")
               (Settings.mk Individual None None None) 8 5
               (mkWorld (<[mainKey :=
                   mkState [stored "first" "s1" "chat"] true 1 Individual
                           1000 1 New 0 [] 7]> ∅)
                 (<[mainKey := mkTask false AwaitDebounce]> ∅)
                 [ObsStart mainKey]))
    as (w' & queue' & Hres & Hq & _ & Hitems & _ & _ & _ & Hbusy & _).
  - apply lookup_insert_eq.
  - reflexivity.
  - reflexivity.
  - reflexivity.
  - exists w'. split; [exact Hres|]. split.
    + rewrite Hq. cbn. by rewrite Hitems.
    + exact (proj2 (Hbusy eq_refl)).
Defined.

(** The claim as stated fails for a cap of 0, which a supplied cap of
    one half leaves in the queue: the guard [cap > 0] is false, so the
    second call, made on a queue that holds one item (at least [cap]
    items) under the reject-new policy, appends its item and returns
    [true]. *)
Lemma zero_cap_never_rejects :
  exists w1 w2,
    enqueueAnnounce (fun o => o) (fun o => o) mainKey
      (hostItem "first" "s1" "chat")
      (Settings.mk Individual None (Some (Finite (1 # 2))) (Some New)) 7 1
      emptyWorld
    = Some (true, w1) /\
    (cap <$> queues w1 !! mainKey) = Some 0%num /\
    (dropPolicy <$> queues w1 !! mainKey) = Some New /\
    (items <$> queues w1 !! mainKey) = Some [stored "first" "s1" "chat"] /\
    enqueueAnnounce (fun o => o) (fun o => o) mainKey
      (hostItem "second" "s2" "chat")
      (Settings.mk Individual None (Some (Finite (1 # 2))) (Some New)) 7 2 w1
    = Some (true, w2) /\
    (items <$> queues w2 !! mainKey)
    = Some [stored "first" "s1" "chat"; stored "second" "s2" "chat"].
Proof.
  eexists _, _. split; [vm_compute; reflexivity|].
  split; [vm_compute; reflexivity|]. split; [vm_compute; reflexivity|].
  split; [vm_compute; reflexivity|]. split; [vm_compute; reflexivity|].
  vm_compute. reflexivity.
Qed.

(** ** C1 *)

Lemma collect_single_channel_batch_witness :
  exists w' message,
    hostRun
      [EvEnqueue mainKey (hostItem "alpha" "s1" "chat")
                 (Settings.mk Collect None None None) 7 1;
       EvEnqueue mainKey (hostItem "beta" "s2" "chat")
                 (Settings.mk Collect None None None) 7 2;
       EvEnqueue mainKey (hostItem "gamma" "s3" "chat")
                 (Settings.mk Collect None None None) 7 3;
       EvDebounce mainKey; EvSend mainKey Resolved] emptyWorld = Some w' /\
    trace w' =
      [ObsStart mainKey;
       ObsSend mainKey 7
         [stored "alpha" "s1" "chat"; stored "beta" "s2" "chat";
          stored "gamma" "s3" "chat"] message] /\
    sessionKey message = lit "s3" /\
    queues w' !! mainKey = None.
Proof.
  edestruct (collect_single_channel_batch (fun o => o) (fun o => o) mainKey
               (hostItem "alpha" "s1" "chat") (hostItem "beta" "s2" "chat")
               (hostItem "gamma" "s3" "chat")
               (Settings.mk Collect None None None) 7 7 7 1 2 3
               emptyWorld (lit "chat"))
    as (w' & message & Hrun & Htrace & _ & Hsession & _ & _ & _ & _ & Hgone).
  - apply lookup_empty.
  - reflexivity.
  - intros c Hc. discriminate Hc.
  - discriminate.
  - intros i Hi.
    repeat (apply elem_of_cons in Hi as [->|Hi]; [by split|]).
    by apply elem_of_nil in Hi.
  - exists w', message. split; [exact Hrun|]. split; [exact Htrace|].
    split; [exact Hsession|exact Hgone].
Defined.

(** The claim as stated fails for a body that ends in whitespace: the
    third body, "gamma " with its trailing space, is not part of the
    one message delivered. *)
Lemma collect_batch_trims_bodies :
  exists w' message,
    hostRun
      [EvEnqueue mainKey (hostItem "alpha" "s1" "chat")
                 (Settings.mk Collect None None None) 7 1;
       EvEnqueue mainKey (hostItem "beta" "s2" "chat")
                 (Settings.mk Collect None None None) 7 2;
       EvEnqueue mainKey (hostItem "gamma " "s3" "chat")
                 (Settings.mk Collect None None None) 7 3;
       EvDebounce mainKey; EvSend mainKey Resolved] emptyWorld = Some w' /\
    trace w' =
      [ObsStart mainKey;
       ObsSend mainKey 7
         [stored "alpha" "s1" "chat"; stored "beta" "s2" "chat";
          stored "gamma " "s3" "chat"] message] /\
    includes (lit "alpha") (prompt message) = true /\
    includes (lit "beta") (prompt message) = true /\
    includes (lit "gamma ") (prompt message) = false.
Proof.
  eexists _, _. split; [vm_compute; reflexivity|].
  split; [reflexivity|]. by vm_compute.
Qed.

(** ** C3 *)

Lemma overflow_evicts_and_summarizes_witness :
  exists w4 queue,
    hostRun
      [EvEnqueue mainKey (hostItem "one" "s1" "chat")
         (Settings.mk Individual None (Some 2%num) (Some Summarize)) 7 1;
       EvEnqueue mainKey (hostItem "two" "s2" "chat")
         (Settings.mk Individual None (Some 2%num) (Some Summarize)) 7 2;
       EvEnqueue mainKey (hostItem "three" "s3" "chat")
         (Settings.mk Individual None (Some 2%num) (Some Summarize)) 7 3;
       EvEnqueue mainKey (hostItem "four" "s4" "chat")
         (Settings.mk Individual None (Some 2%num) (Some Summarize)) 7 4]
      emptyWorld = Some w4 /\
    queues w4 !! mainKey = Some queue /\
    droppedCount queue = 2 /\
    summaryLines queue = [lit "one"; lit "two"] /\
    exists w5 removed arg,
      hostStep (EvDebounce mainKey) w4 = Some w5 /\
      trace w5 = trace w4 ++ [ObsSend mainKey 7 removed arg] /\
      includes (lit "Dropped 2 announces due to cap.") (prompt arg) = true.
Proof.
  edestruct (overflow_evicts_and_summarizes (fun o => o) (fun o => o) mainKey
               (hostItem "one" "s1" "chat") (hostItem "two" "s2" "chat")
               (hostItem "three" "s3" "chat") (hostItem "four" "s4" "chat")
               Individual None 7 7 7 7 1 2 3 4 emptyWorld)
    as (w4 & queue & Hrun & Hq & Hn & Hlines & _ & _ & Hnext).
  - apply lookup_empty.
  - exists w4, queue. split; [exact Hrun|]. split; [exact Hq|].
    split; [exact Hn|]. split; [rewrite Hlines; vm_compute; reflexivity|].
    apply Hnext. left. reflexivity.
Defined.

(** The claim as stated fails in collect mode when the two items left
    are cross-channel: the count and the lines are as claimed, but the
    next message is the third item as it was enqueued, without the
    notice. *)
Lemma overflow_notice_missing_when_cross_channel :
  exists w4 queue w5 message,
    hostRun
      [EvEnqueue mainKey (hostItem "one" "s1" "chat")
         (Settings.mk Collect None (Some 2%num) (Some Summarize)) 7 1;
       EvEnqueue mainKey (hostItem "two" "s2" "chat")
         (Settings.mk Collect None (Some 2%num) (Some Summarize)) 7 2;
       EvEnqueue mainKey (hostItem "three" "s3" "chat")
         (Settings.mk Collect None (Some 2%num) (Some Summarize)) 7 3;
       EvEnqueue mainKey (hostItem "four" "s4" "mail")
         (Settings.mk Collect None (Some 2%num) (Some Summarize)) 7 4]
      emptyWorld = Some w4 /\
    queues w4 !! mainKey = Some queue /\
    droppedCount queue = 2 /\
    summaryLines queue = [lit "one"; lit "two"] /\
    hostStep (EvDebounce mainKey) w4 = Some w5 /\
    trace w5 =
      trace w4 ++ [ObsSend mainKey 7 [stored "three" "s3" "chat"] message] /\
    message = stored "three" "s3" "chat" /\
    includes (lit "Dropped 2 announces due to cap.") (prompt message) = false.
Proof.
  eexists _, _, _, _. split; [vm_compute; reflexivity|].
  split; [vm_compute; reflexivity|].
  split; [reflexivity|]. split; [reflexivity|].
  split; [vm_compute; reflexivity|].
  split; [reflexivity|]. split; [reflexivity|]. by vm_compute.
Qed.

(** ** C8 *)

Lemma send_failure_is_logged_and_drain_goes_on_witness :
  exists w',
    hostRun [EvDebounce mainKey; EvSend mainKey (Rejected (lit "boom"))]
      (mkWorld (<[mainKey :=
                   mkState [stored "first" "s1" "chat";
                            stored "second" "s2" "chat"]
                           true 1 Individual 0 20 Summarize 0 [] 7]> ∅)
               (<[mainKey := mkTask false AwaitDebounce]> ∅)
               [ObsStart mainKey])
    = Some w' /\
    trace w' =
      [ObsStart mainKey;
       ObsSend mainKey 7 [stored "first" "s1" "chat"]
               (stored "first" "s1" "chat");
       ObsError (lit "announce queue drain failed for main: boom");
       ObsStart mainKey] /\
    (items <$> queues w' !! mainKey) = Some [stored "second" "s2" "chat"] /\
    drains w' !! mainKey = Some (mkTask false AwaitDebounce).
Proof.
  edestruct (send_failure_is_logged_and_drain_goes_on
               (fun o => o) (fun o => o) mainKey (lit "boom")
               (mkWorld (<[mainKey :=
                   mkState [stored "first" "s1" "chat";
                            stored "second" "s2" "chat"]
                           true 1 Individual 0 20 Summarize 0 [] 7]> ∅)
                 (<[mainKey := mkTask false AwaitDebounce]> ∅)
                 [ObsStart mainKey])
               false false)
    as (w' & Hrun & _ & Htrace & Hnext & _).
  - apply lookup_insert_eq.
  - apply lookup_insert_eq.
  - reflexivity.
  - exists w'. split; [exact Hrun|]. split; [exact Htrace|].
    destruct Hnext as [Hq Hd]; [left; discriminate|].
    split; [by rewrite Hq | exact Hd].
Defined.

(** ** C10 *)

(** The state of the claim is reached: cap 2 with the summarize policy
    in collect mode, four items of which the two that stay are
    cross-channel.  Both are sent one by one, the forced session runs out
    of items with two drops pending and is started again; its next cycle
    loses the summary.  No message of the whole run carries the notice,
    and the key has left the registry. *)
Lemma pending_drops_without_items_are_lost_witness :
  hostRun
    [EvEnqueue mainKey (hostItem "one" "s1" "chat")
       (Settings.mk Collect None (Some 2%num) (Some Summarize)) 7 1;
     EvEnqueue mainKey (hostItem "two" "s2" "chat")
       (Settings.mk Collect None (Some 2%num) (Some Summarize)) 7 2;
     EvEnqueue mainKey (hostItem "three" "s3" "chat")
       (Settings.mk Collect None (Some 2%num) (Some Summarize)) 7 3;
     EvEnqueue mainKey (hostItem "four" "s4" "mail")
       (Settings.mk Collect None (Some 2%num) (Some Summarize)) 7 4;
     EvDebounce mainKey; EvSend mainKey Resolved;
     EvDebounce mainKey; EvSend mainKey Resolved;
     EvDebounce mainKey]
    emptyWorld
  = Some (mkWorld
            (<[mainKey := mkState [] true 4 Collect 1000 2 Summarize 2
                                  [lit "one"; lit "two"] 7]> ∅)
            (<[mainKey := mkTask false AwaitDebounce]> ∅)
            [ObsStart mainKey;
             ObsSend mainKey 7 [stored "three" "s3" "chat"]
                     (stored "three" "s3" "chat");
             ObsSend mainKey 7 [stored "four" "s4" "mail"]
                     (stored "four" "s4" "mail");
             ObsStart mainKey]) /\
  exists w',
    hostStep (EvDebounce mainKey)
      (mkWorld
         (<[mainKey := mkState [] true 4 Collect 1000 2 Summarize 2
                               [lit "one"; lit "two"] 7]> ∅)
         (<[mainKey := mkTask false AwaitDebounce]> ∅)
         [ObsStart mainKey;
          ObsSend mainKey 7 [stored "three" "s3" "chat"]
                  (stored "three" "s3" "chat");
          ObsSend mainKey 7 [stored "four" "s4" "mail"]
                  (stored "four" "s4" "mail");
          ObsStart mainKey])
    = Some w' /\
    trace w' =
      [ObsStart mainKey;
       ObsSend mainKey 7 [stored "three" "s3" "chat"]
               (stored "three" "s3" "chat");
       ObsSend mainKey 7 [stored "four" "s4" "mail"]
               (stored "four" "s4" "mail");
       ObsStart mainKey] /\
    queues w' !! mainKey = None /\
    drains w' !! mainKey = None.
Proof.
  split; [vm_compute; reflexivity|].
  edestruct (pending_drops_without_items_are_lost
               (fun o => o) (fun o => o) mainKey
               (mkWorld
                  (<[mainKey := mkState [] true 4 Collect 1000 2 Summarize 2
                                        [lit "one"; lit "two"] 7]> ∅)
                  (<[mainKey := mkTask false AwaitDebounce]> ∅)
                  [ObsStart mainKey;
                   ObsSend mainKey 7 [stored "three" "s3" "chat"]
                           (stored "three" "s3" "chat");
                   ObsSend mainKey 7 [stored "four" "s4" "mail"]
                           (stored "four" "s4" "mail");
                   ObsStart mainKey]))
    as (_ & _ & w' & Hstep & Htrace & Hq & Hd).
  - apply lookup_insert_eq.
  - apply lookup_insert_eq.
  - reflexivity.
  - reflexivity.
  - reflexivity.
  - cbn. lia.
  - exists w'. split; [exact Hstep|]. split; [exact Htrace|].
    split; [exact Hq | exact Hd].
Defined.

(** ** C9 *)

(** A queue made with its own settings (no debounce, cap 2, reject-new)
    is drained and removed; the next enqueue for the key supplies only
    the mode, and the new entry has the defaults, not what the removed
    entry held. *)
Local Abbreviation firstLife :=
  [EvEnqueue mainKey (hostItem "one" "s1" "chat")
     (Settings.mk Individual (Some 0%num) (Some 2%num) (Some New)) 7 1;
   EvDebounce mainKey].
Local Abbreviation sendingWorld :=
  (mkWorld (<[mainKey := mkState [] true 1 Individual 0 2 New 0 [] 7]> ∅)
           (<[mainKey := mkTask false AwaitSend]> ∅)
           [ObsStart mainKey;
            ObsSend mainKey 7 [stored "one" "s1" "chat"]
                    (stored "one" "s1" "chat")]).
Local Abbreviation drainedWorld :=
  (mkWorld (DeliveryContext := str) (Callback := nat) ∅ ∅
           [ObsStart mainKey;
            ObsSend mainKey 7 [stored "one" "s1" "chat"]
                    (stored "one" "s1" "chat")]).

Lemma registry_entry_iff_backlog_or_drain_witness :
  hostRun firstLife emptyWorld = Some sendingWorld /\
  (exists w',
     hostStep (EvSend mainKey Resolved) sendingWorld = Some w' /\
     queues w' !! mainKey = None /\ drains w' !! mainKey = None) /\
  hostRun (firstLife ++ [EvSend mainKey Resolved]) emptyWorld
  = Some drainedWorld /\
  exists w',
    enqueueAnnounce (fun o => o) (fun o => o) mainKey
      (hostItem "two" "s2" "mail") (Settings.mk Collect None None None) 9 5
      drainedWorld
    = Some (true, w') /\
    queues w' !! mainKey
    = Some (mkState [stored "two" "s2" "mail"] true 5 Collect 1000 20
                    Summarize 0 [] 9).
Proof.
  assert (Hrun0 : hostRun firstLife emptyWorld = Some sendingWorld)
    by (vm_compute; reflexivity).
  assert (Hrun1 : hostRun (firstLife ++ [EvSend mainKey Resolved]) emptyWorld
                  = Some drainedWorld) by (vm_compute; reflexivity).
  split; [exact Hrun0|]. split.
  { destruct (registry_entry_iff_backlog_or_drain (fun o => o) (fun o => o)
                _ _ mainKey Hrun0) as (_ & _ & Hsend & _).
    exact (Hsend _ false Resolved (lookup_insert_eq _ _ _)
             (lookup_insert_eq _ _ _) eq_refl eq_refl). }
  split; [exact Hrun1|].
  destruct (registry_entry_iff_backlog_or_drain (fun o => o) (fun o => o)
              _ _ mainKey Hrun1) as (_ & _ & _ & _ & _ & Hnew).
  destruct (Hnew (hostItem "two" "s2" "mail")
              (Settings.mk Collect None None None) 9 5%Q (lookup_empty _))
    as (w' & queue' & He & Hq & Hi & Hn & Hl & Hd & Ht & Hm & Hs & _ & Hdeb
        & _ & _ & Hcap & _ & Hpol & _).
  exists w'. split; [exact He|]. rewrite Hq. f_equal.
  specialize (Hdeb eq_refl). specialize (Hpol eq_refl).
  assert (Hc : cap queue' = 20%num) by (apply Hcap; intros c Hc; discriminate Hc).
  destruct queue'. cbn in *. by subst.
Defined.

(** ** C2 *)

(** Three items enqueued in collect mode, the first from the channel
    chat, the other two from the channel mail.  The cycle finds them
    cross-channel: it sends the first alone and sets the flag, and the
    two that are left, though they share a channel, are sent one by
    one.  When the first send fails instead, the session is started
    anew with the flag false, and the two go out as one batch. *)
Local Abbreviation collectSettings :=
  (Settings.mk Collect (Some 0%num) None None).
Local Abbreviation mixedEvents :=
  [EvEnqueue mainKey (hostItem "alpha" "s1" "chat") collectSettings 7 1;
   EvEnqueue mainKey (hostItem "beta" "s2" "mail") collectSettings 7 2;
   EvEnqueue mainKey (hostItem "gamma" "s3" "mail") collectSettings 7 3].
Local Abbreviation mixedQueue :=
  (mkState [stored "alpha" "s1" "chat"; stored "beta" "s2" "mail";
            stored "gamma" "s3" "mail"]
           true 3 Collect 0 20 Summarize 0 [] 7).
Local Abbreviation mixedWorld :=
  (mkWorld (<[mainKey := mixedQueue]> ∅)
           (<[mainKey := mkTask false AwaitDebounce]> ∅)
           [ObsStart mainKey]).


(** ** C6 *)

(** The claim as stated fails in both directions.  For a single item
    that has an origin but no origin key the check returns true although
    the set is trivial and none of the three conditions holds.  For two
    items without an origin that carry distinct keys the check returns
    false although condition (a), read as it is written, holds. *)
Lemma lone_origin_without_key_is_cross_channel :
  (hasCrossChannelItems
     [mkItem (DeliveryContext := str) (lit "a") None 0 (lit "s1")
             (Some (lit "chat")) None] = true /\
   ~ crossChannelAsSpecified
       [mkItem (DeliveryContext := str) (lit "a") None 0 (lit "s1")
               (Some (lit "chat")) None]) /\
  (hasCrossChannelItems
     [mkItem (DeliveryContext := str) (lit "a") None 0 (lit "s1")
             None (Some (lit "chat"));
      mkItem (DeliveryContext := str) (lit "b") None 0 (lit "s2")
             None (Some (lit "mail"))] = false /\
   crossChannelAsSpecified
     [mkItem (DeliveryContext := str) (lit "a") None 0 (lit "s1")
             None (Some (lit "chat"));
      mkItem (DeliveryContext := str) (lit "b") None 0 (lit "s2")
             None (Some (lit "mail"))]).
Proof.
  split; split; try reflexivity.
  - intros [H|[[_ H]|[_ H]]].
    + destruct H as (a & b & ka & kb & Ha & _ & Hka & _).
      apply list_elem_of_singleton in Ha as ->. discriminate Hka.
    + cbn in H. lia.
    + destruct H as (b & Hb & Hob).
      apply list_elem_of_singleton in Hb as ->. discriminate Hob.
  - left. eexists _, _, (lit "chat"), (lit "mail").
    split; [apply elem_of_cons; by left|].
    split; [apply elem_of_cons; right; apply elem_of_cons; by left|].
    repeat split; discriminate.
Qed.

(** ** Further properties *)

Lemma scheduleAnnounceDrain_idempotent_witness :
  scheduleAnnounceDrain (DeliveryContext := str) (Callback := nat) mainKey
    (mkWorld (<[mainKey := mkState [stored "first" "s1" "chat"] false 1
                                   Individual 1000 20 Summarize 0 [] 7]> ∅)
             ∅ [])
  = Some (mkWorld (<[mainKey := mkState [stored "first" "s1" "chat"] true 1
                                        Individual 1000 20 Summarize 0 [] 7]> ∅)
                  (<[mainKey := mkTask false AwaitDebounce]> ∅)
                  [ObsStart mainKey]) /\
  scheduleAnnounceDrain (DeliveryContext := str) (Callback := nat) mainKey
    (mkWorld (<[mainKey := mkState [stored "first" "s1" "chat"] true 1
                                   Individual 1000 20 Summarize 0 [] 7]> ∅)
             (<[mainKey := mkTask false AwaitDebounce]> ∅)
             [ObsStart mainKey])
  = Some (mkWorld (<[mainKey := mkState [stored "first" "s1" "chat"] true 1
                                        Individual 1000 20 Summarize 0 [] 7]> ∅)
                  (<[mainKey := mkTask false AwaitDebounce]> ∅)
                  [ObsStart mainKey]).
Proof.
  assert (Hfirst :
    scheduleAnnounceDrain (DeliveryContext := str) (Callback := nat) mainKey
      (mkWorld (<[mainKey := mkState [stored "first" "s1" "chat"] false 1
                                     Individual 1000 20 Summarize 0 [] 7]> ∅)
               ∅ [])
    = Some (mkWorld
              (<[mainKey := mkState [stored "first" "s1" "chat"] true 1
                                    Individual 1000 20 Summarize 0 [] 7]> ∅)
              (<[mainKey := mkTask false AwaitDebounce]> ∅)
              [ObsStart mainKey])) by (vm_compute; reflexivity).
  split; [exact Hfirst|].
  exact (proj1 (scheduleAnnounceDrain_idempotent mainKey _ _ Hfirst)).
Defined.

Lemma fractional_cap_lifts_the_bound_witness :
  cap (createQueue (DeliveryContext := str) (Callback := nat)
         (Settings.mk Individual None (Some (Finite (1 # 2))) (Some New)) 7) = 0%num.
Proof.
  eapply (proj1 (fractional_cap_lifts_the_bound
                   (DeliveryContext := str) (fun o => o) (fun o => o)
                   (Settings.mk Individual None (Some (Finite (1 # 2))) (Some New))
                   7 (Finite (1 # 2)) eq_refl eq_refl eq_refl)).
Defined.

(** The state is reached with cap 1: the second item evicts the first
    under the summarize policy, the third evicts the second under the
    evict-oldest policy, the third is sent; the drop of the first item
    then keeps the drain restarting. *)
Lemma unflushed_drops_restart_forever_witness :
  hostRun
    [EvEnqueue mainKey (hostItem "one" "s1" "chat")
       (Settings.mk Individual None (Some 1%num) (Some Summarize)) 7 1;
     EvEnqueue mainKey (hostItem "two" "s2" "chat")
       (Settings.mk Individual None (Some 1%num) (Some Summarize)) 7 2;
     EvEnqueue mainKey (hostItem "three" "s3" "chat")
       (Settings.mk Individual None (Some 1%num) (Some Old)) 7 3;
     EvDebounce mainKey; EvSend mainKey Resolved]
    emptyWorld
  = Some (mkWorld
            (<[mainKey := mkState [] true 3 Individual 1000 1 Old 1
                                  [lit "one"] 7]> ∅)
            (<[mainKey := mkTask false AwaitDebounce]> ∅)
            [ObsStart mainKey;
             ObsSend mainKey 7 [stored "three" "s3" "chat"]
                     (stored "three" "s3" "chat")]) /\
  hostRun (replicate 3 (EvDebounce mainKey))
    (mkWorld
       (<[mainKey := mkState [] true 3 Individual 1000 1 Old 1
                             [lit "one"] 7]> ∅)
       (<[mainKey := mkTask false AwaitDebounce]> ∅)
       [ObsStart mainKey;
        ObsSend mainKey 7 [stored "three" "s3" "chat"]
                (stored "three" "s3" "chat")])
  = Some (mkWorld
            (<[mainKey := mkState [] true 3 Individual 1000 1 Old 1
                                  [lit "one"] 7]> ∅)
            (<[mainKey := mkTask false AwaitDebounce]> ∅)
            ([ObsStart mainKey;
              ObsSend mainKey 7 [stored "three" "s3" "chat"]
                      (stored "three" "s3" "chat")]
             ++ replicate 3 (ObsStart mainKey))).
Proof.
  split; [vm_compute; reflexivity|].
  apply (unflushed_drops_restart_forever (fun o => o) (fun o => o) mainKey
           (mkState [] true 3 Individual 1000 1 Old 1 [lit "one"] 7) 2 false).
  - reflexivity.
  - cbn. lia.
  - discriminate.
  - reflexivity.
Defined.

(** ** Further properties of reachable worlds

    A key whose queue of cap 2 has overflowed once under the summarize
    policy, in individual mode. *)

Local Abbreviation busySettings :=
  (Settings.mk Individual (Some 0%num) (Some 2%num) (Some Summarize)).
Local Abbreviation busyEvents :=
  [EvEnqueue mainKey (hostItem "one" "s1" "chat") busySettings 7 1;
   EvEnqueue mainKey (hostItem "two" "s2" "chat") busySettings 7 2;
   EvEnqueue mainKey (hostItem "three" "s3" "chat") busySettings 7 3].
Local Abbreviation busyQueue :=
  (mkState [stored "two" "s2" "chat"; stored "three" "s3" "chat"]
           true 3 Individual 0 2 Summarize 1 [lit "one"] 7).
Local Abbreviation busyWorld :=
  (mkWorld (<[mainKey := busyQueue]> ∅)
           (<[mainKey := mkTask false AwaitDebounce]> ∅)
           [ObsStart mainKey]).

Lemma stored_settings_are_sane_witness :
  hostRun
    [EvEnqueue mainKey (hostItem "one" "s1" "chat")
       (Settings.mk Individual (Some NaN) (Some Infinity) None) 7 1]
    emptyWorld
  = Some (mkWorld
            (<[mainKey := mkState [stored "one" "s1" "chat"] true 1 Individual
                                  NaN Infinity Summarize 0 [] 7]> ∅)
            (<[mainKey := mkTask false AwaitDebounce]> ∅)
            [ObsStart mainKey]) /\
  ((0 <= NaN)%num \/ NaN = NaN) /\
  (wholeNumber Infinity \/ Infinity = Infinity) /\
  forall now,
    (waitForQueueDebounce
       (mkState [stored "one" "s1" "chat"] true 1 Individual NaN Infinity
                Summarize 0 [] 7) now).1 = NaN.
Proof.
  assert (Hrun : hostRun
    [EvEnqueue mainKey (hostItem "one" "s1" "chat")
       (Settings.mk Individual (Some NaN) (Some Infinity) None) 7 1]
    emptyWorld
  = Some (mkWorld
            (<[mainKey := mkState [stored "one" "s1" "chat"] true 1 Individual
                                  NaN Infinity Summarize 0 [] 7]> ∅)
            (<[mainKey := mkTask false AwaitDebounce]> ∅)
            [ObsStart mainKey])) by (vm_compute; reflexivity).
  split; [exact Hrun|].
  destruct (stored_settings_are_sane (fun o => o) (fun o => o) _ _ mainKey _
              Hrun (lookup_insert_eq _ _ _)) as (Hd & Hc & Hw & _).
  exact (conj Hd (conj Hc Hw)).
Defined.

(** C5 on the queue of the run above: one counted drop, one summary
    line. *)
Lemma buildSummaryPrompt_spec_witness :
  hostRun busyEvents emptyWorld = Some busyWorld /\
  buildSummaryPrompt busyQueue =
    (Some (lit "[Queue overflow] Dropped 1 announce due to cap." ++ newline
           ++ lit "Summary:" ++ newline ++ lit "- one"),
     mkState [stored "two" "s2" "chat"; stored "three" "s3" "chat"]
             true 3 Individual 0 2 Summarize 0 [] 7).
Proof.
  assert (Hrun : hostRun busyEvents emptyWorld = Some busyWorld)
    by (vm_compute; reflexivity).
  split; [exact Hrun|].
  destruct (buildSummaryPrompt_spec (fun o => o) (fun o => o) _ _ mainKey
              busyQueue (items busyQueue) Hrun (lookup_insert_eq _ _ _))
    as [_ H].
  destruct (H (conj eq_refl (le_n 1))) as (_ & Hb & _).
  exact Hb.
Defined.

Lemma summary_lines_are_counted_and_short_witness :
  hostRun busyEvents emptyWorld = Some busyWorld /\
  length [lit "one"] <= 1 /\
  (1 = 0 -> [lit "one"] = []) /\
  Forall (fun line =>
            length line <= 160 /\
            forall c, c ∈ line -> isWhiteSpace c = true -> c = 32%N)
         [lit "one"].
Proof.
  assert (Hrun : hostRun busyEvents emptyWorld = Some busyWorld)
    by (vm_compute; reflexivity).
  split; [exact Hrun|].
  exact (summary_lines_are_counted_and_short (fun o => o) (fun o => o) _ _
           mainKey busyQueue Hrun (lookup_insert_eq _ _ _)).
Defined.

Lemma overflow_keeps_the_newest_witness :
  exists w' queue',
    enqueueAnnounce (fun o => o) (fun o => o) mainKey
      (hostItem "four" "s4" "chat") busySettings 7 4 busyWorld
    = Some (true, w') /\
    queues w' !! mainKey = Some queue' /\
    items queue' = [stored "three" "s3" "chat"; stored "four" "s4" "chat"] /\
    droppedCount queue' = 2 /\
    summaryLines queue' = [lit "one"; lit "two"].
Proof.
  assert (Hrun : hostRun busyEvents emptyWorld = Some busyWorld)
    by (vm_compute; reflexivity).
  destruct (overflow_keeps_the_newest (fun o => o) (fun o => o)
              busyEvents busyWorld mainKey (hostItem "four" "s4" "chat")
              busySettings 7 4 busyQueue 2 Hrun (lookup_insert_eq _ _ _))
    as (w' & queue' & He & Hq & Hi & _ & Hs & _).
  - reflexivity.
  - lia.
  - cbn. lia.
  - discriminate.
  - exists w', queue'. split; [exact He|]. split; [exact Hq|].
    split; [exact Hi|]. destruct Hs as [Hn Hl]; [reflexivity|].
    split; [exact Hn|exact Hl].
Defined.

Lemma accepted_enqueue_respects_cap_witness :
  enqueueAnnounce (fun o => o) (fun o => o) mainKey
    (hostItem "four" "s4" "chat")
    (Settings.mk Individual None (Some 1%num) (Some Old)) 7 4 busyWorld
  = Some (true,
          mkWorld
            (<[mainKey := mkState [stored "four" "s4" "chat"] true 4
                                  Individual 0 1 Old 1 [lit "one"] 7]> ∅)
            (<[mainKey := mkTask false AwaitDebounce]> ∅)
            [ObsStart mainKey]) /\
  (of_nat 1 <= 1)%num.
Proof.
  assert (Hrun : hostRun busyEvents emptyWorld = Some busyWorld)
    by (vm_compute; reflexivity).
  assert (He : enqueueAnnounce (fun o => o) (fun o => o) mainKey
    (hostItem "four" "s4" "chat")
    (Settings.mk Individual None (Some 1%num) (Some Old)) 7 4 busyWorld
  = Some (true,
          mkWorld
            (<[mainKey := mkState [stored "four" "s4" "chat"] true 4
                                  Individual 0 1 Old 1 [lit "one"] 7]> ∅)
            (<[mainKey := mkTask false AwaitDebounce]> ∅)
            [ObsStart mainKey])) by (vm_compute; reflexivity).
  split; [exact He|].
  exact (accepted_enqueue_respects_cap (fun o => o) (fun o => o) _ _ _ _ _
           _ _ _ _ Hrun He (lookup_insert_eq _ _ _) eq_refl).
Defined.

Lemma cap_bounds_the_queue_without_reject_policy_witness :
  Forall neverRejects busyEvents /\
  hostRun busyEvents emptyWorld = Some busyWorld /\
  (of_nat 2 <= 2)%num.
Proof.
  assert (Hal : Forall (neverRejects (DeliveryContext := str)
                          (Callback := nat)) busyEvents)
    by (repeat constructor; discriminate).
  assert (Hrun : hostRun busyEvents emptyWorld = Some busyWorld)
    by (vm_compute; reflexivity).
  split; [exact Hal|]. split; [exact Hrun|].
  exact (cap_bounds_the_queue_without_reject_policy (fun o => o) (fun o => o)
           _ _ mainKey busyQueue Hal Hrun (lookup_insert_eq _ _ _) eq_refl).
Defined.

Lemma deliveries_follow_the_enqueue_order_witness :
  exists w,
    hostRun (busyEvents ++ [EvDebounce mainKey; EvSend mainKey Resolved])
            emptyWorld = Some w /\
    deliveredItems mainKey (trace w) = [stored "two" "s2" "chat"] /\
    pendingItems mainKey w = [stored "three" "s3" "chat"] /\
    evictedItems (fun o => o) (fun o => o) mainKey
      (busyEvents ++ [EvDebounce mainKey; EvSend mainKey Resolved])
    = [stored "one" "s1" "chat"] /\
    rejectedItems (fun o => o) (fun o => o) mainKey
      (busyEvents ++ [EvDebounce mainKey; EvSend mainKey Resolved])
    = [] /\
    (deliveredItems mainKey (trace w) ++ pendingItems mainKey w)
      `sublist_of`
      [stored "one" "s1" "chat"; stored "two" "s2" "chat";
       stored "three" "s3" "chat"] /\
    [stored "one" "s1" "chat"; stored "two" "s2" "chat";
     stored "three" "s3" "chat"]
    ≡ₚ deliveredItems mainKey (trace w) ++ pendingItems mainKey w
       ++ [stored "one" "s1" "chat"] ++ [].
Proof.
  eexists. split; [vm_compute; reflexivity|].
  split; [vm_compute; reflexivity|]. split; [vm_compute; reflexivity|].
  split; [vm_compute; reflexivity|]. split; [vm_compute; reflexivity|].
  destruct (deliveries_follow_the_enqueue_order (fun o => o) (fun o => o)
              (busyEvents ++ [EvDebounce mainKey; EvSend mainKey Resolved])
              _ mainKey ltac:(vm_compute; reflexivity)) as (Hs & Hp & _).
  split; [exact Hs | exact Hp].
Defined.

Lemma every_message_is_the_last_item_taken_witness :
  exists w,
    hostRun (busyEvents ++ [EvDebounce mainKey; EvSend mainKey Resolved])
            emptyWorld = Some w /\
    length (trace w) = 2 /\
    Forall (fun o =>
              match o with
              | ObsSend _ _ removed arg =>
                  exists lastItem,
                    last removed = Some lastItem /\
                    arg = set_prompt (prompt arg) lastItem
              | _ => True
              end) (trace w).
Proof.
  eexists. split; [vm_compute; reflexivity|].
  split; [vm_compute; reflexivity|].
  apply (every_message_is_the_last_item_taken (fun o => o) (fun o => o)
           (busyEvents ++ [EvDebounce mainKey; EvSend mainKey Resolved])).
  vm_compute; reflexivity.
Defined.

Local Abbreviation twoCallbacks :=
  [EvEnqueue mainKey (hostItem "one" "s1" "chat")
     (Settings.mk Collect None None None) 7 1;
   EvEnqueue mainKey (hostItem "two" "s2" "chat")
     (Settings.mk Individual None None None) 8 2].

Lemma latest_enqueue_sets_mode_and_callback_witness :
  exists w w',
    hostRun twoCallbacks emptyWorld = Some w /\
    hostStep (EvDebounce mainKey) w = Some w' /\
    trace w' =
      trace w ++ [ObsSend mainKey 8 [stored "one" "s1" "chat"]
                          (stored "one" "s1" "chat")] /\
    latestEnqueue mainKey twoCallbacks = Some (Individual, 8) /\
    exists m, latestEnqueue mainKey twoCallbacks = Some (m, 8).
Proof.
  eexists _, _. split; [vm_compute; reflexivity|].
  split; [vm_compute; reflexivity|]. split; [vm_compute; reflexivity|].
  split; [vm_compute; reflexivity|].
  eapply (proj2 (latest_enqueue_sets_mode_and_callback
                   (fun o => o) (fun o => o) twoCallbacks _
                   ltac:(vm_compute; reflexivity))
            (EvDebounce mainKey)).
  - vm_compute; reflexivity.
  - vm_compute; reflexivity.
Defined.

Lemma individual_notice_replaces_the_head_prompt_witness :
  drainCycle false busyQueue
  = CySend (mkState [stored "three" "s3" "chat"] true 3 Individual 0 2
                    Summarize 0 [] 7)
           false [stored "two" "s2" "chat"]
           (set_prompt
              (lit "[Queue overflow] Dropped 1 announce due to cap."
               ++ newline ++ lit "Summary:" ++ newline ++ lit "- one")
              (stored "two" "s2" "chat")).
Proof.
  exact (proj1 (individual_notice_replaces_the_head_prompt
                  false busyQueue (stored "two" "s2" "chat")
                  [stored "three" "s3" "chat"]
                  eq_refl eq_refl (Nat.lt_0_1) eq_refl)).
Defined.

Lemma undisturbed_drain_sends_every_item_in_order_witness :
  hostRun [EvDebounce mainKey; EvSend mainKey Resolved;
           EvDebounce mainKey; EvSend mainKey Resolved]
    (mkWorld (<[mainKey := mkState [stored "first" "s1" "chat";
                                    stored "second" "s2" "mail"]
                                   true 2 Individual 0 20 Summarize 0 [] 7]> ∅)
             (<[mainKey := mkTask false AwaitDebounce]> ∅) [])
  = Some (mkWorld (delete mainKey ∅) (delete mainKey ∅)
            ([] ++ [ObsSend mainKey 7 [stored "first" "s1" "chat"]
                            (stored "first" "s1" "chat");
                    ObsSend mainKey 7 [stored "second" "s2" "mail"]
                            (stored "second" "s2" "mail")])).
Proof.
  apply (undisturbed_drain_sends_every_item_in_order
           (fun o => o) (fun o => o) mainKey
           (mkState [stored "first" "s1" "chat"; stored "second" "s2" "mail"]
                    true 2 Individual 0 20 Summarize 0 [] 7)
           false ∅ ∅ []).
  - by left.
  - reflexivity.
  - discriminate.
Defined.

Lemma undisturbed_collect_drain_sends_one_batch_witness :
  hostRun [EvDebounce mainKey; EvSend mainKey Resolved]
    (mkWorld (<[mainKey := mkState [stored "first" "s1" "chat";
                                    stored "second" "s2" "chat"]
                                   true 2 Collect 0 20 Summarize 0 [] 7]> ∅)
             (<[mainKey := mkTask false AwaitDebounce]> ∅) [])
  = Some (mkWorld (delete mainKey ∅) (delete mainKey ∅)
            ([] ++ [ObsSend mainKey 7
                      [stored "first" "s1" "chat"; stored "second" "s2" "chat"]
                      (set_prompt
                         (buildCollectPrompt
                            [stored "first" "s1" "chat";
                             stored "second" "s2" "chat"] None)
                         (stored "second" "s2" "chat"))])).
Proof.
  apply (undisturbed_collect_drain_sends_one_batch
           (fun o => o) (fun o => o) mainKey
           (mkState [stored "first" "s1" "chat"; stored "second" "s2" "chat"]
                    true 2 Collect 0 20 Summarize 0 [] 7)
           (stored "second" "s2" "chat") ∅ ∅ []).
  - reflexivity.
  - vm_compute; reflexivity.
  - reflexivity.
  - by left.
Defined.

Local Abbreviation otherKey := (lit "other").
Local Abbreviation twoKeys :=
  [EvEnqueue mainKey (hostItem "one" "s1" "chat") busySettings 7 1;
   EvEnqueue otherKey (hostItem "else" "s9" "mail") busySettings 9 2;
   EvDebounce otherKey;
   EvEnqueue mainKey (hostItem "two" "s2" "chat") busySettings 7 3;
   EvSend otherKey (Rejected (lit "boom"));
   EvDebounce mainKey].

Lemma keys_do_not_interfere_witness :
  exists w w',
    hostRun twoKeys emptyWorld = Some w /\
    eventsOf mainKey twoKeys =
      [EvEnqueue mainKey (hostItem "one" "s1" "chat") busySettings 7 1;
       EvEnqueue mainKey (hostItem "two" "s2" "chat") busySettings 7 3;
       EvDebounce mainKey] /\
    hostRun (eventsOf mainKey twoKeys) emptyWorld = Some w' /\
    queues w' !! mainKey = queues w !! mainKey /\
    drains w' !! mainKey = drains w !! mainKey /\
    obsOf mainKey (trace w') = obsOf mainKey (trace w).
Proof.
  destruct (hostRun twoKeys emptyWorld) as [w|] eqn:Hrun;
    [|vm_compute in Hrun; discriminate].
  destruct (keys_do_not_interfere (fun o => o) (fun o => o) twoKeys w mainKey
              Hrun) as (w' & Hrun' & Hq & Hd & Ho).
  exists w, w'. split; [reflexivity|].
  split; [vm_compute; reflexivity|].
  split; [exact Hrun'|]. split; [exact Hq|]. split; [exact Hd|exact Ho].
Defined.

Lemma enqueueAnnounce_postcondition_witness :
  hostRun busyEvents emptyWorld = Some busyWorld /\
  exists accepted w' queue' task,
    enqueueAnnounce (fun o => o) (fun o => o) mainKey
      (hostItem "four" "s4" "chat")
      (Settings.mk Collect None None (Some New)) 9 4 busyWorld
    = Some (accepted, w') /\
    queues w' !! mainKey = Some queue' /\ drains w' !! mainKey = Some task /\
    draining queue' = true /\ lastEnqueuedAt queue' = 4%Q /\
    mode queue' = Collect /\ send queue' = 9 /\
    (accepted = true ->
       last (items queue') = Some (stored "four" "s4" "chat")) /\
    (accepted = false ->
       dropPolicy queue' = New /\ (0 < cap queue')%num /\
       (cap queue' <= of_nat (length (items queue')))%num /\
       pendingItems mainKey w' = pendingItems mainKey busyWorld) /\
    (forall key', key' <> mainKey ->
       queues w' !! key' = queues busyWorld !! key' /\
       drains w' !! key' = drains busyWorld !! key').
Proof.
  assert (Hrun : hostRun busyEvents emptyWorld = Some busyWorld)
    by (vm_compute; reflexivity).
  split; [exact Hrun|].
  exact (enqueueAnnounce_postcondition (fun o => o) (fun o => o) busyEvents
           busyWorld mainKey (hostItem "four" "s4" "chat")
           (Settings.mk Collect None None (Some New)) 9 4 Hrun).
Defined.

Lemma sends_of_a_key_are_sequential_witness :
  exists w w',
    hostRun (busyEvents ++ [EvDebounce mainKey]) emptyWorld = Some w /\
    drains w !! mainKey = Some (mkTask false AwaitSend) /\
    hostStep (EvEnqueue mainKey (hostItem "four" "s4" "chat") busySettings 7 4)
             w = Some w' /\
    drains w' !! mainKey = Some (mkTask false AwaitSend) /\
    obsOf mainKey (trace w') = obsOf mainKey (trace w).
Proof.
  destruct (hostRun (busyEvents ++ [EvDebounce mainKey]) emptyWorld)
    as [w|] eqn:Hrun; [|vm_compute in Hrun; discriminate].
  assert (Hd : drains w !! mainKey = Some (mkTask false AwaitSend)).
  { vm_compute in Hrun. injection Hrun as <-. vm_compute. reflexivity. }
  destruct (hostStep (EvEnqueue mainKey (hostItem "four" "s4" "chat")
                        busySettings 7 4) w) as [w'|] eqn:Hstep.
  2:{ destruct (step_total (fun o => o) (fun o => o)
                  (EvEnqueue mainKey (hostItem "four" "s4" "chat")
                     busySettings 7 4) w) as [x Hx].
      rewrite Hx in Hstep. discriminate. }
  exists w, w'. split; [reflexivity|]. split; [exact Hd|].
  split; [exact Hstep|].
  apply (sends_of_a_key_are_sequential (fun o => o) (fun o => o)
           (busyEvents ++ [EvDebounce mainKey]) w w' mainKey false
           (EvEnqueue mainKey (hostItem "four" "s4" "chat") busySettings 7 4)
           Hrun Hd).
  - intros outcome. discriminate.
  - exact Hstep.
Defined.

Lemma undisturbed_drain_comes_to_an_end_witness :
  hostRun busyEvents emptyWorld = Some busyWorld /\
  exists es w',
    Forall (fun e => e = EvDebounce mainKey \/ e = EvSend mainKey Resolved) es /\
    length es <= 7 /\
    hostRun es busyWorld = Some w' /\
    queues w' !! mainKey = None /\ drains w' !! mainKey = None /\
    (forall key', key' <> mainKey ->
       queues w' !! key' = queues busyWorld !! key' /\
       drains w' !! key' = drains busyWorld !! key').
Proof.
  assert (Hrun : hostRun busyEvents emptyWorld = Some busyWorld)
    by (vm_compute; reflexivity).
  split; [exact Hrun|].
  exact (undisturbed_drain_comes_to_an_end (fun o => o) (fun o => o)
           busyEvents busyWorld mainKey busyQueue Hrun
           (lookup_insert_eq _ _ _) (or_intror eq_refl)).
Defined.
